(** * ALAN-2022 compiler: scanner, symbol table, code emitter and parser

    A shallow embedding of the C sources (scanner.c, hashtable.c,
    symboltable.c, codegen.c, alanc.c) and the properties stated about them.

    Conventions of the embedding:
    - C [int] values are [Z]; a source character is the [Z] that [fgetc]
      returns, with [EOF = -1];
    - every global of a C unit is a field of that unit's state record;
    - a C function that can end the process through [leprintf], reach
      behaviour the C standard leaves undefined, or loop, returns a
      [result]. *)

From Stdlib Require Import ZArith List String Ascii Lia Bool DecimalString.
From Stdlib Require Import QArith.
From stdpp Require Import base option list gmap.
Import ListNotations.

Local Open Scope string_scope.
Local Open Scope list_scope.
Local Open Scope Z_scope.

(** ** Outcomes *)

Record SourcePos := { line : Z; col : Z }.

(** Modelled from the spec: error.c is not among the sources; the spec says
    its reporting functions print the diagnostic, prefixed by the current
    source position, and exit.  [Fatal] carries that position and the message
    text; [Aborted] is a failed [assert]; [Undefined] marks behaviour C leaves
    undefined; [OutOfFuel] marks a loop that was cut off by the fuel of the
    model. *)
Inductive result (A : Type) : Type :=
| Ok (a : A)
| Fatal (pos : SourcePos) (msg : string)
| Aborted
| Undefined
| OutOfFuel.

Arguments Ok {A} a.
Arguments Fatal {A} pos msg.
Arguments Aborted {A}.
Arguments Undefined {A}.
Arguments OutOfFuel {A}.

Definition bind {A B : Type} (m : result A) (k : A -> result B) : result B :=
  match m with
  | Ok a => k a
  | Fatal p msg => Fatal p msg
  | Aborted => Aborted
  | Undefined => Undefined
  | OutOfFuel => OutOfFuel
  end.

Declare Scope result_scope.
Delimit Scope result_scope with result.
Notation "'let*' x ':=' m 'in' k" := (bind m (fun x => k))
  (at level 10, x pattern, m at level 100, k at level 200) : result_scope.
Local Open Scope result_scope.

Definition leprintf {A : Type} (pos : SourcePos) (msg : string) : result A :=
  Fatal pos msg.

(** ** Characters *)

Definition EOF : Z := -1.
Definition INT_MAX : Z := 2147483647.
Definition MAX_ID_LENGTH : Z := 32.

Definition chr (a : ascii) : Z := Z.of_N (N_of_ascii a).
Arguments chr a%_char.
Definition to_ascii (c : Z) : ascii := ascii_of_N (Z.to_N (c mod 256)).
Definition decimal (n : Z) : string := NilZero.string_of_int (Z.to_int n).

Definition NL : Z := 10.
Definition TAB : Z := 9.
Definition SPACE : Z := 32.
Definition DQUOTE : Z := 34.
Definition BACKSLASH : Z := 92.
Definition LBRACE : Z := 123.
Definition RBRACE : Z := 125.

(** The <ctype.h> classes in the C locale. *)
Definition isdigit (c : Z) : bool := (48 <=? c) && (c <=? 57).
Definition isalpha (c : Z) : bool :=
  ((65 <=? c) && (c <=? 90)) || ((97 <=? c) && (c <=? 122)).
Definition isprint (c : Z) : bool := (32 <=? c) && (c <=? 126).

(** ** Tokens *)

(** Modelled from the spec: token.h is not among the sources.  The token
    kinds are the ones scanner.c and alanc.c name. *)
Inductive TokenType : Type :=
| TOKEN_EOF | TOKEN_ID | TOKEN_NUMBER | TOKEN_STRING
| TOKEN_ARRAY | TOKEN_BEGIN | TOKEN_BOOLEAN | TOKEN_CALL | TOKEN_DO
| TOKEN_ELSE | TOKEN_ELSIF | TOKEN_END | TOKEN_FALSE | TOKEN_FUNCTION
| TOKEN_GET | TOKEN_IF | TOKEN_INTEGER | TOKEN_LEAVE | TOKEN_NOT
| TOKEN_PUT | TOKEN_RELAX | TOKEN_SOURCE | TOKEN_THEN | TOKEN_TO
| TOKEN_TRUE | TOKEN_WHILE
| TOKEN_EQUAL | TOKEN_GREATER_EQUAL | TOKEN_GREATER_THAN
| TOKEN_LESS_EQUAL | TOKEN_LESS_THAN | TOKEN_NOT_EQUAL
| TOKEN_MINUS | TOKEN_OR | TOKEN_PLUS
| TOKEN_AND | TOKEN_DIVIDE | TOKEN_MULTIPLY | TOKEN_REMAINDER
| TOKEN_CLOSE_BRACKET | TOKEN_CLOSE_PARENTHESIS | TOKEN_COMMA
| TOKEN_CONCATENATE | TOKEN_GETS | TOKEN_OPEN_BRACKET
| TOKEN_OPEN_PARENTHESIS | TOKEN_SEMICOLON.

Definition TokenType_eq_dec (a b : TokenType) : {a = b} + {a <> b}.
Proof. decide equality. Defined.

Definition tok_eqb (a b : TokenType) : bool :=
  if TokenType_eq_dec a b then true else false.

(** The token record: the kind, and the fields the scanner fills in for
    numbers, identifiers and strings.  The string payload is the sequence of
    bytes [process_string] stores. *)
Record Token := {
  tok_type : TokenType;
  tok_value : Z;
  tok_lexeme : string;
  tok_string : list Z
}.

Definition set_type (t : Token) (ty : TokenType) : Token :=
  {| tok_type := ty; tok_value := tok_value t;
     tok_lexeme := tok_lexeme t; tok_string := tok_string t |}.

(** ** Scanner state (the globals of scanner.c and the shared [position]) *)

Record Scanner := {
  src_file : list ascii;
  ch : Z;
  column_number : Z;
  position : SourcePos
}.

Definition set_col (s : Scanner) (c : Z) : Scanner :=
  {| src_file := src_file s; ch := ch s; column_number := column_number s;
     position := {| line := line (position s); col := c |} |}.

Definition fgetc (f : list ascii) : Z * list ascii :=
  match f with
  | [] => (EOF, [])
  | c :: rest => (chr c, rest)
  end.

(** [next_char]: [last_read] is assigned from [ch] before it is read, so the
    static needs no field of its own. *)
Definition next_char (s : Scanner) : Scanner :=
  let last_read := ch s in
  let '(c, rest) := fgetc (src_file s) in
  if c =? EOF then
    {| src_file := rest; ch := c; column_number := column_number s;
       position := position s |}
  else
    let '(ln, cn) :=
      if last_read =? NL then (line (position s) + 1, 1)
      else (line (position s), column_number s) in
    let cn := if negb (last_read =? NL) then cn + 1 else cn in
    {| src_file := rest; ch := c; column_number := cn;
       position := {| line := ln; col := col (position s) |} |}.

Definition init_scanner (in_file : list ascii) : Scanner :=
  next_char {| src_file := in_file; ch := 0; column_number := 0;
               position := {| line := 1; col := 0 |} |}.

(** *** Numbers *)

Fixpoint process_number_loop (fuel : nat) (v : Z) (s : Scanner)
  : result (Z * Scanner) :=
  match fuel with
  | O => OutOfFuel
  | S fuel' =>
    if isdigit (ch s) then
      let d := ch s - chr "0" in
      if v <=? Z.quot (INT_MAX - d) 10 then
        process_number_loop fuel' (10 * v + d) (next_char s)
      else leprintf (position s) "number too large"
    else Ok (v, s)
  end.

Definition process_number (fuel : nat) (token : Token) (s : Scanner)
  : result (Token * Scanner) :=
  let* (v, s') := process_number_loop fuel 0 s in
  Ok ({| tok_type := TOKEN_NUMBER; tok_value := v;
         tok_lexeme := tok_lexeme token; tok_string := tok_string token |}, s').

(** *** Strings *)

Definition illegal_escape (c : Z) : bool :=
  (c =? chr "a") || (c =? chr "b") || (c =? chr "f") || (c =? chr "r")
  || (c =? chr "v") || (c =? chr "'") || (c =? chr "?").

Definition msg_illegal_escape (c : Z) : string :=
  ("illegal escape code '\" ++ String (to_ascii c) "' in string")%string.

Definition msg_non_printable (c : Z) : string :=
  ("non-printable character (ASCII #" ++ decimal c ++ ") in string")%string.

Definition msg_illegal_character (c : Z) : string :=
  ("illegal character '" ++ String (to_ascii c) "' (ASCII #" ++ decimal c ++ ")")%string.

(** One pass of the [while] loop of [process_string] per unit of fuel.  The
    model keeps the bytes the loop stores ([string[i] = ...; i++]), in order;
    the sizes handed to [malloc] and [realloc] and the position of the final
    terminator are not part of it. *)
Fixpoint process_string_loop (fuel : nat) (str : list Z) (s : Scanner)
  : result (list Z * Scanner) :=
  match fuel with
  | O => OutOfFuel
  | S fuel' =>
    if negb (ch s =? DQUOTE) && negb (ch s =? EOF) then
      if negb (isprint (ch s)) then
        leprintf (position (set_col s (column_number s)))
                 (msg_non_printable (ch s))
      else if ch s =? BACKSLASH then
        let s1 := next_char s in
        let s2 := set_col s1 (column_number s1 - 1) in
        if illegal_escape (ch s2) then
          leprintf (position s2) (msg_illegal_escape (ch s2))
        else
          process_string_loop fuel' (str ++ [BACKSLASH; ch s2]) (next_char s2)
      else
        process_string_loop fuel' (str ++ [ch s]) (next_char s)
    else Ok (str, s)
  end.

Definition process_string (fuel : nat) (token : Token) (s : Scanner)
  : result (Token * Scanner) :=
  let* (str, s') := process_string_loop fuel [] s in
  if ch s' =? EOF then leprintf (position s') "string not closed"
  else
    Ok ({| tok_type := TOKEN_STRING; tok_value := tok_value token;
           tok_lexeme := tok_lexeme token; tok_string := str |},
        next_char s').

(** *** Comments *)

Fixpoint skip_comment (fuel : nat) (s : Scanner) : result Scanner :=
  match fuel with
  | O => OutOfFuel
  | S fuel' =>
    let start_pos := {| line := line (position s); col := column_number s |} in
    let* s' := skip_comment_loop fuel' (next_char s) in
    if ch s' =? EOF then leprintf start_pos "comment not closed"
    else Ok s'
  end
with skip_comment_loop (fuel : nat) (s : Scanner) : result Scanner :=
  match fuel with
  | O => OutOfFuel
  | S fuel' =>
    if negb (ch s =? RBRACE) && negb (ch s =? EOF) then
      let* s1 := (if ch s =? LBRACE then skip_comment fuel' s else Ok s) in
      skip_comment_loop fuel' (next_char s1)
    else Ok s
  end.

(** *** Words *)

Definition reserved : list (string * TokenType) :=
  [ ("and", TOKEN_AND); ("array", TOKEN_ARRAY); ("begin", TOKEN_BEGIN);
    ("boolean", TOKEN_BOOLEAN); ("call", TOKEN_CALL); ("do", TOKEN_DO);
    ("else", TOKEN_ELSE); ("elsif", TOKEN_ELSIF); ("end", TOKEN_END);
    ("false", TOKEN_FALSE); ("function", TOKEN_FUNCTION); ("get", TOKEN_GET);
    ("if", TOKEN_IF); ("integer", TOKEN_INTEGER);
    ("leave", TOKEN_LEAVE); ("not", TOKEN_NOT); ("or", TOKEN_OR);
    ("put", TOKEN_PUT); ("relax", TOKEN_RELAX); ("rem", TOKEN_REMAINDER);
    ("source", TOKEN_SOURCE); ("then", TOKEN_THEN); ("to", TOKEN_TO);
    ("true", TOKEN_TRUE); ("while", TOKEN_WHILE) ].

Definition NUM_RESERVED_WORDS : Z := Z.of_nat (List.length reserved).

Definition strcmp (a b : string) : Z :=
  match String.compare a b with
  | Lt => -1
  | Eq => 0
  | Gt => 1
  end.

Definition is_word_char (c : Z) : bool :=
  isalpha c || isdigit c || (c =? chr "_").

Fixpoint process_word_loop (fuel : nat) (lexeme : string) (i : Z) (s : Scanner)
  : result (string * Scanner) :=
  match fuel with
  | O => OutOfFuel
  | S fuel' =>
    if is_word_char (ch s) then
      if i <? MAX_ID_LENGTH then
        process_word_loop fuel' (lexeme ++ String (to_ascii (ch s)) "")%string
                          (i + 1) (next_char s)
      else leprintf (position s) "identifier too long"
    else Ok (lexeme, s)
  end.

(** The binary search over [reserved]; the result is [index]. *)
Fixpoint search_reserved (fuel : nat) (lexeme : string) (low high : Z)
  : result Z :=
  match fuel with
  | O => OutOfFuel
  | S fuel' =>
    if low <=? high then
      if high <? low then Ok (-1)
      else
        let mid := low + Z.quot (high - low) 2 in
        match nth_error reserved (Z.to_nat mid) with
        | None => Undefined
        | Some (word, _) =>
          let high := if strcmp lexeme word <? 0 then mid - 1 else high in
          if strcmp lexeme word =? 0 then Ok mid
          else
            let low := if 0 <? strcmp lexeme word then mid + 1 else low in
            search_reserved fuel' lexeme low high
        end
    else Ok (-1)
  end.

Definition process_word (fuel : nat) (token : Token) (s : Scanner)
  : result (Token * Scanner) :=
  let s0 := set_col s (column_number s) in
  let* (lexeme, s') := process_word_loop fuel "" 0 s0 in
  let* index := search_reserved (S (List.length reserved)) lexeme 0
                                (NUM_RESERVED_WORDS - 1) in
  if index =? -1 then
    Ok ({| tok_type := TOKEN_ID; tok_value := tok_value token;
           tok_lexeme := lexeme; tok_string := tok_string token |}, s')
  else
    match nth_error reserved (Z.to_nat index) with
    | None => Undefined
    | Some (_, ty) => Ok (set_type token ty, s')
    end.

(** *** [get_token] *)

Fixpoint skip_whitespace (fuel : nat) (s : Scanner) : result Scanner :=
  match fuel with
  | O => OutOfFuel
  | S fuel' =>
    if (ch s =? SPACE) || (ch s =? TAB) || (ch s =? NL)
    then skip_whitespace fuel' (next_char s)
    else Ok s
  end.

Definition single (token : Token) (ty : TokenType) (s : Scanner)
  : result (Token * Scanner) :=
  Ok (set_type token ty, next_char s).

Definition case_equal (token : Token) (s : Scanner) :=
  single token TOKEN_EQUAL s.

(** [case '>'], which the source lets fall through into [case '=']. *)
Definition case_greater (token : Token) (s : Scanner)
  : result (Token * Scanner) :=
  let s := next_char s in
  if ch s =? SPACE then single token TOKEN_GREATER_THAN s
  else if ch s =? chr "=" then single token TOKEN_GREATER_EQUAL s
  else if negb (ch s =? SPACE) || negb (ch s =? chr "=")
       then Ok (set_type token TOKEN_GREATER_THAN, s)
  else case_equal token s.

(** [case '<'], which the source lets fall through into [case '>']. *)
Definition case_less (token : Token) (s : Scanner)
  : result (Token * Scanner) :=
  let s := next_char s in
  if ch s =? SPACE then single token TOKEN_LESS_THAN s
  else if ch s =? chr ">" then single token TOKEN_NOT_EQUAL s
  else if ch s =? chr "=" then single token TOKEN_LESS_EQUAL s
  else if negb (ch s =? SPACE) || negb (ch s =? chr "=")
          || negb (ch s =? chr ">")
       then Ok (set_type token TOKEN_LESS_THAN, s)
  else case_greater token s.

Fixpoint get_token (fuel : nat) (token : Token) (s : Scanner)
  : result (Token * Scanner) :=
  match fuel with
  | O => OutOfFuel
  | S fuel' =>
    let* s := skip_whitespace fuel s in
    let s := set_col s (column_number s) in
    let c := ch s in
    if negb (c =? EOF) then
      if isalpha c || (c =? chr "_") then process_word fuel token s
      else if isdigit c then process_number fuel token s
      else if c =? DQUOTE then
        process_string fuel token (next_char (set_col s (column_number s)))
      else if c =? LBRACE then
        let* s1 := skip_comment fuel s in
        get_token fuel' token (next_char s1)
      else if c =? chr "(" then single token TOKEN_OPEN_PARENTHESIS s
      else if c =? chr ")" then single token TOKEN_CLOSE_PARENTHESIS s
      else if c =? RBRACE then leprintf (position s) (msg_illegal_character c)
      else if c =? chr "[" then single token TOKEN_OPEN_BRACKET s
      else if c =? chr "]" then single token TOKEN_CLOSE_BRACKET s
      else if c =? chr "+" then single token TOKEN_PLUS s
      else if c =? chr "-" then single token TOKEN_MINUS s
      else if c =? chr "/" then single token TOKEN_DIVIDE s
      else if c =? chr "*" then single token TOKEN_MULTIPLY s
      else if c =? chr ";" then single token TOKEN_SEMICOLON s
      else if c =? chr "," then single token TOKEN_COMMA s
      else if c =? chr "." then single token TOKEN_CONCATENATE s
      else if c =? chr ":" then
        let t := c in
        let s1 := next_char s in
        if ch s1 =? chr "=" then single token TOKEN_GETS s1
        else leprintf (position s1) (msg_illegal_character t)
      else if c =? chr "<" then case_less token s
      else if c =? chr ">" then case_greater token s
      else if c =? chr "=" then case_equal token s
      else leprintf (position s) (msg_illegal_character c)
    else Ok (set_type token TOKEN_EOF, s)
  end.

(** Fuel that covers every loop of the scanner on what is left of the
    input: each pass of each loop reads a character. *)
Definition scan_fuel (s : Scanner) : nat := 2 * List.length (src_file s) + 4.

Definition empty_token : Token :=
  {| tok_type := TOKEN_EOF; tok_value := 0; tok_lexeme := "";
     tok_string := [] |}.

Definition src (text : string) : list ascii := list_ascii_of_string text.

Definition scan1 (text : string) :=
  let s := init_scanner (src text) in
  get_token (scan_fuel s) empty_token s.


(** ** The hash table (hashtable.c)

    Keys are the identifier strings, compared through [cmp]; values are the
    addresses of the records the caller allocated.  A bucket is the chain of
    its entries in [next_ptr] order.  [ht_insert] does not assign
    [next_ptr] of an entry it puts at the head of an empty bucket, and every
    traversal in the source stops at a NULL [next_ptr]; the model takes the
    field to read as NULL there, as it does in memory the allocator hands
    out zeroed, so that a chain ends where its entries end. *)

Definition ptr := nat.
Definition NULL : ptr := 0%nat.

Record HTentry := { e_key : string; e_value : ptr }.

Record HashTab := {
  ht_table : list (list HTentry);
  ht_size : Z;
  ht_num_entries : Z;
  ht_max_loadfactor : Q;
  ht_idx : Z;
  ht_hash : string -> Z -> Z;
  ht_cmp : string -> string -> Z
}.

Definition INITIAL_DELTA_INDEX : Z := 4.

Definition delta : list Z :=
  [ 0; 0; 1; 1; 3; 1; 3; 1; 5; 3; 3; 9; 3; 1; 3; 19; 15;
    1; 5; 1; 3; 9; 3; 15; 3; 39; 5; 39; 57; 3; 35; 1 ].

Definition MAX_IDX : Z := Z.of_nat (List.length delta).

Definition EXIT_SUCCESS : Z := 0.

(** Modelled from the spec: hashtable.h is not among the sources; the failure
    code of [ht_insert] is a constant other than [EXIT_SUCCESS]. *)
Definition HASH_TABLE_KEY_VALUE_PAIR_EXISTS : Z := -1.

Definition ht_init (loadfactor : Q) (hash : string -> Z -> Z)
           (cmp : string -> string -> Z) : HashTab :=
  {| ht_table := replicate 13 [];
     ht_size := 13;
     ht_num_entries := 1;
     ht_max_loadfactor := loadfactor;
     ht_idx := INITIAL_DELTA_INDEX;
     ht_hash := hash;
     ht_cmp := cmp |}.

Definition in_int_range (n : Z) : bool := (- 2147483648 <=? n) && (n <=? INT_MAX).

(** [power] of hashtable.c, on [int]; signed overflow is undefined. *)
Fixpoint power_loop (n : nat) (num new_num : Z) : result Z :=
  match n with
  | O => Ok new_num
  | S n' =>
    if in_int_range (new_num * num) then power_loop n' num (new_num * num)
    else Undefined
  end.

Definition power (num exponent : Z) : result Z :=
  power_loop (Z.to_nat (exponent - 1)) num num.

(** The [for] loop of [getsize]; the result is [next_prime]. *)
Fixpoint getsize_loop (fuel : nat) (i curr_prime : Z) : result Z :=
  match fuel with
  | O => OutOfFuel
  | S fuel' =>
    if i <? MAX_IDX then
      let* p := power 2 i in
      if curr_prime <? p then
        let* p2 := power 2 (i + 1) in
        match delta !! Z.to_nat (i + 1) with
        | Some d => Ok (p2 - d)
        | None => Undefined
        end
      else getsize_loop fuel' (i + 1) curr_prime
    else Ok 0
  end.

(** [getsize] returns the next size and the table with [idx] advanced. *)
Definition set_idx (ht : HashTab) (i : Z) : HashTab :=
  {| ht_table := ht_table ht; ht_size := ht_size ht;
     ht_num_entries := ht_num_entries ht;
     ht_max_loadfactor := ht_max_loadfactor ht; ht_idx := i;
     ht_hash := ht_hash ht; ht_cmp := ht_cmp ht |}.

Definition getsize (ht : HashTab) : result (Z * HashTab) :=
  let curr_prime := ht_size ht in
  if curr_prime <? 13 then Ok (13, ht)
  else
    let* next_prime :=
      getsize_loop (S (List.length delta)) INITIAL_DELTA_INDEX curr_prime in
    Ok (next_prime, set_idx ht ((ht_idx ht + 1) mod 65536)).

Definition bucket_index (ht : HashTab) (key : string) : Z :=
  ht_hash ht key (ht_size ht).

Fixpoint search_chain (cmp : string -> string -> Z) (key : string)
         (chain : list HTentry) : option ptr :=
  match chain with
  | [] => None
  | p :: rest =>
    if cmp key (e_key p) =? 0 then Some (e_value p)
    else search_chain cmp key rest
  end.

(** [ht_search]: [Some v] is TRUE with [*value = v]; [None] is FALSE, with
    [*value] left as it was.  An index outside the table is undefined. *)
Definition ht_search (ht : HashTab) (key : string) : result (option ptr) :=
  match ht_table ht !! Z.to_nat (bucket_index ht key) with
  | Some chain =>
    if 0 <=? bucket_index ht key then Ok (search_chain (ht_cmp ht) key chain)
    else Undefined
  | None => Undefined
  end.

(** [nentries / tsize >= loadf].  The three are C floats; for [loadf = 0.75]
    and tables of fewer than 2^23 buckets the rounded quotient compares with
    0.75 as the exact one does, which is what the model computes. *)
Definition load_reached (ht : HashTab) : bool :=
  Qle_bool (ht_max_loadfactor ht)
           (inject_Z (ht_num_entries ht) / inject_Z (ht_size ht)).

Definition add_entry (ht : HashTab) (k : nat) (chain : list HTentry)
  : HashTab :=
  {| ht_table := <[ k := chain ]> (ht_table ht); ht_size := ht_size ht;
     ht_num_entries := ht_num_entries ht + 1;
     ht_max_loadfactor := ht_max_loadfactor ht; ht_idx := ht_idx ht;
     ht_hash := ht_hash ht; ht_cmp := ht_cmp ht |}.

(** [rehash], given the function that inserts into the new table.  The
    entries are moved in bucket order; [ht] keeps its own [num_entries] and
    takes the table and size of [newht]. *)
Definition rehash_with
           (insert : HashTab -> string -> ptr -> result (Z * HashTab))
           (ht : HashTab) : result HashTab :=
  let* (newsize, ht) := getsize ht in
  let newht :=
    {| ht_table := replicate (Z.to_nat newsize) [];
       ht_size := newsize;
       ht_num_entries := ht_num_entries ht;
       ht_max_loadfactor := ht_max_loadfactor ht; ht_idx := ht_idx ht;
       ht_hash := ht_hash ht; ht_cmp := ht_cmp ht |} in
  let* newht :=
    fold_left (fun acc p => let* h := acc in
                            let* (_, h') := insert h (e_key p) (e_value p) in
                            Ok h')
              (concat (ht_table ht)) (Ok newht) in
  Ok {| ht_table := ht_table newht; ht_size := ht_size newht;
        ht_num_entries := ht_num_entries ht;
        ht_max_loadfactor := ht_max_loadfactor ht; ht_idx := ht_idx ht;
        ht_hash := ht_hash ht; ht_cmp := ht_cmp ht |}.

(** [ht_insert]; a unit of fuel per level of [rehash] inside [ht_insert].
    The call [ht_search(ht, key, value)] passes the value pointer itself as
    the out-parameter, so on a hit the first word of the caller's record is
    overwritten; the table is not touched by that store. *)
Fixpoint ht_insert_fuel (fuel : nat) (ht : HashTab) (key : string)
         (value : ptr) : result (Z * HashTab) :=
  match fuel with
  | O => OutOfFuel
  | S fuel' =>
    let* ht := (if load_reached ht then rehash_with (ht_insert_fuel fuel') ht
                else Ok ht) in
    let* found := ht_search ht key in
    match found with
    | None =>
      let k := Z.to_nat (bucket_index ht key) in
      match ht_table ht !! k with
      | None => Undefined
      | Some [] =>
        Ok (EXIT_SUCCESS, add_entry ht k [ {| e_key := key; e_value := value |} ])
      | Some chain =>
        Ok (EXIT_SUCCESS,
            add_entry ht k (chain ++ [ {| e_key := key; e_value := value |} ]))
      end
    | Some _ => Ok (HASH_TABLE_KEY_VALUE_PAIR_EXISTS, ht)
    end
  end.

Definition rehash (fuel : nat) (ht : HashTab) : result HashTab :=
  rehash_with (ht_insert_fuel fuel) ht.

(** Every level of [rehash] moves to a larger size and [getsize] has fewer
    than 32 sizes to give, so 32 levels are never used up. *)
Definition HT_DEPTH : nat := 32.

Definition ht_insert (ht : HashTab) (key : string) (value : ptr)
  : result (Z * HashTab) :=
  ht_insert_fuel HT_DEPTH ht key value.

(** ** Value types and identifier properties *)

(** Modelled from the spec: valtypes.h is not among the sources.  The spec
    gives a bitfield with a base (boolean or integer), an array flag and a
    callable flag, a variable being what is not callable; the bit positions
    are the model's. *)
Definition ValType := Z.
Definition TYPE_NONE : ValType := 0.
Definition TYPE_ARRAY : ValType := 1.
Definition TYPE_BOOLEAN : ValType := 2.
Definition TYPE_INTEGER : ValType := 4.
Definition TYPE_CALLABLE : ValType := 8.

Definition has_flag (t flag : ValType) : bool := negb (Z.land t flag =? 0).
Definition IS_ARRAY_TYPE (t : ValType) : bool := has_flag t TYPE_ARRAY.
Definition IS_BOOLEAN_TYPE (t : ValType) : bool := has_flag t TYPE_BOOLEAN.
Definition IS_INTEGER_TYPE (t : ValType) : bool := has_flag t TYPE_INTEGER.
Definition IS_CALLABLE_TYPE (t : ValType) : bool := has_flag t TYPE_CALLABLE.
Definition IS_ARRAY (t : ValType) : bool :=
  IS_ARRAY_TYPE t && negb (IS_CALLABLE_TYPE t).
Definition IS_VARIABLE (t : ValType) : bool := negb (IS_CALLABLE_TYPE t).
Definition SET_AS_ARRAY (t : ValType) : ValType := Z.lor t TYPE_ARRAY.
Definition SET_AS_CALLABLE (t : ValType) : ValType := Z.lor t TYPE_CALLABLE.
Definition SET_RETURN_TYPE (t : ValType) : ValType :=
  Z.land t (Z.lnot TYPE_CALLABLE).

Record IDprop := {
  prop_type : ValType;
  prop_offset : Z;
  prop_nparams : Z;
  prop_params : list ValType
}.

(** ** The symbol table (symboltable.c)

    [table] and [saved_table] are pointers to hash tables and may alias, so
    the tables live in a store, [tabs]; [props] holds the [IDprop] records
    that are allocated; [next_addr] is the next address the allocator hands
    out.  A pointer that is not in its store is NULL, dangling or wild, and
    reading through it is undefined. *)

Record SymTab := {
  props : gmap ptr IDprop;
  tabs : gmap ptr HashTab;
  next_addr : ptr;
  table : ptr;
  saved_table : ptr;
  curr_offset : Z
}.

Definition two32 : Z := 4294967296.

(** [power] of symboltable.c, on [unsigned int]. *)
Fixpoint upower_loop (n : nat) (num newnum : Z) : Z :=
  match n with
  | O => newnum
  | S n' => upower_loop n' num ((newnum * num) mod two32)
  end.

Definition upower (num exp : Z) : Z := upower_loop (Z.to_nat exp) num num.

(** A [char] of the key as the operand of an unsigned product ([char] is
    signed on the target). *)
Definition char_operand (a : ascii) : Z :=
  if chr a <? 128 then chr a else (chr a - 256) mod two32.

Definition shift_hash (key : string) (size : Z) : Z :=
  let keystring := list_ascii_of_string key in
  let len := Z.of_nat (List.length keystring) in
  let cnst := 39 in
  let hash :=
    fold_left
      (fun hash c =>
         fold_left
           (fun hash j =>
              (hash + (char_operand c * upower (cnst + 1) (j + 1)) mod two32)
                mod two32)
           (map (fun j => len - Z.of_nat j) (seq 0 (List.length keystring)))
           hash)
      keystring 0 in
  hash mod size.

Definition key_strcmp (val1 val2 : string) : Z := strcmp val1 val2.

Definition LOADFACTOR : Q := 3 # 4.

Definition alloc_table (st : SymTab) (ht : HashTab) : ptr * SymTab :=
  (next_addr st,
   {| props := props st; tabs := <[ next_addr st := ht ]> (tabs st);
      next_addr := S (next_addr st); table := table st;
      saved_table := saved_table st; curr_offset := curr_offset st |}).

Definition set_tables (st : SymTab) (t s : ptr) (off : Z) : SymTab :=
  {| props := props st; tabs := tabs st; next_addr := next_addr st;
     table := t; saved_table := s; curr_offset := off |}.

Definition init_symbol_table (st : SymTab) : SymTab :=
  let '(t, st) := alloc_table st (ht_init LOADFACTOR shift_hash key_strcmp) in
  set_tables st t NULL 1.

Definition deref_table (st : SymTab) (p : ptr) : result HashTab :=
  match tabs st !! p with
  | Some ht => Ok ht
  | None => Undefined
  end.

Definition deref_prop (st : SymTab) (p : option ptr) : result IDprop :=
  match p with
  | Some a =>
    match props st !! a with
    | Some r => Ok r
    | None => Undefined
    end
  | None => Undefined
  end.

(** [find_name(id, &prop)]: [prop] is the pointer variable the caller passes
    by address ([None] while it has never been assigned); the result is the
    Boolean and what the variable holds afterwards. *)
Definition find_name (st : SymTab) (id : string) (prop : option ptr)
  : result (bool * option ptr) :=
  let* ht := deref_table st (table st) in
  let* r := ht_search ht id in
  let '(found, prop) :=
    match r with Some v => (true, Some v) | None => (false, prop) end in
  if negb found && negb (Nat.eqb (saved_table st) NULL) then
    let* sht := deref_table st (saved_table st) in
    let* r := ht_search sht id in
    match r with
    | Some v =>
      let* rec := deref_prop st (Some v) in
      if negb (IS_CALLABLE_TYPE (prop_type rec)) then Ok (false, Some v)
      else Ok (true, Some v)
    | None => Ok (false, prop)
    end
  else Ok (found, prop).

Definition store_table (st : SymTab) (p : ptr) (ht : HashTab) (off : Z)
  : SymTab :=
  {| props := props st; tabs := <[ p := ht ]> (tabs st);
     next_addr := next_addr st; table := table st;
     saved_table := saved_table st; curr_offset := off |}.

Definition insert_name (st : SymTab) (id : string) (prop : ptr)
  : result (bool * SymTab) :=
  let* (found, prop) := find_name st id (Some prop) in
  if negb found then
    let* ht := deref_table st (table st) in
    let* (_, ht') := ht_insert ht id (default NULL prop) in
    let* rec := deref_prop st prop in
    let off := if IS_VARIABLE (prop_type rec) then curr_offset st + 1
               else curr_offset st in
    Ok (true, store_table st (table st) ht' off)
  else Ok (false, st).

Definition open_subroutine (st : SymTab) (id : string) (prop : ptr)
  : result (bool * SymTab) :=
  let* (b, st) := insert_name st id prop in
  if b then
    let saved := table st in
    let '(t, st) := alloc_table st (ht_init LOADFACTOR shift_hash key_strcmp) in
    Ok (b, set_tables st t saved 0)
  else Ok (b, st).

(** [ht_free(table, free, freeprop)]: every value record of the table is
    released, then the table.  Releasing an address that is not allocated is
    undefined. *)
Fixpoint free_props (vals : list ptr) (ps : gmap ptr IDprop)
  : result (gmap ptr IDprop) :=
  match vals with
  | [] => Ok ps
  | v :: rest =>
    match ps !! v with
    | Some _ => free_props rest (delete v ps)
    | None => Undefined
    end
  end.

Definition ht_free (st : SymTab) (p : ptr) : result SymTab :=
  let* ht := deref_table st p in
  let* ps := free_props (map e_value (concat (ht_table ht))) (props st) in
  Ok {| props := ps; tabs := delete p (tabs st); next_addr := next_addr st;
        table := table st; saved_table := saved_table st;
        curr_offset := curr_offset st |}.

Definition close_subroutine (st : SymTab) : result SymTab :=
  let* st := ht_free st (table st) in
  Ok (set_tables st (saved_table st) (saved_table st) (curr_offset st)).

Definition get_variables_width (st : SymTab) : Z := curr_offset st.

Definition release_symbol_table (st : SymTab) : result SymTab :=
  ht_free st (table st).

(** [idprop] of alanc.c: a fresh record. *)
Definition idprop (st : SymTab) (type : ValType) (offset nparams : Z)
           (params : list ValType) : ptr * SymTab :=
  (next_addr st,
   {| props := <[ next_addr st :=
                  {| prop_type := type; prop_offset := offset;
                     prop_nparams := nparams; prop_params := params |} ]>
               (props st);
      tabs := tabs st; next_addr := S (next_addr st); table := table st;
      saved_table := saved_table st; curr_offset := curr_offset st |}).

Definition empty_symtab : SymTab :=
  {| props := ∅; tabs := ∅; next_addr := 1%nat; table := NULL;
     saved_table := NULL; curr_offset := 0 |}.

(** ** The code emitter (codegen.c) *)

Definition CODE_LABEL : Z := 1.
Definition CODE_INSTRUCTION : Z := 2.
Definition CODE_OPERAND : Z := 4.
Definition MASK_TYPE : Z := 15.
Definition CODE_INTEGER : Z := 16.
Definition CODE_ARRAY_TYPE : Z := 32.
Definition CODE_STRING : Z := 64.
Definition CODE_REFERENCE : Z := 128.
Definition MASK_DATA_TYPE : Z := 240.
Definition CODE_ALLOCATED : Z := 256.

(** Modelled from the spec: jvm.h is not among the sources.  The opcodes are
    the ones codegen.c and alanc.c name, in the order of the rows of
    [instruction_set], which the opcode indexes. *)
Inductive Bytecode : Type :=
| JVM_ALOAD | JVM_ARETURN | JVM_ASTORE | JVM_GETSTATIC | JVM_GOTO | JVM_IADD
| JVM_IALOAD | JVM_IAND | JVM_IASTORE | JVM_IDIV | JVM_IFEQ | JVM_IF_ICMPEQ
| JVM_IF_ICMPGE | JVM_IF_ICMPGT | JVM_IF_ICMPLE | JVM_IF_ICMPLT
| JVM_IF_ICMPNE | JVM_ILOAD | JVM_IMUL | JVM_INEG | JVM_INVOKESTATIC
| JVM_INVOKEVIRTUAL | JVM_IOR | JVM_ISTORE | JVM_ISUB | JVM_IREM
| JVM_IRETURN | JVM_IXOR | JVM_LDC | JVM_NEWARRAY | JVM_RETURN | JVM_SWAP.

(** Modelled from the spec: the array-type tags of jvm.h, of which the
    sources use [T_INT]; the values are those of the JVM's [newarray]. *)
Definition T_BOOLEAN : Z := 4.
Definition T_INT : Z := 10.

Record BC := { instr : string; pop : Z; push : Z }.

Definition instruction_set (opcode : Bytecode) : BC :=
  match opcode with
  | JVM_ALOAD => {| instr := "aload"; pop := 0; push := 1 |}
  | JVM_ARETURN => {| instr := "areturn"; pop := 1; push := 0 |}
  | JVM_ASTORE => {| instr := "astore"; pop := 1; push := 0 |}
  | JVM_GETSTATIC => {| instr := "getstatic"; pop := 0; push := 1 |}
  | JVM_GOTO => {| instr := "goto"; pop := 0; push := 0 |}
  | JVM_IADD => {| instr := "iadd"; pop := 2; push := 1 |}
  | JVM_IALOAD => {| instr := "iaload"; pop := 2; push := 1 |}
  | JVM_IAND => {| instr := "iand"; pop := 2; push := 1 |}
  | JVM_IASTORE => {| instr := "iastore"; pop := 3; push := 0 |}
  | JVM_IDIV => {| instr := "idiv"; pop := 2; push := 1 |}
  | JVM_IFEQ => {| instr := "ifeq"; pop := 1; push := 0 |}
  | JVM_IF_ICMPEQ => {| instr := "if_icmpeq"; pop := 2; push := 0 |}
  | JVM_IF_ICMPGE => {| instr := "if_icmpge"; pop := 2; push := 0 |}
  | JVM_IF_ICMPGT => {| instr := "if_icmpgt"; pop := 2; push := 0 |}
  | JVM_IF_ICMPLE => {| instr := "if_icmple"; pop := 2; push := 0 |}
  | JVM_IF_ICMPLT => {| instr := "if_icmplt"; pop := 2; push := 0 |}
  | JVM_IF_ICMPNE => {| instr := "if_icmpne"; pop := 2; push := 0 |}
  | JVM_ILOAD => {| instr := "iload"; pop := 0; push := 1 |}
  | JVM_IMUL => {| instr := "imul"; pop := 2; push := 1 |}
  | JVM_INEG => {| instr := "ineg"; pop := 1; push := 1 |}
  | JVM_INVOKESTATIC => {| instr := "invokestatic"; pop := 0; push := 1 |}
  | JVM_INVOKEVIRTUAL => {| instr := "invokevirtual"; pop := 0; push := 0 |}
  | JVM_IOR => {| instr := "ior"; pop := 2; push := 1 |}
  | JVM_ISTORE => {| instr := "istore"; pop := 1; push := 0 |}
  | JVM_ISUB => {| instr := "isub"; pop := 2; push := 1 |}
  | JVM_IREM => {| instr := "irem"; pop := 2; push := 1 |}
  | JVM_IRETURN => {| instr := "ireturn"; pop := 1; push := 0 |}
  | JVM_IXOR => {| instr := "ixor"; pop := 2; push := 1 |}
  | JVM_LDC => {| instr := "ldc"; pop := 0; push := 1 |}
  | JVM_NEWARRAY => {| instr := "newarray"; pop := 1; push := 1 |}
  | JVM_RETURN => {| instr := "return"; pop := 0; push := 0 |}
  | JVM_SWAP => {| instr := "swap"; pop := 2; push := 2 |}
  end.

(** The union of a code item: the member that was stored. *)
Inductive CodeData : Type :=
| D_atype (atype : Z)
| D_code (opcode : Bytecode)
| D_label (label : Z)
| D_num (num : Z)
| D_string (str : string).

Record Code := { code_type : Z; code_data : CodeData }.

Record Body := {
  b_name : option string;
  b_idprop : ptr;
  b_code : ptr;
  b_ip : Z;
  b_max_stack_depth : Z;
  b_variables_width : Z;
  b_next : ptr;
  b_prev : ptr
}.

(** The globals of codegen.c.  Bodies and code buffers are reached through
    pointers ([bodies], [code], the links of a body), so they live in the
    stores [body_store] and [bufs]; a buffer is held as the items written to
    it so far.  A [char *] that is NULL is [None]. *)
Record CodeGen := {
  class_name : option string;
  function_name : option string;
  jasm_name : option string;
  ref_read_boolean : option string;
  ref_read_integer : option string;
  code_size : Z;
  ip : Z;
  bodies : ptr;
  code : ptr;
  cur_idprop : ptr;
  stack_depth : Z;
  max_stack_depth : Z;
  label_counter : Z;
  body_store : gmap ptr Body;
  bufs : gmap ptr (list Code);
  cg_next_addr : ptr
}.

(** The state of the unit when the process starts: zeroed statics, and
    [label = 1] in [get_label]. *)
Definition initial_codegen : CodeGen :=
  {| class_name := None; function_name := None; jasm_name := None;
     ref_read_boolean := None; ref_read_integer := None;
     code_size := 0; ip := 0; bodies := NULL; code := NULL;
     cur_idprop := NULL; stack_depth := 0; max_stack_depth := 0;
     label_counter := 1; body_store := ∅; bufs := ∅; cg_next_addr := 1%nat |}.

Definition init_code_generation (g : CodeGen) : CodeGen :=
  {| class_name := class_name g; function_name := function_name g;
     jasm_name := jasm_name g; ref_read_boolean := ref_read_boolean g;
     ref_read_integer := ref_read_integer g;
     code_size := code_size g; ip := ip g; bodies := NULL; code := code g;
     cur_idprop := cur_idprop g; stack_depth := stack_depth g;
     max_stack_depth := max_stack_depth g; label_counter := label_counter g;
     body_store := body_store g; bufs := bufs g;
     cg_next_addr := cg_next_addr g |}.

Definition INITIAL_SIZE : Z := 1024.

Definition init_subroutine_codegen (name : string) (p : ptr) (g : CodeGen)
  : CodeGen :=
  {| class_name := class_name g; function_name := Some name;
     jasm_name := jasm_name g; ref_read_boolean := ref_read_boolean g;
     ref_read_integer := ref_read_integer g;
     code_size := INITIAL_SIZE; ip := 0; bodies := bodies g;
     code := cg_next_addr g;
     cur_idprop := p; stack_depth := 0; max_stack_depth := 0;
     label_counter := label_counter g;
     body_store := body_store g;
     bufs := <[ cg_next_addr g := [] ]> (bufs g);
     cg_next_addr := S (cg_next_addr g) |}.

(** The [while] loop of [close_subroutine_codegen]: [n] is not advanced. *)
Fixpoint link_loop (fuel : nat) (store : gmap ptr Body) (n p : ptr)
  : result ptr :=
  match fuel with
  | O => OutOfFuel
  | S fuel' =>
    match store !! n with
    | None => Undefined
    | Some nb =>
      if negb (Nat.eqb (b_next nb) NULL) then
        let p := n in
        match store !! p with
        | None => Undefined
        | Some pb => link_loop fuel' store n (b_next pb)
        end
      else Ok p
    end
  end.

Definition set_links (b : Body) (next prev : ptr) : Body :=
  {| b_name := b_name b; b_idprop := b_idprop b; b_code := b_code b;
     b_ip := b_ip b; b_max_stack_depth := b_max_stack_depth b;
     b_variables_width := b_variables_width b;
     b_next := next; b_prev := prev |}.

Definition set_bodies (g : CodeGen) (bs : ptr) (store : gmap ptr Body)
           (next : ptr) : CodeGen :=
  {| class_name := class_name g; function_name := function_name g;
     jasm_name := jasm_name g; ref_read_boolean := ref_read_boolean g;
     ref_read_integer := ref_read_integer g;
     code_size := code_size g; ip := ip g; bodies := bs; code := code g;
     cur_idprop := cur_idprop g; stack_depth := stack_depth g;
     max_stack_depth := max_stack_depth g; label_counter := label_counter g;
     body_store := store; bufs := bufs g; cg_next_addr := next |}.

Definition close_subroutine_codegen (fuel : nat) (varwidth : Z) (g : CodeGen)
  : result CodeGen :=
  let body := cg_next_addr g in
  let store :=
    <[ body := {| b_name := function_name g; b_idprop := cur_idprop g;
                  b_code := code g; b_ip := ip g;
                  b_max_stack_depth := max_stack_depth g;
                  b_variables_width := varwidth;
                  b_next := NULL; b_prev := NULL |} ]> (body_store g) in
  let n := bodies g in
  if negb (Nat.eqb (bodies g) NULL) then
    let* p := link_loop fuel store n NULL in
    match store !! n with
    | None => Undefined
    | Some nb =>
      Ok (set_bodies g (bodies g) (<[ n := set_links nb body p ]> store)
                     (S body))
    end
  else Ok (set_bodies g body store (S body)).

Definition set_buffer (g : CodeGen) (c : ptr) (size : Z) (bs : gmap ptr (list Code))
           (next : ptr) (i : Z) : CodeGen :=
  {| class_name := class_name g; function_name := function_name g;
     jasm_name := jasm_name g; ref_read_boolean := ref_read_boolean g;
     ref_read_integer := ref_read_integer g;
     code_size := size; ip := i; bodies := bodies g; code := c;
     cur_idprop := cur_idprop g; stack_depth := stack_depth g;
     max_stack_depth := max_stack_depth g; label_counter := label_counter g;
     body_store := body_store g; bufs := bs; cg_next_addr := next |}.

Definition set_stack (g : CodeGen) (depth max_depth : Z) : CodeGen :=
  {| class_name := class_name g; function_name := function_name g;
     jasm_name := jasm_name g; ref_read_boolean := ref_read_boolean g;
     ref_read_integer := ref_read_integer g;
     code_size := code_size g; ip := ip g; bodies := bodies g;
     code := code g; cur_idprop := cur_idprop g; stack_depth := depth;
     max_stack_depth := max_depth; label_counter := label_counter g;
     body_store := body_store g; bufs := bufs g;
     cg_next_addr := cg_next_addr g |}.

(** [ensure_space]: [erealloc] hands back a block at a new address holding
    what the old block held (nothing, for a NULL [code]); the old address is
    released. *)
Definition ensure_space (num_instr : Z) (g : CodeGen) : CodeGen :=
  if code_size g <? ip g + num_instr then
    let buf := default [] (bufs g !! code g) in
    set_buffer g (cg_next_addr g) (code_size g * 2)
               (<[ cg_next_addr g := buf ]> (delete (code g) (bufs g)))
               (S (cg_next_addr g)) (ip g)
  else g.

(** The stores of one item, [code[ip].type = t; code[ip++].m = d].  The item
    goes where [ip] points, which must lie inside the block. *)
Definition emit (t : Z) (d : CodeData) (g : CodeGen) : result CodeGen :=
  match bufs g !! code g with
  | Some buf =>
    if (ip g =? Z.of_nat (List.length buf)) && (ip g <? code_size g) then
      Ok (set_buffer g (code g) (code_size g)
                     (<[ code g := buf ++ [ {| code_type := t; code_data := d |} ] ]>
                        (bufs g))
                     (cg_next_addr g) (ip g + 1))
    else Undefined
  | None => Undefined
  end.

Definition adjust_stack (bc : BC) (g : CodeGen) : CodeGen :=
  let depth := stack_depth g + push bc in
  let max_depth := if max_stack_depth g <? depth then depth
                   else max_stack_depth g in
  set_stack g (depth - pop bc) max_depth.

Definition emit_instruction (opcode : Bytecode) (g : CodeGen) : result CodeGen :=
  emit CODE_INSTRUCTION (D_code opcode) g.

Definition gen_1 (opcode : Bytecode) (g : CodeGen) : result CodeGen :=
  let* g := emit_instruction opcode (ensure_space 1 g) in
  Ok (adjust_stack (instruction_set opcode) g).

Definition gen_2 (opcode : Bytecode) (operand : Z) (g : CodeGen)
  : result CodeGen :=
  let* g := emit_instruction opcode (ensure_space 2 g) in
  let* g := emit (Z.lor CODE_OPERAND CODE_INTEGER) (D_num operand) g in
  Ok (adjust_stack (instruction_set opcode) g).

Definition gen_label (label : Z) (g : CodeGen) : result CodeGen :=
  emit CODE_LABEL (D_label label) (ensure_space 1 g).

Definition gen_2_label (opcode : Bytecode) (label : Z) (g : CodeGen)
  : result CodeGen :=
  let* g := emit_instruction opcode (ensure_space 2 g) in
  let* g := emit (Z.lor CODE_LABEL CODE_OPERAND) (D_label label) g in
  Ok (adjust_stack (instruction_set opcode) g).

Definition gen_newarray (atype : Z) (g : CodeGen) : result CodeGen :=
  let* g := emit_instruction JVM_NEWARRAY (ensure_space 2 g) in
  let* g := emit (Z.lor CODE_OPERAND CODE_ARRAY_TYPE) (D_atype atype) g in
  Ok (adjust_stack (instruction_set JVM_NEWARRAY) g).

(** The descriptor of the parameters: ["[I"] for an array, ["I"] otherwise;
    reading past the end of [params] is undefined. *)
Fixpoint param_descriptor (is_array : ValType -> bool) (n : nat) (i : nat)
         (params : list ValType) : result string :=
  match n with
  | O => Ok ""
  | S n' =>
    match params !! i with
    | None => Undefined
    | Some t =>
      let* rest := param_descriptor is_array n' (S i) params in
      Ok ((if is_array t then "[I" else "I") ++ rest)%string
    end
  end.

Definition gen_call (ps : gmap ptr IDprop) (fname : string)
           (idprop : option ptr) (g : CodeGen) : result CodeGen :=
  let* g := emit_instruction JVM_INVOKESTATIC (ensure_space 2 g) in
  match idprop, class_name g with
  | Some a, Some cname =>
    match ps !! a with
    | None => Undefined
    | Some rec =>
      let* params := param_descriptor IS_ARRAY_TYPE
                       (Z.to_nat (prop_nparams rec)) 0 (prop_params rec) in
      let is_void := prop_type rec =? TYPE_CALLABLE in
      let fpath :=
        (cname ++ "." ++ fname ++ "(" ++ params ++ ")"
           ++ (if IS_ARRAY_TYPE (prop_type rec) then "[" else "")
           ++ (if is_void then "V" else "I"))%string in
      let* g := emit (Z.lor (Z.lor CODE_OPERAND CODE_REFERENCE) CODE_ALLOCATED)
                     (D_string fpath) g in
      Ok (adjust_stack (instruction_set JVM_INVOKESTATIC) g)
    end
  | _, _ => Undefined
  end.

Definition get_label (g : CodeGen) : Z * CodeGen :=
  (label_counter g,
   {| class_name := class_name g; function_name := function_name g;
      jasm_name := jasm_name g; ref_read_boolean := ref_read_boolean g;
      ref_read_integer := ref_read_integer g;
      code_size := code_size g; ip := ip g; bodies := bodies g;
      code := code g; cur_idprop := cur_idprop g;
      stack_depth := stack_depth g; max_stack_depth := max_stack_depth g;
      label_counter := label_counter g + 1;
      body_store := body_store g; bufs := bufs g;
      cg_next_addr := cg_next_addr g |}).

Definition gen_cmp (opcode : Bytecode) (g : CodeGen) : result CodeGen :=
  let '(l1, g) := get_label g in
  let '(l2, g) := get_label g in
  let* g := gen_2_label opcode l1 g in
  let* g := gen_2 JVM_LDC 0 g in
  let* g := gen_2_label JVM_GOTO l2 g in
  let* g := gen_label l1 g in
  let* g := gen_2 JVM_LDC 1 g in
  gen_label l2 g.

Definition ref_print_boolean : string := "java/io/PrintStream/print(Z)V".
Definition ref_print_integer : string := "java/io/PrintStream/print(I)V".
Definition ref_print_stream : string :=
  "java/lang/System/out Ljava/io/PrintStream;".
Definition ref_print_string : string :=
  "java/io/PrintStream/print(Ljava/lang/String;)V".
Definition REF_READ_BOOLEAN : string := "/readBoolean()Z".
Definition REF_READ_INTEGER : string := "/readInt()I".
Definition JASM_EXT : string := ".jasmin".

Definition REF : Z := Z.lor CODE_OPERAND CODE_REFERENCE.

Definition gen_print (type : ValType) (g : CodeGen) : result CodeGen :=
  let* g := emit_instruction JVM_GETSTATIC (ensure_space 5 g) in
  let* g := emit REF (D_string ref_print_stream) g in
  let* g := emit_instruction JVM_SWAP g in
  let* g := emit_instruction JVM_INVOKEVIRTUAL g in
  let type := if IS_CALLABLE_TYPE type then SET_RETURN_TYPE type else type in
  let* g := (if type =? TYPE_BOOLEAN then emit REF (D_string ref_print_boolean) g
             else if type =? TYPE_INTEGER
                  then emit REF (D_string ref_print_integer) g
             else Aborted) in
  Ok (adjust_stack (instruction_set JVM_INVOKEVIRTUAL)
        (adjust_stack (instruction_set JVM_SWAP)
           (adjust_stack (instruction_set JVM_GETSTATIC) g))).

Definition gen_print_string (str : string) (g : CodeGen) : result CodeGen :=
  let* g := emit_instruction JVM_GETSTATIC (ensure_space 6 g) in
  let* g := emit REF (D_string ref_print_stream) g in
  let* g := emit_instruction JVM_LDC g in
  let* g := emit (Z.lor (Z.lor CODE_OPERAND CODE_STRING) CODE_ALLOCATED)
                 (D_string str) g in
  let* g := emit_instruction JVM_INVOKEVIRTUAL g in
  let* g := emit REF (D_string ref_print_string) g in
  Ok (adjust_stack (instruction_set JVM_INVOKEVIRTUAL)
        (adjust_stack (instruction_set JVM_LDC)
           (adjust_stack (instruction_set JVM_GETSTATIC) g))).

(** [gen_read]: a reference that [set_class_name] has not set is NULL; the
    model stops where the source stores it. *)
Definition gen_read (type : ValType) (g : CodeGen) : result CodeGen :=
  let* g := emit_instruction JVM_INVOKESTATIC (ensure_space 2 g) in
  let* g := (if type =? TYPE_BOOLEAN
             then match ref_read_boolean g with
                  | Some r => emit REF (D_string r) g
                  | None => Undefined
                  end
             else if type =? TYPE_INTEGER
                  then match ref_read_integer g with
                       | Some r => emit REF (D_string r) g
                       | None => Undefined
                       end
             else Aborted) in
  Ok (adjust_stack (instruction_set JVM_INVOKESTATIC) g).

Definition set_class_name (cname : string) (g : CodeGen) : CodeGen :=
  {| class_name := Some cname; function_name := function_name g;
     jasm_name := Some (cname ++ JASM_EXT)%string;
     ref_read_boolean := Some (cname ++ REF_READ_BOOLEAN)%string;
     ref_read_integer := Some (cname ++ REF_READ_INTEGER)%string;
     code_size := code_size g; ip := ip g; bodies := bodies g;
     code := code g; cur_idprop := cur_idprop g;
     stack_depth := stack_depth g; max_stack_depth := max_stack_depth g;
     label_counter := label_counter g;
     body_store := body_store g; bufs := bufs g;
     cg_next_addr := cg_next_addr g |}.

(** *** Serialization: the text written to the Jasmin file *)

Definition nl : string := String (ascii_of_nat 10) "".
Definition tab : string := String (ascii_of_nat 9) "".
Definition dq : string := String (ascii_of_nat 34) "".

Definition lines (l : list string) : string :=
  fold_right (fun x acc => (x ++ nl ++ acc)%string) "" l.

Definition class_preamble (name : string) : string :=
  lines
    [ (".class public " ++ name)%string;
      ".super java/lang/Object";
      "";
      ".field private static final charsetName Ljava/lang/String;";
      ".field private static final usLocale Ljava/util/Locale;";
      ".field private static final scanner Ljava/util/Scanner;";
      "";
      ".method static public <clinit>()V";
      ".limit stack 5";
      ".limit locals 1 ";
      (tab ++ "ldc" ++ tab ++ dq ++ "UTF-8" ++ dq)%string;
      (tab ++ "putstatic " ++ name ++ "/charsetName Ljava/lang/String;")%string;
      (tab ++ "new" ++ tab ++ "java/util/Locale")%string;
      (tab ++ "dup")%string;
      (tab ++ "ldc" ++ tab ++ dq ++ "en" ++ dq)%string;
      (tab ++ "ldc" ++ tab ++ dq ++ "US" ++ dq)%string;
      (tab ++ "invokespecial "
           ++ "java/util/Locale/<init>(Ljava/lang/String;Ljava/lang/String;)V")%string;
      (tab ++ "putstatic " ++ name ++ "/usLocale Ljava/util/Locale;")%string;
      (tab ++ "new" ++ tab ++ "java/util/Scanner")%string;
      (tab ++ "dup")%string;
      (tab ++ "new" ++ tab ++ "java/io/BufferedInputStream")%string;
      (tab ++ "dup")%string;
      (tab ++ "getstatic java/lang/System/in Ljava/io/InputStream;")%string;
      (tab ++ "invokespecial"
           ++ " java/io/BufferedInputStream/<init>(Ljava/io/InputStream;)V")%string;
      (tab ++ "getstatic " ++ name ++ "/charsetName Ljava/lang/String;")%string;
      (tab ++ "invokespecial "
           ++ "java/util/Scanner/<init>(Ljava/io/InputStream;Ljava/lang/String;)V")%string;
      (tab ++ "putstatic " ++ name ++ "/scanner Ljava/util/Scanner;")%string;
      (tab ++ "getstatic " ++ name ++ "/scanner Ljava/util/Scanner;")%string;
      (tab ++ "getstatic " ++ name ++ "/usLocale Ljava/util/Locale;")%string;
      (tab ++ "invokevirtual"
           ++ " java/util/Scanner/useLocale(Ljava/util/Locale;)Ljava/util/Scanner;")%string;
      (tab ++ "pop")%string;
      (tab ++ "return")%string;
      ".end method";
      "" ].

Definition method_init : string :=
  lines
    [ ".method public <init>()V";
      (tab ++ "aload_0")%string;
      (tab ++ "invokespecial java/lang/Object/<init>()V")%string;
      (tab ++ "return")%string;
      ".end method";
      "" ].

Definition method_readBoolean (name : string) : string :=
  lines
    [ ".method public static readBoolean()Z";
      ".limit stack 2";
      ".limit locals 1";
      (tab ++ "getstatic " ++ name ++ "/scanner Ljava/util/Scanner;")%string;
      (tab ++ "invokevirtual java/util/Scanner/next()Ljava/lang/String;")%string;
      (tab ++ "astore 0")%string;
      (tab ++ "aload 0")%string;
      (tab ++ "ldc" ++ tab ++ dq ++ "true" ++ dq)%string;
      (tab ++ "invokevirtual java/lang/String/equalsIgnoreCase(Ljava/lang/String;)Z")%string;
      (tab ++ "ifeq False")%string;
      (tab ++ "iconst_1")%string;
      (tab ++ "ireturn")%string;
      "False:";
      (tab ++ "aload 0")%string;
      (tab ++ "ldc" ++ tab ++ dq ++ "false" ++ dq)%string;
      (tab ++ "invokevirtual java/lang/String/equalsIgnoreCase(Ljava/lang/String;)Z")%string;
      (tab ++ "ifeq Exception")%string;
      (tab ++ "iconst_0")%string;
      (tab ++ "ireturn")%string;
      "Exception:";
      (tab ++ "new" ++ tab ++ "java/util/InputMismatchException")%string;
      (tab ++ "dup")%string;
      (tab ++ "invokespecial java/util/InputMismatchException/<init>()V")%string;
      (tab ++ "athrow")%string;
      ".end method";
      "" ].

Definition method_readInt (name : string) : string :=
  lines
    [ ".method public static readInt()I";
      ".limit stack 1";
      ".limit locals 1";
      (tab ++ "getstatic " ++ name ++ "/scanner Ljava/util/Scanner;")%string;
      (tab ++ "invokevirtual java/util/Scanner/nextInt()I")%string;
      (tab ++ "ireturn")%string;
      ".end method";
      "" ].

Definition dump_preamble (name : string) : string :=
  (class_preamble name ++ method_init ++ method_readInt name
     ++ method_readBoolean name)%string.

Definition java_types : list string :=
  [ "boolean"; "char"; "float"; "double"; "byte"; "short"; "int"; "long" ].

Definition get_opcode_string (opcode : Bytecode) : string :=
  instr (instruction_set opcode).

(** The opcodes after which [dump_method] writes the linefeed itself. *)
Definition takes_no_operand (opcode : Bytecode) : bool :=
  match opcode with
  | JVM_ARETURN | JVM_IADD | JVM_IALOAD | JVM_IAND | JVM_IASTORE | JVM_IDIV
  | JVM_IMUL | JVM_INEG | JVM_IOR | JVM_ISUB | JVM_IREM | JVM_IRETURN
  | JVM_IXOR | JVM_RETURN | JVM_SWAP => true
  | _ => false
  end.

(** One code item.  Reading a member of the union other than the one that
    was stored is undefined; the two [weprintf] warnings go to the standard
    error stream and add nothing to the file. *)
Definition dump_item (c : Code) : result string :=
  let t := Z.land (code_type c) MASK_TYPE in
  let dt := Z.land (code_type c) MASK_DATA_TYPE in
  if t =? CODE_LABEL then
    match code_data c with
    | D_label l => Ok ("L" ++ decimal l ++ ":" ++ nl)%string
    | _ => Undefined
    end
  else if t =? Z.lor CODE_LABEL CODE_OPERAND then
    match code_data c with
    | D_label l => Ok (" L" ++ decimal l ++ nl)%string
    | _ => Undefined
    end
  else if t =? CODE_INSTRUCTION then
    match code_data c with
    | D_code op =>
      Ok (tab ++ get_opcode_string op
              ++ (if takes_no_operand op then nl else ""))%string
    | _ => Undefined
    end
  else if t =? CODE_OPERAND then
    if dt =? CODE_ARRAY_TYPE then
      match code_data c with
      | D_atype a =>
        if a <? T_BOOLEAN then Undefined
        else match java_types !! Z.to_nat (a - T_BOOLEAN) with
             | Some s => Ok (" " ++ s ++ nl)%string
             | None => Undefined
             end
      | _ => Undefined
      end
    else if dt =? CODE_INTEGER then
      match code_data c with
      | D_num n => Ok (" " ++ decimal n ++ nl)%string
      | _ => Undefined
      end
    else if dt =? CODE_REFERENCE then
      match code_data c with
      | D_string s => Ok (" " ++ s ++ nl)%string
      | _ => Undefined
      end
    else if dt =? CODE_STRING then
      match code_data c with
      | D_string s => Ok (" " ++ dq ++ s ++ dq ++ nl)%string
      | _ => Undefined
      end
    else Ok ""
  else Ok "".

(** The loop [for (i = 0; i < b->ip; i++)] over [b->code]. *)
Fixpoint dump_items (n : nat) (i : nat) (buf : list Code) : result string :=
  match n with
  | O => Ok ""
  | S n' =>
    match buf !! i with
    | None => Undefined
    | Some c =>
      let* s := dump_item c in
      let* rest := dump_items n' (S i) buf in
      Ok (s ++ rest)%string
    end
  end.

Definition method_header (ps : gmap ptr IDprop) (b : Body) : result string :=
  match b_name b with
  | None => Undefined
  | Some name =>
    if strcmp name "main" =? 0 then
      Ok (".method public static main([Ljava/lang/String;)V" ++ nl)%string
    else
      match ps !! b_idprop b with
      | None => Undefined
      | Some rec =>
        let* params := param_descriptor IS_ARRAY (Z.to_nat (prop_nparams rec))
                                        0 (prop_params rec) in
        let is_void := prop_type rec =? TYPE_CALLABLE in
        Ok (".method public static " ++ name ++ "(" ++ params ++ ")"
              ++ (if IS_ARRAY_TYPE (prop_type rec) then "[" else "")
              ++ (if is_void then "V" else "I") ++ nl)%string
      end
  end.

(** The guard against a dangling label reads [b->code[b->ip - 1]]. *)
Definition dangling_label_guard (b : Body) (buf : list Code) : result string :=
  if b_ip b - 1 <? 0 then Undefined
  else
    match buf !! Z.to_nat (b_ip b - 1) with
    | None => Undefined
    | Some c =>
      if Z.land (code_type c) MASK_TYPE =? CODE_LABEL
      then Ok (tab ++ "nop" ++ nl)%string
      else Ok ""
    end.

Definition dump_method (ps : gmap ptr IDprop) (g : CodeGen) (b : Body)
  : result string :=
  let* header := method_header ps b in
  let limits :=
    (".limit stack " ++ decimal (b_max_stack_depth b) ++ nl
       ++ ".limit locals " ++ decimal (b_variables_width b) ++ nl)%string in
  match bufs g !! b_code b with
  | None => Undefined
  | Some buf =>
    let* items := dump_items (Z.to_nat (b_ip b)) 0 buf in
    let* guard := dangling_label_guard b buf in
    Ok (header ++ limits ++ items ++ guard ++ ".end method" ++ nl ++ nl)%string
  end.

(** The loop [for (b = bodies; b; b = b->next)] of [dump_code]. *)
Fixpoint dump_bodies (fuel : nat) (ps : gmap ptr IDprop) (g : CodeGen)
         (b : ptr) : result string :=
  match fuel with
  | O => OutOfFuel
  | S fuel' =>
    if Nat.eqb b NULL then Ok ""
    else
      match body_store g !! b with
      | None => Undefined
      | Some body =>
        let* s := dump_method ps g body in
        let* rest := dump_bodies fuel' ps g (b_next body) in
        Ok (s ++ rest)%string
      end
  end.

Definition dump_code (fuel : nat) (ps : gmap ptr IDprop) (g : CodeGen)
  : result string :=
  match class_name g with
  | None => Undefined
  | Some name =>
    let* methods := dump_bodies fuel ps g (bodies g) in
    Ok (dump_preamble name ++ methods)%string
  end.

Definition make_code_file (fuel : nat) (ps : gmap ptr IDprop) (g : CodeGen)
  : result string :=
  match jasm_name g with
  | None => Undefined
  | Some _ => dump_code fuel ps g
  end.

(** ** The parser (alanc.c) *)

(** [Variable] of alanc.c ([next] is the order of the list that holds it). *)
Record Var := { var_id : string; var_type : ValType; var_pos : SourcePos }.

(** The globals of alanc.c ([token], [return_type]) and the states of the
    units the parser drives. *)
Record Compiler := {
  scanner : Scanner;
  token : Token;
  return_type : ValType;
  symtab : SymTab;
  codegen : CodeGen
}.

Definition Parser (A : Type) : Type := Compiler -> result (A * Compiler).

Definition ret {A : Type} (a : A) : Parser A := fun c => Ok (a, c).

Definition bindP {A B : Type} (m : Parser A) (k : A -> Parser B) : Parser B :=
  fun c => let* (a, c') := m c in k a c'.

Declare Scope parser_scope.
Delimit Scope parser_scope with parser.
Notation "'let!' x ':=' m 'in' k" := (bindP m (fun x => k))
  (at level 10, x pattern, m at level 100, k at level 200) : parser_scope.
Notation "m >> k" := (bindP m (fun _ => k))
  (at level 90, right associativity) : parser_scope.
Local Open Scope parser_scope.

Definition set_scanner (c : Compiler) (s : Scanner) (t : Token) : Compiler :=
  {| scanner := s; token := t; return_type := return_type c;
     symtab := symtab c; codegen := codegen c |}.

Definition set_symtab (c : Compiler) (st : SymTab) : Compiler :=
  {| scanner := scanner c; token := token c; return_type := return_type c;
     symtab := st; codegen := codegen c |}.

Definition set_codegen (c : Compiler) (g : CodeGen) : Compiler :=
  {| scanner := scanner c; token := token c; return_type := return_type c;
     symtab := symtab c; codegen := g |}.

Definition set_return_type (c : Compiler) (t : ValType) : Compiler :=
  {| scanner := scanner c; token := token c; return_type := t;
     symtab := symtab c; codegen := codegen c |}.

Definition fail {A : Type} (r : result A) {B : Type} : result B :=
  match r with
  | Fatal p m => Fatal p m
  | Aborted => Aborted
  | OutOfFuel => OutOfFuel
  | _ => Undefined
  end.

(** [get_token(&token)]; the scanner gets the fuel its loops need. *)
Definition next_token : Parser unit :=
  fun c =>
    let* (t, s) := get_token (scan_fuel (scanner c)) (token c) (scanner c) in
    Ok (tt, set_scanner c s t).

Definition tok : Parser TokenType := fun c => Ok (tok_type (token c), c).

Definition gen (f : CodeGen -> result CodeGen) : Parser unit :=
  fun c => let* g := f (codegen c) in Ok (tt, set_codegen c g).

Definition new_label : Parser Z :=
  fun c => let '(l, g) := get_label (codegen c) in Ok (l, set_codegen c g).

Definition sym {A : Type} (f : SymTab -> result (A * SymTab)) : Parser A :=
  fun c => let* (a, st) := f (symtab c) in Ok (a, set_symtab c st).

Definition lookup (id : string) (p : option ptr)
  : Parser (bool * option ptr) :=
  fun c => let* r := find_name (symtab c) id p in Ok (r, c).

Definition prop_of (p : option ptr) : Parser IDprop :=
  fun c => let* r := deref_prop (symtab c) p in Ok (r, c).

Definition new_idprop (type : ValType) (offset nparams : Z)
           (params : list ValType) : Parser ptr :=
  fun c => let '(a, st) := idprop (symtab c) type offset nparams params in
           Ok (a, set_symtab c st).

Definition variables_width : Parser Z :=
  fun c => Ok (get_variables_width (symtab c), c).

Definition die {A : Type} (msg : string) : Parser A :=
  fun c => leprintf (position (scanner c)) msg.

Definition undefined {A : Type} : Parser A := fun _ => Undefined.
Definition out_of_fuel {A : Type} : Parser A := fun _ => OutOfFuel.

(** Modelled from the spec: token.c is not among the sources; the spec gives
    the diagnostics as [expected <TOK>, but found <TOK>] and leaves the names
    of the tokens open.  These are the model's. *)
Definition get_token_string (t : TokenType) : string :=
  match t with
  | TOKEN_EOF => "end-of-file" | TOKEN_ID => "identifier"
  | TOKEN_NUMBER => "number" | TOKEN_STRING => "string"
  | TOKEN_ARRAY => "'array'" | TOKEN_BEGIN => "'begin'"
  | TOKEN_BOOLEAN => "'boolean'" | TOKEN_CALL => "'call'"
  | TOKEN_DO => "'do'" | TOKEN_ELSE => "'else'" | TOKEN_ELSIF => "'elsif'"
  | TOKEN_END => "'end'" | TOKEN_FALSE => "'false'"
  | TOKEN_FUNCTION => "'function'" | TOKEN_GET => "'get'"
  | TOKEN_IF => "'if'" | TOKEN_INTEGER => "'integer'"
  | TOKEN_LEAVE => "'leave'" | TOKEN_NOT => "'not'" | TOKEN_PUT => "'put'"
  | TOKEN_RELAX => "'relax'" | TOKEN_SOURCE => "'source'"
  | TOKEN_THEN => "'then'" | TOKEN_TO => "'to'" | TOKEN_TRUE => "'true'"
  | TOKEN_WHILE => "'while'" | TOKEN_EQUAL => "'='"
  | TOKEN_GREATER_EQUAL => "'>='" | TOKEN_GREATER_THAN => "'>'"
  | TOKEN_LESS_EQUAL => "'<='" | TOKEN_LESS_THAN => "'<'"
  | TOKEN_NOT_EQUAL => "'<>'" | TOKEN_MINUS => "'-'" | TOKEN_OR => "'or'"
  | TOKEN_PLUS => "'+'" | TOKEN_AND => "'and'" | TOKEN_DIVIDE => "'/'"
  | TOKEN_MULTIPLY => "'*'" | TOKEN_REMAINDER => "'rem'"
  | TOKEN_CLOSE_BRACKET => "']'" | TOKEN_CLOSE_PARENTHESIS => "')'"
  | TOKEN_COMMA => "','" | TOKEN_CONCATENATE => "'.'"
  | TOKEN_GETS => "':='" | TOKEN_OPEN_BRACKET => "'['"
  | TOKEN_OPEN_PARENTHESIS => "'('" | TOKEN_SEMICOLON => "';'"
  end.

(** The errors [abort_compile] is called with, and its diagnostics. *)
Inductive Error : Type :=
| ERR_EXPECT (expected : TokenType)
| ERR_FACTOR_EXPECTED
| ERR_STATEMENT_EXPECTED
| ERR_ARRAY_ALLOCATION_OR_EXPRESSION_EXPECTED
| ERR_TYPE_EXPECTED
| ERR_EXPRESSION_OR_STRING_EXPECTED.

Definition abort_compile {A : Type} (err : Error) : Parser A :=
  fun c =>
    let found := get_token_string (tok_type (token c)) in
    let msg :=
      match err with
      | ERR_EXPECT t =>
        ("expected " ++ get_token_string t ++ ", but found " ++ found)%string
      | ERR_FACTOR_EXPECTED =>
        ("expected factor, but found " ++ found)%string
      | ERR_STATEMENT_EXPECTED =>
        ("expected statement, but found " ++ found)%string
      | ERR_ARRAY_ALLOCATION_OR_EXPRESSION_EXPECTED =>
        ("expected expression or string, but found " ++ found)%string
      | ERR_TYPE_EXPECTED => ("expected type, but found " ++ found)%string
      | ERR_EXPRESSION_OR_STRING_EXPECTED =>
        ("expected expression or string, but found " ++ found)%string
      end in
    leprintf (position (scanner c)) msg.

Definition expect (type : TokenType) : Parser unit :=
  let! t := tok in
  if tok_eqb t type then next_token else abort_compile (ERR_EXPECT type).

(** [expect_id]: the identifier is copied before the next token is read. *)
Definition expect_id : Parser string :=
  fun c =>
    if tok_eqb (tok_type (token c)) TOKEN_ID
    then (next_token >> ret (tok_lexeme (token c))) c
    else abort_compile (ERR_EXPECT TOKEN_ID) c.

Definition STARTS_FACTOR (t : TokenType) : bool :=
  match t with
  | TOKEN_ID | TOKEN_NUMBER | TOKEN_OPEN_PARENTHESIS | TOKEN_NOT
  | TOKEN_TRUE | TOKEN_FALSE => true
  | _ => false
  end.

Definition STARTS_EXPR (t : TokenType) : bool :=
  match t with
  | TOKEN_MINUS | TOKEN_ID | TOKEN_TRUE | TOKEN_FALSE | TOKEN_NOT
  | TOKEN_NUMBER | TOKEN_OPEN_PARENTHESIS => true
  | _ => false
  end.

(** Modelled from the spec: [IS_ADDOP] tests a range of the token
    enumeration of token.h, which is not among the sources; the grammar of
    the spec gives the additive operators as minus, plus and [or]. *)
Definition IS_ADDOP (t : TokenType) : bool :=
  match t with
  | TOKEN_MINUS | TOKEN_OR | TOKEN_PLUS => true
  | _ => false
  end.

Definition IS_MULOP (t : TokenType) : bool :=
  match t with
  | TOKEN_AND | TOKEN_MULTIPLY | TOKEN_DIVIDE | TOKEN_REMAINDER => true
  | _ => false
  end.

Definition IS_RELOP (t : TokenType) : bool :=
  match t with
  | TOKEN_EQUAL | TOKEN_GREATER_EQUAL | TOKEN_GREATER_THAN
  | TOKEN_LESS_EQUAL | TOKEN_LESS_THAN | TOKEN_NOT_EQUAL => true
  | _ => false
  end.

Definition IS_TYPE_TOKEN (t : TokenType) : bool :=
  match t with
  | TOKEN_BOOLEAN | TOKEN_INTEGER => true
  | _ => false
  end.

Definition IS_TYPE_STATEMENT (t : TokenType) : bool :=
  match t with
  | TOKEN_ID | TOKEN_CALL | TOKEN_IF | TOKEN_GET | TOKEN_LEAVE | TOKEN_PUT
  | TOKEN_WHILE => true
  | _ => false
  end.

(** [while (cond(token.type)) body], threading the locals of the loop. *)
Fixpoint while_token {A : Type} (fuel : nat) (cond : TokenType -> bool)
         (body : A -> Parser A) (a : A) : Parser A :=
  match fuel with
  | O => out_of_fuel
  | S fuel' =>
    let! t := tok in
    if cond t then (let! a' := body a in while_token fuel' cond body a')
    else ret a
  end.

Definition when (b : bool) (m : Parser unit) : Parser unit :=
  if b then m else ret tt.

Definition is_token (t : TokenType) : TokenType -> bool :=
  fun u => tok_eqb u t.

Definition gen_total (f : CodeGen -> CodeGen) : Parser unit :=
  gen (fun g => Ok (f g)).

Definition current_position : Parser SourcePos :=
  fun c => Ok (position (scanner c), c).

(** [if (find_name(id, &p)) { ... p ... }], with [p] a fresh local. *)
Definition if_found (id : string) (k : IDprop -> Parser unit) : Parser unit :=
  let! (found, p) := lookup id None in
  if (found : bool) then (let! rec := prop_of p in k rec) else ret tt.

Definition relop_opcode (t : TokenType) : option Bytecode :=
  match t with
  | TOKEN_EQUAL => Some JVM_IF_ICMPEQ
  | TOKEN_GREATER_EQUAL => Some JVM_IF_ICMPGE
  | TOKEN_GREATER_THAN => Some JVM_IF_ICMPGT
  | TOKEN_LESS_EQUAL => Some JVM_IF_ICMPLE
  | TOKEN_LESS_THAN => Some JVM_IF_ICMPLT
  | TOKEN_NOT_EQUAL => Some JVM_IF_ICMPNE
  | _ => None
  end.

Definition addop_opcode (t : TokenType) : option Bytecode :=
  match t with
  | TOKEN_PLUS => Some JVM_IADD
  | TOKEN_MINUS => Some JVM_ISUB
  | TOKEN_OR => Some JVM_IOR
  | _ => None
  end.

Definition mulop_opcode (t : TokenType) : option Bytecode :=
  match t with
  | TOKEN_AND => Some JVM_IAND
  | TOKEN_MULTIPLY => Some JVM_IMUL
  | TOKEN_DIVIDE => Some JVM_IDIV
  | TOKEN_REMAINDER => Some JVM_IREM
  | _ => None
  end.

(** The expression productions.  [type] is the [ValType *] the caller
    passes: [None] while the pointee has not been assigned. *)
Fixpoint parse_expr (fuel : nat) (type : option ValType)
  : Parser (option ValType) :=
  match fuel with
  | O => out_of_fuel
  | S fuel' =>
    let! type := parse_simple fuel' type in
    let! t := tok in
    if IS_RELOP t then
      match relop_opcode t with
      | Some opcode =>
        expect t >>
        let! type := parse_simple fuel' type in
        gen (gen_cmp opcode) >> ret type
      | None => ret type
      end
    else ret type
  end
with parse_simple (fuel : nat) (type : option ValType)
  : Parser (option ValType) :=
  match fuel with
  | O => out_of_fuel
  | S fuel' =>
    let! t := tok in
    let! min := (if tok_eqb t TOKEN_MINUS
                 then gen (gen_2 JVM_LDC 0) >> expect TOKEN_MINUS >> ret true
                 else ret false) in
    let! type := parse_term fuel' type in
    when min (gen (gen_1 JVM_ISUB)) >>
    while_token fuel' IS_ADDOP
      (fun type =>
         let! t := tok in
         match addop_opcode t with
         | Some opcode =>
           expect t >>
           let! type := parse_term fuel' type in
           gen (gen_1 opcode) >> ret type
         | None => ret type
         end)
      type
  end
with parse_term (fuel : nat) (type : option ValType)
  : Parser (option ValType) :=
  match fuel with
  | O => out_of_fuel
  | S fuel' =>
    let! type := parse_factor fuel' type in
    while_token fuel' IS_MULOP
      (fun type =>
         let! t := tok in
         match mulop_opcode t with
         | Some opcode =>
           expect t >>
           let! type := parse_factor fuel' type in
           gen (gen_1 opcode) >> ret type
         | None => ret type
         end)
      type
  end
with parse_factor (fuel : nat) (type : option ValType)
  : Parser (option ValType) :=
  match fuel with
  | O => out_of_fuel
  | S fuel' =>
    let! t := tok in
    match t with
    | TOKEN_ID =>
      let! finame := expect_id in
      let! (found, p) := lookup finame None in
      let! type :=
        (if (found : bool) then
           let! rec := prop_of p in
           if IS_ARRAY_TYPE (prop_type rec) then
             gen (gen_2 JVM_ALOAD (prop_offset rec)) >>
             ret (Some (prop_type rec))
           else if negb (IS_CALLABLE_TYPE (prop_type rec)) then
             gen (gen_2 JVM_ILOAD (prop_offset rec)) >>
             ret (Some (prop_type rec))
           else ret type
         else ret type) in
      let! t := tok in
      let! type :=
        (if tok_eqb t TOKEN_OPEN_BRACKET then
           expect TOKEN_OPEN_BRACKET >>
           let! type := parse_simple fuel' type in
           gen (gen_1 JVM_IALOAD) >>
           expect TOKEN_CLOSE_BRACKET >> ret type
         else ret type) in
      let! t := tok in
      if tok_eqb t TOKEN_OPEN_PARENTHESIS then
        expect TOKEN_OPEN_PARENTHESIS >>
        let! t := tok in
        let! type :=
          (if STARTS_EXPR t then
             let! type := parse_expr fuel' type in
             while_token fuel' (is_token TOKEN_COMMA)
               (fun type => expect TOKEN_COMMA >> parse_expr fuel' type) type
           else ret type) in
        expect TOKEN_CLOSE_PARENTHESIS >>
        (fun c => gen (gen_call (props (symtab c)) finame p) c) >>
        ret type
      else ret type
    | TOKEN_NUMBER =>
      (fun c => gen (gen_2 JVM_LDC (tok_value (token c))) c) >>
      expect TOKEN_NUMBER >> ret (Some TYPE_INTEGER)
    | TOKEN_OPEN_PARENTHESIS =>
      expect TOKEN_OPEN_PARENTHESIS >>
      let! type := parse_expr fuel' type in
      expect TOKEN_CLOSE_PARENTHESIS >> ret type
    | TOKEN_NOT => expect TOKEN_NOT >> parse_factor fuel' type
    | TOKEN_TRUE =>
      gen (gen_2 JVM_LDC 1) >> expect TOKEN_TRUE >> ret (Some TYPE_BOOLEAN)
    | TOKEN_FALSE =>
      gen (gen_2 JVM_LDC 0) >> expect TOKEN_FALSE >> ret (Some TYPE_BOOLEAN)
    | _ => abort_compile ERR_FACTOR_EXPECTED
    end
  end.

(** The statements that hold no statement of their own. *)
Definition parse_assign (fuel : nat) : Parser unit :=
  let! aname := expect_id in
  let! t := tok in
  let! type :=
    (if tok_eqb t TOKEN_OPEN_BRACKET then
       expect TOKEN_OPEN_BRACKET >>
       if_found aname (fun p => gen (gen_2 JVM_ALOAD (prop_offset p))) >>
       let! type := parse_simple fuel None in
       expect TOKEN_CLOSE_BRACKET >> ret type
     else ret None) in
  expect TOKEN_GETS >>
  let! t := tok in
  if STARTS_EXPR t then
    let! _ := parse_expr fuel type in
    if_found aname
      (fun p => if IS_ARRAY_TYPE (prop_type p) then gen (gen_1 JVM_IASTORE)
                else gen (gen_2 JVM_ISTORE (prop_offset p)))
  else if tok_eqb t TOKEN_ARRAY then
    expect TOKEN_ARRAY >>
    let! _ := parse_simple fuel type in
    if_found aname
      (fun p =>
         (if IS_BOOLEAN_TYPE (prop_type p) then gen (gen_newarray T_INT)
          else if IS_INTEGER_TYPE (prop_type p) then gen (gen_newarray T_INT)
          else ret tt) >>
         gen (gen_2 JVM_ASTORE (prop_offset p)))
  else abort_compile ERR_ARRAY_ALLOCATION_OR_EXPRESSION_EXPECTED.

Definition parse_call (fuel : nat) : Parser unit :=
  expect TOKEN_CALL >>
  let! cname := expect_id in
  expect TOKEN_OPEN_PARENTHESIS >>
  let! t := tok in
  let! _ :=
    (if STARTS_EXPR t then
       let! type := parse_expr fuel None in
       while_token fuel (is_token TOKEN_COMMA)
         (fun type => expect TOKEN_COMMA >> parse_expr fuel type) type
     else ret None) in
  let! (found, p) := lookup cname None in
  when found (fun c => gen (gen_call (props (symtab c)) cname p) c) >>
  expect TOKEN_CLOSE_PARENTHESIS.

Definition parse_input (fuel : nat) : Parser unit :=
  expect TOKEN_GET >>
  let! iname := expect_id in
  let! t := tok in
  when (tok_eqb t TOKEN_OPEN_BRACKET)
       (expect TOKEN_OPEN_BRACKET >>
        let! _ := parse_simple fuel None in
        expect TOKEN_CLOSE_BRACKET) >>
  if_found iname
    (fun p => gen (gen_read (prop_type p)) >>
              gen (gen_2 JVM_ISTORE (prop_offset p))).

Definition parse_leave (fuel : nat) : Parser unit :=
  expect TOKEN_LEAVE >>
  let! t := tok in
  when (STARTS_EXPR t)
       (let! _ := parse_expr fuel None in gen (gen_1 JVM_IRETURN)).

Definition payload (bytes : list Z) : string :=
  string_of_list_ascii (map to_ascii bytes).

(** One item of [put]: a string or an expression; [gen_print] is passed the
    local [type], which must have been assigned. *)
Definition output_item (fuel : nat) (type : option ValType)
  : Parser (option ValType) :=
  let! t := tok in
  if tok_eqb t TOKEN_STRING then
    (fun c => gen (gen_print_string (payload (tok_string (token c)))) c) >>
    expect TOKEN_STRING >> ret type
  else if STARTS_EXPR t then
    let! type := parse_expr fuel type in
    match type with
    | Some ty => gen (gen_print ty) >> ret type
    | None => undefined
    end
  else abort_compile ERR_EXPRESSION_OR_STRING_EXPECTED.

Definition parse_output (fuel : nat) : Parser unit :=
  expect TOKEN_PUT >>
  let! type := output_item fuel None in
  let! _ := while_token fuel (is_token TOKEN_CONCATENATE)
              (fun type => expect TOKEN_CONCATENATE >> output_item fuel type)
              type in
  ret tt.

(** [parse_if] and [parse_while], given the parser of [<statements>]. *)
Definition parse_if_with (fuel : nat) (statements : Parser unit)
  : Parser unit :=
  let! start := new_label in
  let! end_ := new_label in
  let! next := new_label in
  expect TOKEN_IF >>
  let! _ := parse_expr fuel None in
  gen (gen_2_label JVM_IFEQ next) >>
  expect TOKEN_THEN >>
  statements >>
  gen (gen_2_label JVM_GOTO end_) >>
  gen (gen_label next) >>
  let! _ := while_token fuel (is_token TOKEN_ELSIF)
    (fun _ : unit =>
       let! start := new_label in
       expect TOKEN_ELSIF >>
       let! _ := parse_expr fuel None in
       gen (gen_2_label JVM_IFEQ start) >>
       expect TOKEN_THEN >>
       statements >>
       gen (gen_2_label JVM_GOTO end_) >>
       gen (gen_label start)) tt in
  let! t := tok in
  when (tok_eqb t TOKEN_ELSE) (expect TOKEN_ELSE >> statements) >>
  gen (gen_label end_) >>
  expect TOKEN_END.

Definition parse_while_with (fuel : nat) (statements : Parser unit)
  : Parser unit :=
  let! start := new_label in
  let! end_ := new_label in
  expect TOKEN_WHILE >>
  gen (gen_label start) >>
  let! _ := parse_expr fuel None in
  gen (gen_2_label JVM_IFEQ end_) >>
  expect TOKEN_DO >>
  statements >>
  gen (gen_2_label JVM_GOTO start) >>
  gen (gen_label end_) >>
  expect TOKEN_END.

Definition parse_statement_with (fuel : nat) (statements : Parser unit)
  : Parser unit :=
  let! t := tok in
  match t with
  | TOKEN_ID => parse_assign fuel
  | TOKEN_CALL => parse_call fuel
  | TOKEN_IF => parse_if_with fuel statements
  | TOKEN_GET => parse_input fuel
  | TOKEN_LEAVE => parse_leave fuel
  | TOKEN_PUT => parse_output fuel
  | TOKEN_WHILE => parse_while_with fuel statements
  | _ => abort_compile ERR_STATEMENT_EXPECTED
  end.

Fixpoint parse_statements (fuel : nat) : Parser unit :=
  match fuel with
  | O => out_of_fuel
  | S fuel' =>
    let parse_statement := parse_statement_with fuel' (parse_statements fuel') in
    let! t := tok in
    (if tok_eqb t TOKEN_RELAX then expect TOKEN_RELAX
     else if IS_TYPE_STATEMENT t then parse_statement
     else abort_compile ERR_STATEMENT_EXPECTED) >>
    while_token fuel' (is_token TOKEN_SEMICOLON)
      (fun _ : unit => expect TOKEN_SEMICOLON >> parse_statement) tt
  end.

Definition parse_statement (fuel : nat) : Parser unit :=
  parse_statement_with fuel (parse_statements fuel).
Definition parse_if (fuel : nat) : Parser unit :=
  parse_if_with fuel (parse_statements fuel).
Definition parse_while (fuel : nat) : Parser unit :=
  parse_while_with fuel (parse_statements fuel).

Definition parse_type : Parser ValType :=
  let! t := tok in
  let! type :=
    match t with
    | TOKEN_BOOLEAN => expect TOKEN_BOOLEAN >> ret TYPE_BOOLEAN
    | TOKEN_INTEGER => expect TOKEN_INTEGER >> ret TYPE_INTEGER
    | _ => abort_compile ERR_TYPE_EXPECTED
    end in
  let! t := tok in
  if tok_eqb t TOKEN_ARRAY
  then expect TOKEN_ARRAY >> ret (SET_AS_ARRAY type)
  else ret type.

(** [if (!insert_name(id, idprop(type, get_variables_width(), 0, NULL)))
    leprintf("multiple defenition of %s", id)]. *)
Definition declare (id : string) (type : ValType) : Parser unit :=
  let! width := variables_width in
  let! p := new_idprop type width 0 [] in
  let! inserted := sym (fun st => insert_name st id p) in
  if (inserted : bool) then ret tt
  else die ("multiple defenition of " ++ id)%string.

Definition parse_vardef (fuel : nat) : Parser unit :=
  let! v := parse_type in
  let! vname := expect_id in
  declare vname v >>
  let! _ := while_token fuel (is_token TOKEN_COMMA)
    (fun _ : unit =>
       next_token >>
       let! vname := expect_id in
       declare vname v) tt in
  expect TOKEN_SEMICOLON.

Definition parse_body (fuel : nat) : Parser unit :=
  expect TOKEN_BEGIN >>
  let! _ := while_token fuel IS_TYPE_TOKEN
              (fun _ : unit => parse_vardef fuel) tt in
  parse_statements fuel >>
  expect TOKEN_END.

(** The loop [for (i = 0; i < numparams; i++) { v[i] = next->type;
    next = next->next; }] over the chain that starts at [next]. *)
Fixpoint param_types (n : nat) (i : nat) (chain : list Var)
  : result (list ValType) :=
  match n with
  | O => Ok []
  | S n' =>
    match chain !! i with
    | None => Undefined
    | Some v =>
      let* rest := param_types n' (S i) chain in
      Ok (var_type v :: rest)
    end
  end.

Fixpoint insert_params (chain : list Var) : Parser unit :=
  match chain with
  | [] => ret tt
  | v :: rest => declare (var_id v) (var_type v) >> insert_params rest
  end.

(** [parse_funcdef].  [next] and [prev] are assigned only when there is a
    first parameter; every further parameter is hung on [next->next] of the
    first one, [next] not being advanced.  The locals are held as the chain
    that starts at the first parameter, or [None] while they are
    unassigned. *)
Definition parse_funcdef (fuel : nat) : Parser unit :=
  expect TOKEN_FUNCTION >>
  let! fname := expect_id in
  let function := fname in
  expect TOKEN_OPEN_PARENTHESIS >>
  let! t := tok in
  let! (chain, numparams) :=
    (if IS_TYPE_TOKEN t then
       let! vt := parse_type in
       let! tname := expect_id in
       let! pos := current_position in
       let first := {| var_id := tname; var_type := vt; var_pos := pos |} in
       let! (second, numparams) :=
         while_token fuel (is_token TOKEN_COMMA)
           (fun '(_, numparams) =>
              expect TOKEN_COMMA >>
              let! vt2 := parse_type in
              let! t2name := expect_id in
              let! pos := current_position in
              ret (Some {| var_id := t2name; var_type := vt2; var_pos := pos |},
                   numparams + 1))
           (None, 1) in
       ret (Some (first :: option_list second), numparams)
     else ret (None, 0)) in
  expect TOKEN_CLOSE_PARENTHESIS >>
  let! t := tok in
  when (tok_eqb t TOKEN_TO)
    (expect TOKEN_TO >>
     let! rt := parse_type in
     (fun c => Ok (tt, set_return_type c rt)) >>
     let! v := (fun c => let* v := param_types (Z.to_nat numparams) 0
                                               (default [] chain) in
                         Ok (v, c)) in
     (fun c => Ok (tt, set_return_type c (SET_AS_CALLABLE (return_type c)))) >>
     let! rt := (fun c => Ok (return_type c, c)) in
     let! width := variables_width in
     let! p := new_idprop rt width numparams v in
     let! _ := sym (fun st => open_subroutine st function p) in
     let! width := variables_width in
     let! p := new_idprop rt width numparams v in
     gen_total (init_subroutine_codegen function p) >>
     match chain with
     | None => undefined
     | Some vars => insert_params vars
     end) >>
  parse_body fuel >>
  sym (fun st => let* st := close_subroutine st in Ok (tt, st)) >>
  let! width := variables_width in
  gen (close_subroutine_codegen fuel width).

Definition parse_source (fuel : nat) : Parser unit :=
  expect TOKEN_SOURCE >>
  let! class_name := expect_id in
  gen_total (set_class_name class_name) >>
  let! _ := while_token fuel (is_token TOKEN_FUNCTION)
              (fun _ : unit => parse_funcdef fuel) tt in
  let! p := new_idprop TYPE_CALLABLE 0 0 [] in
  gen_total (init_subroutine_codegen "main" p) >>
  parse_body fuel >>
  gen (gen_1 JVM_RETURN) >>
  let! width := variables_width in
  gen (close_subroutine_codegen fuel width).

(** [main], up to and including [make_code_file]: the parse, then the text
    of the listing. *)
Definition start (text : string) : Compiler :=
  {| scanner := init_scanner (src text);
     token := empty_token;
     return_type := TYPE_NONE;
     symtab := init_symbol_table empty_symtab;
     codegen := init_code_generation initial_codegen |}.

Definition parse (fuel : nat) (text : string) : result Compiler :=
  let* (_, c) := (next_token >> parse_source fuel) (start text) in
  Ok c.

Definition main (fuel : nat) (text : string) : result string :=
  let* c := parse fuel text in
  make_code_file fuel (props (symtab c)) (codegen c).

Definition body_list_of (c : Compiler) : list (option string * Z) :=
  map (fun '(_, b) => (b_name b, b_ip b)) (map_to_list (body_store (codegen c))).


(** * Vocabulary of the properties *)

(** ** Scanner *)

(** The scanner is positioned on the text [t]: the lookahead [ch] is its
    first character and the file holds the rest; on the empty text the
    lookahead is [EOF]. *)
Definition at_text (s : Scanner) (t : list ascii) : Prop :=
  match t with
  | [] => ch s = EOF /\ src_file s = []
  | c :: r => ch s = chr c /\ src_file s = r
  end.

Definition is_newline (c : ascii) : bool := chr c =? NL.

Fixpoint count_newlines (l : list ascii) : Z :=
  match l with
  | [] => 0
  | c :: r => (if is_newline c then 1 else 0) + count_newlines r
  end.

(** The scanner after [init_scanner] and [k] further calls of [next_char]. *)
Definition scan_to (k : nat) (input : list ascii) : Scanner :=
  Nat.iter k next_char (init_scanner input).

(** What the scanner holds after [k] further characters were requested. *)
Definition reading (input : list ascii) (k : nat) (s : Scanner) : Prop :=
  match input !! k with
  | Some c =>
    ch s = chr c /\ src_file s = drop (S k) input
    /\ line (position s) = 1 + count_newlines (take k input)
  | None =>
    ch s = EOF /\ src_file s = []
    /\ line (position s)
       = 1 + count_newlines (take (List.length input - 1) input)
  end.

(** The accumulation of a numeric literal as the spec words it: the next
    digit [d] is accepted when [v <= (INT_MAX - d) / 10]. *)
Definition digit_value (c : ascii) : Z := chr c - chr "0".

Fixpoint accumulate (v : Z) (digits : list ascii) : option Z :=
  match digits with
  | [] => Some v
  | c :: r =>
    if v <=? (INT_MAX - digit_value c) / 10
    then accumulate (10 * v + digit_value c) r
    else None
  end.

(** The number a digit sequence denotes, after the prefix worth [v]. *)
Fixpoint decimal_value (v : Z) (digits : list ascii) : Z :=
  match digits with
  | [] => v
  | c :: r => decimal_value (10 * v + digit_value c) r
  end.

Definition is_digit (c : ascii) : Prop := isdigit (chr c) = true.

(** The text does not go on with a digit. *)
Definition no_digit_ahead (rest : list ascii) : Prop :=
  match rest with
  | [] => True
  | c :: _ => isdigit (chr c) = false
  end.

Definition number_token (token : Token) (n : Z) : Token :=
  {| tok_type := TOKEN_NUMBER; tok_value := n;
     tok_lexeme := tok_lexeme token; tok_string := tok_string token |}.


Definition dquote : ascii := "034"%char.







(** The place of the lookahead: the line and the column [skip_comment]
    records for an opening brace. *)
Definition here (s : Scanner) : SourcePos :=
  {| line := line (position s); col := column_number s |}.

(** The comments that are open, as a stack of the places of their opening
    braces, innermost first.  An opening brace pushes its place, a closing
    brace pops; the scan ends on the brace that closes the last comment, and
    at end of file the place reported is the top of the stack. *)
Fixpoint open_comments (fuel : nat) (stack : list SourcePos) (s : Scanner)
  : result Scanner :=
  match fuel with
  | O => OutOfFuel
  | S fuel' =>
    match stack with
    | [] => Ok s
    | top :: below =>
      if ch s =? EOF then Fatal top "comment not closed"
      else if ch s =? RBRACE then
        match below with
        | [] => Ok s
        | _ => open_comments fuel' below (next_char s)
        end
      else if ch s =? LBRACE
           then open_comments fuel' (here s :: stack) (next_char s)
      else open_comments fuel' stack (next_char s)
    end
  end.

(** The characters still to be examined, the lookahead included. *)
Definition remaining (s : Scanner) : nat :=
  if ch s =? EOF then 0%nat else S (List.length (src_file s)).

(** The stack machine gets from one configuration to another, or to a
    fatal error, whatever fuel is left over. *)
Definition runs_to (stack : list SourcePos) (s : Scanner)
           (stack' : list SourcePos) (s' : Scanner) : Prop :=
  exists n, forall k,
      open_comments (n + k) stack s = open_comments k stack' s'.

Definition runs_fatal (stack : list SourcePos) (s : Scanner)
           (pos : SourcePos) (msg : string) : Prop :=
  exists n, forall k, open_comments (n + S k) stack s = Fatal pos msg.

(** ** Code emitter *)

(** The code of the current body: what was written to the block behind
    [code], nothing when there is no block. *)
Definition view (g : CodeGen) : list Code := default [] (bufs g !! code g).

(** The stack effect of a code item that is an instruction. *)
Definition item_instruction (c : Code) : option BC :=
  if Z.land (code_type c) MASK_TYPE =? CODE_INSTRUCTION then
    match code_data c with
    | D_code opcode => Some (instruction_set opcode)
    | _ => None
    end
  else None.

Definition instructions (buf : list Code) : list BC :=
  omap item_instruction buf.

(** The running [stack_depth] right after the push of each instruction,
    and after all of them, from the depth [depth]. *)
Fixpoint depths_after_push (depth : Z) (l : list BC) : list Z :=
  match l with
  | [] => []
  | bc :: r => (depth + push bc) :: depths_after_push (depth + push bc - pop bc) r
  end.

Fixpoint final_depth (depth : Z) (l : list BC) : Z :=
  match l with
  | [] => depth
  | bc :: r => final_depth (depth + push bc - pop bc) r
  end.

(** The supremum of a set of depths, which is 0 for the empty set. *)
Definition supremum (l : list Z) : Z := fold_right Z.max 0 l.

(** The emitter has emitted the instructions of the current body and has
    applied the stack effects of all of them but [pending]. *)
Definition tracked_but (pending : list BC) (g : CodeGen) : Prop :=
  exists applied,
    instructions (view g) = applied ++ pending
    /\ stack_depth g = final_depth 0 applied
    /\ max_stack_depth g = supremum (depths_after_push 0 applied).

Definition tracked (g : CodeGen) : Prop := tracked_but [] g.

(** A call of the interface of codegen.c that returns. *)
Inductive emitter_step : CodeGen -> CodeGen -> Prop :=
| step_init_code_generation g :
    emitter_step g (init_code_generation g)
| step_set_class_name cname g :
    emitter_step g (set_class_name cname g)
| step_init_subroutine_codegen name p g :
    emitter_step g (init_subroutine_codegen name p g)
| step_close_subroutine_codegen fuel varwidth g g' :
    close_subroutine_codegen fuel varwidth g = Ok g' -> emitter_step g g'
| step_get_label g :
    emitter_step g (snd (get_label g))
| step_gen_1 opcode g g' :
    gen_1 opcode g = Ok g' -> emitter_step g g'
| step_gen_2 opcode operand g g' :
    gen_2 opcode operand g = Ok g' -> emitter_step g g'
| step_gen_label label g g' :
    gen_label label g = Ok g' -> emitter_step g g'
| step_gen_2_label opcode label g g' :
    gen_2_label opcode label g = Ok g' -> emitter_step g g'
| step_gen_newarray atype g g' :
    gen_newarray atype g = Ok g' -> emitter_step g g'
| step_gen_call ps fname p g g' :
    gen_call ps fname p g = Ok g' -> emitter_step g g'
| step_gen_cmp opcode g g' :
    gen_cmp opcode g = Ok g' -> emitter_step g g'
| step_gen_print type g g' :
    gen_print type g = Ok g' -> emitter_step g g'
| step_gen_print_string str g g' :
    gen_print_string str g = Ok g' -> emitter_step g g'
| step_gen_read type g g' :
    gen_read type g = Ok g' -> emitter_step g g'.

(** The states of the emitter: what the calls of its interface lead to from
    the state the process starts in. *)
Inductive emitter_state : CodeGen -> Prop :=
| emitter_start : emitter_state initial_codegen
| emitter_after g g' :
    emitter_state g -> emitter_step g g' -> emitter_state g'.

(** The code of a body, as [dump_method] reads it. *)
Definition body_code (g : CodeGen) (b : Body) : list Code :=
  default [] (bufs g !! b_code b).

(** What a call that only emits code leaves alone: the list of bodies and
    the name of the current subroutine; the allocator only moves on. *)
Definition same_bodies (g g' : CodeGen) : Prop :=
  bodies g' = bodies g
  /\ body_store g' = body_store g
  /\ function_name g' = function_name g
  /\ class_name g' = class_name g
  /\ (cg_next_addr g <= cg_next_addr g')%nat.

(** ** Hash table *)

(** The entries of a table, bucket by bucket, and their keys. *)
Definition entries (ht : HashTab) : list HTentry := concat (ht_table ht).
Definition keys (ht : HashTab) : list string := map e_key (entries ht).

(** The sizes [getsize] moves through: the largest prime below 2^i. *)
Definition prime_size (i : Z) : Z := 2 ^ i - default 0 (delta !! Z.to_nat i).

Definition at_index (ht : HashTab) (i : Z) : Prop :=
  4 <= i <= 30 /\ ht_size ht = prime_size i.

(** A hash table as [ht_init] and [ht_insert] make it: the hash function
    stays below the size, [cmp] is 0 on equal keys only, the size is one of
    the primes with a bucket for every index, every entry lies in the bucket
    of its hash, and no key occurs twice. *)
Record ht_inv (ht : HashTab) : Prop := {
  inv_hash : forall k s, 0 < s -> 0 <= ht_hash ht k s < s;
  inv_cmp : forall a b, ht_cmp ht a b = 0 <-> a = b;
  inv_load : ht_max_loadfactor ht = LOADFACTOR;
  inv_index : exists i, at_index ht i;
  inv_length : List.length (ht_table ht) = Z.to_nat (ht_size ht);
  inv_placed : forall (i : nat) chain e,
      ht_table ht !! i = Some chain -> e ∈ chain ->
      Z.to_nat (ht_hash ht (e_key e) (ht_size ht)) = i;
  inv_nodup : NoDup (keys ht)
}.

Definition entry (k : string) (v : ptr) : HTentry :=
  {| e_key := k; e_value := v |}.



Definition count_entries (ht : HashTab) : Z :=
  Z.of_nat (List.length (entries ht)).








(** The table of the symbol table after the names have been inserted in
    turn, the [n]-th with the value [n]. *)
Definition symbol_hash_table : HashTab :=
  ht_init LOADFACTOR shift_hash key_strcmp.



(** ** Symbol table *)


(** A table of the symbol table as [ht_init] and a run of [ht_insert] leave
    it: [num_entries] is one ahead of the entries, the entries stay below
    three quarters of the buckets, and the size has grown only where the
    count called for it. *)
Definition table_ok (T : HashTab) : Prop :=
  ht_inv T
  /\ ht_num_entries T = count_entries T + 1
  /\ 4 * count_entries T < 3 * ht_size T
  /\ exists i, at_index T i
               /\ (i = 4 \/ exists j, 4 <= j < i /\ i <= j + 2
                                      /\ 3 * prime_size j
                                         <= 4 * ht_num_entries T).

(** The values held by a table are records that are allocated. *)
Definition values_allocated (st : SymTab) (T : HashTab) : Prop :=
  forall e, e ∈ entries T -> is_Some (props st !! e_value e).

(** The state of the symbol table between two calls of its interface:
    [table] points to a table in order, and [saved_table], when it is not
    NULL, to a well-formed one. *)
Definition scope_inv (st : SymTab) : Prop :=
  (exists T, tabs st !! table st = Some T
             /\ table_ok T /\ values_allocated st T)
  /\ (saved_table st = NULL
      \/ exists S, tabs st !! saved_table st = Some S
                   /\ ht_inv S /\ values_allocated st S).


(** The active scope binds [k] to the record at [v]. *)
Definition bound (st : SymTab) (k : string) (v : ptr) : Prop :=
  exists T, tabs st !! table st = Some T /\ entry k v ∈ entries T.

(** The saved scope holds [id] as a variable, with the record at [r]. *)
Definition captured (st : SymTab) (id : string) (r : ptr) : Prop :=
  saved_table st <> NULL
  /\ exists S rec, tabs st !! saved_table st = Some S
                   /\ entry id r ∈ entries S
                   /\ props st !! r = Some rec
                   /\ IS_CALLABLE_TYPE (prop_type rec) = false.


(** The state an interface call leaves, for a call that returns. *)
Definition after {A : Type} (r : result A) (otherwise : A) : A :=
  match r with
  | Ok a => a
  | _ => otherwise
  end.








(** ** The list of bodies *)

(** The bodies [dump_code] visits: from [bodies] along [next]. *)
Fixpoint bodies_from (fuel : nat) (store : gmap ptr Body) (b : ptr)
  : list Body :=
  match fuel with
  | O => []
  | S fuel' =>
    if Nat.eqb b NULL then []
    else
      match store !! b with
      | None => []
      | Some body => body :: bodies_from fuel' store (b_next body)
      end
  end.

(** Every body has an address below the next one the allocator hands out,
    so that many steps reach the end of the list. *)
Definition body_list (g : CodeGen) : list Body :=
  bodies_from (cg_next_addr g) (body_store g) (bodies g).






(** Every run of the parser [m] that returns takes the emitter from a state
    to one that [R] relates to it. *)
Definition runs {A : Type} (R : CodeGen -> CodeGen -> Prop) (m : Parser A)
  : Prop :=
  forall c a c', m c = Ok (a, c') -> R (codegen c) (codegen c').




(** A program with one function definition before its body, and one whose
    function has [relax] for its statements. *)
Definition square_program : string :=
  "source F function sq(integer x) to integer begin leave x * x end begin put sq(7) end".

Definition relax_program : string :=
  "source F function sq(integer x) to integer begin relax end begin relax end".

(** What [dump_method] does at its guard for a body. *)
Definition guard_of (g : CodeGen) (b : Body) : result string :=
  match bufs g !! b_code b with
  | Some buf => dangling_label_guard b buf
  | None => Undefined
  end.
(** * Vocabulary of the further properties *)


(** ** Scanner: words, operators and characters *)

(** The place of a name in an association list, counted from [i], and what
    the list holds for it. *)
Fixpoint assoc_index {A : Type} (name : string) (l : list (string * A))
         (i : nat) : option (nat * A) :=
  match l with
  | [] => None
  | (w, a) :: r =>
    if String.eqb name w then Some (i, a) else assoc_index name r (S i)
  end.

(** What the binary search of [process_word] is to return: the index of the
    lexeme in [reserved], or -1. *)
Definition reserved_index (lexeme : string) : Z :=
  match assoc_index lexeme reserved 0 with
  | Some (i, _) => Z.of_nat i
  | None => -1
  end.

(** The token of a word: the kind of the reserved word, the other fields
    left alone, or an identifier that holds the word. *)
Definition word_token (token : Token) (lexeme : string) : Token :=
  match assoc_index lexeme reserved 0 with
  | Some (_, ty) => set_type token ty
  | None =>
    {| tok_type := TOKEN_ID; tok_value := tok_value token;
       tok_lexeme := lexeme; tok_string := tok_string token |}
  end.

Definition starts_word (c : ascii) : Prop :=
  isalpha (chr c) || (chr c =? chr "_") = true.

Definition is_word (c : ascii) : Prop := is_word_char (chr c) = true.

(** The text does not go on with a character of a word. *)
Definition no_word_ahead (rest : list ascii) : Prop :=
  match rest with
  | [] => True
  | c :: _ => is_word_char (chr c) = false
  end.

(** The place where the token that starts at the lookahead starts. *)
Definition token_start (s : Scanner) : SourcePos :=
  {| line := line (position s); col := column_number s |}.

Definition is_blank (c : ascii) : Prop :=
  (chr c =? SPACE) || (chr c =? TAB) || (chr c =? NL) = true.

(** The characters a token, a comment or white space can start with. *)
Definition legal_start (c : Z) : bool :=
  isalpha c || isdigit c
  || existsb (Z.eqb c)
       (map chr [ "_"; " "; "009"; "010"; "034"; "{"; "("; ")"; "["; "]";
                  "+"; "-"; "/"; "*"; ";"; ","; "."; ":"; "<"; ">"; "=" ]%char).

(** The lookahead on a text. *)
Definition lookahead (t : list ascii) : Z :=
  match t with
  | [] => EOF
  | c :: _ => chr c
  end.

(** Once the lookahead is [EOF] the file has been read to its end. *)
Definition at_end_when_EOF (s : Scanner) : Prop :=
  ch s = EOF -> src_file s = [].

(** A call of [get_token] ends well from [s]: with a fatal error, or with a
    token and the scanner further on in the input, or with the end-of-file
    token at the end of the input. *)
Definition ends_well (s : Scanner) (r : result (Token * Scanner)) : Prop :=
  match r with
  | Ok (t, s') =>
    at_end_when_EOF s'
    /\ ((remaining s' < remaining s)%nat
        \/ (tok_type t = TOKEN_EOF /\ remaining s' = 0%nat))
  | Fatal _ _ => True
  | _ => False
  end.

(** ** Hash table *)

(** Trial division: none of the [n] numbers from [d] on divides [p]. *)
Fixpoint no_divisor (n : nat) (d p : Z) : bool :=
  match n with
  | O => true
  | S n' => if p mod d =? 0 then false else no_divisor n' (d + 1) p
  end.

(** No number from 2 to the square root of [p] divides [p]. *)
Definition trial_prime (p : Z) : bool :=
  (1 <? p) && no_divisor (Z.to_nat (Z.sqrt p - 1)) 2 p.

(** The numbers above [p] and below [top]. *)
Definition strictly_between (p top : Z) : list Z :=
  map (fun k => p + 1 + Z.of_nat k) (seq 0 (Z.to_nat (top - p - 1))).

(** [prime_size i] is a prime and no number between it and [2 ^ i] is. *)
Definition largest_prime_below (i : Z) : bool :=
  trial_prime (prime_size i)
  && forallb (fun q => negb (trial_prime q))
             (strictly_between (prime_size i) (2 ^ i)).

(** ** Symbol table *)

(** The saved scope holds [id] as a subroutine, with the record at [r]. *)
Definition callable_outside (st : SymTab) (id : string) (r : ptr) : Prop :=
  saved_table st <> NULL
  /\ exists S rec, tabs st !! saved_table st = Some S
                   /\ entry id r ∈ entries S
                   /\ props st !! r = Some rec
                   /\ IS_CALLABLE_TYPE (prop_type rec) = true.

(** [id] is visible with the record at [r]: the active scope binds it, or
    the active scope does not bind it and the saved scope holds it as a
    subroutine. *)
Definition visible (st : SymTab) (id : string) (r : ptr) : Prop :=
  bound st id r
  \/ ((forall v, ~ bound st id v) /\ callable_outside st id r).


(** The sum of the characters of a key, each as [shift_hash] multiplies
    it, and the sum of the powers of 40 a key of [len] characters meets. *)
Definition sum_of (l : list Z) : Z := fold_right Z.add 0 l.

Definition char_sum (key : string) : Z :=
  sum_of (map char_operand (list_ascii_of_string key)).

Definition weight (len : nat) : Z :=
  sum_of (map (fun j => 40 ^ (Z.of_nat j + 2)) (seq 1 len)).

(** ** Code emitter *)

(** A body is open: [code] points to a block of [code_size] items, of which
    the first [ip] are written, and the block is no smaller than the one
    [init_subroutine_codegen] allocates. *)
Definition open_body (g : CodeGen) : Prop :=
  exists buf, bufs g !! code g = Some buf
              /\ ip g = Z.of_nat (List.length buf)
              /\ ip g <= code_size g
              /\ INITIAL_SIZE <= code_size g.

(** The open body has space for [k] more items. *)
Definition space_for (k : Z) (g : CodeGen) : Prop :=
  open_body g /\ ip g + k <= code_size g.

Definition item (t : Z) (d : CodeData) : Code :=
  {| code_type := t; code_data := d |}.

Definition instruction (opcode : Bytecode) : Code :=
  item CODE_INSTRUCTION (D_code opcode).

(** [g'] holds the code of [g] and then [items]; the label counter is the
    same and the stack depth has moved by [change]. *)
Definition appended (g g' : CodeGen) (items : list Code) (change : Z)
  : Prop :=
  view g' = view g ++ items
  /\ label_counter g' = label_counter g
  /\ stack_depth g' = stack_depth g + change.

(** The net effect of an instruction on the stack depth. *)
Definition net (opcode : Bytecode) : Z :=
  push (instruction_set opcode) - pop (instruction_set opcode).

(** The code of a comparison: the branch to the first label, the value for
    false, the jump to the second label, the first label, the value for
    true, the second label. *)
Definition comparison (opcode : Bytecode) (l1 l2 : Z) : list Code :=
  [ instruction opcode; item (Z.lor CODE_LABEL CODE_OPERAND) (D_label l1);
    instruction JVM_LDC; item (Z.lor CODE_OPERAND CODE_INTEGER) (D_num 0);
    instruction JVM_GOTO; item (Z.lor CODE_LABEL CODE_OPERAND) (D_label l2);
    item CODE_LABEL (D_label l1);
    instruction JVM_LDC; item (Z.lor CODE_OPERAND CODE_INTEGER) (D_num 1);
    item CODE_LABEL (D_label l2) ].

(** The descriptor of a list of parameter types, the signature of the
    subroutine [fname], and the reference [gen_call] builds for it in the
    class [cname]. *)
Fixpoint descriptor (params : list ValType) : string :=
  match params with
  | [] => ""
  | t :: rest => (if IS_ARRAY_TYPE t then "[I" else "I") ++ descriptor rest
  end.

Definition signature (fname : string) (rec : IDprop) : string :=
  fname ++ "(" ++ descriptor (prop_params rec) ++ ")"
    ++ (if IS_ARRAY_TYPE (prop_type rec) then "[" else "")
    ++ (if prop_type rec =? TYPE_CALLABLE then "V" else "I").

Definition method_reference (cname fname : string) (rec : IDprop) : string :=
  cname ++ "." ++ signature fname rec.

(** The type [gen_print] goes by: that of the value, for a subroutine its
    return type. *)
Definition printed_type (type : ValType) : ValType :=
  if IS_CALLABLE_TYPE type then SET_RETURN_TYPE type else type.

(** The code that prints the value on the stack through the method
    [method] of the output stream. *)
Definition print_code (method : string) : list Code :=
  [ instruction JVM_GETSTATIC; item REF (D_string ref_print_stream);
    instruction JVM_SWAP; instruction JVM_INVOKEVIRTUAL;
    item REF (D_string method) ].

(** A character a string literal takes as it is: printable, and neither
    the quote nor the backslash. *)
Definition plain_char (c : ascii) : Prop :=
  isprint (chr c) = true /\ chr c <> DQUOTE /\ chr c <> BACKSLASH.

(** ** Parser *)

(** The emitter holds the same class name. *)
Definition same_class (g g' : CodeGen) : Prop :=
  class_name g' = class_name g.

(** ** Comments *)

(** The text between the braces of a comment: characters other than
    braces, and comments. *)
Inductive comment_body : list ascii -> Prop :=
| comment_empty : comment_body []
| comment_char c t :
    chr c <> LBRACE -> chr c <> RBRACE -> comment_body t ->
    comment_body (c :: t)
| comment_nested inner t :
    comment_body inner -> comment_body t ->
    comment_body ("{"%char :: inner ++ "}"%char :: t).


(** * Properties *)

(** ** Outcomes *)

Lemma bind_Ok {A B : Type} (m : result A) (k : A -> result B) (b : B) :
  bind m k = Ok b -> exists a, m = Ok a /\ k a = Ok b.
Proof. destruct m; simpl; try discriminate. eauto. Qed.

(** ** Scanner: reading characters *)

Lemma chr_nonneg a : 0 <= chr a.
Proof. unfold chr. lia. Qed.

Lemma chr_not_EOF a : (chr a =? EOF) = false.
Proof. pose proof (chr_nonneg a). unfold EOF. lia. Qed.

Lemma at_text_next s c t : at_text s (c :: t) -> at_text (next_char s) t.
Proof.
  intros [_ Hsrc]. unfold next_char. rewrite Hsrc.
  destruct t as [|c' r]; simpl.
  - done.
  - rewrite chr_not_EOF. by destruct (ch s =? NL).
Qed.

Lemma at_text_iter s t1 t2 :
  at_text s (t1 ++ t2) -> at_text (Nat.iter (List.length t1) next_char s) t2.
Proof.
  revert s. induction t1 as [|c t1 IH]; intros s H; [done|].
  change (List.length (c :: t1)) with (S (List.length t1)).
  rewrite Nat.iter_succ_r. apply IH. by apply (at_text_next s c).
Qed.

Lemma count_newlines_app l1 l2 :
  count_newlines (l1 ++ l2) = count_newlines l1 + count_newlines l2.
Proof. induction l1; simpl; lia. Qed.

Lemma reading_init input : reading input 0 (init_scanner input).
Proof.
  unfold reading, init_scanner, next_char. destruct input as [|c r]; simpl.
  - auto.
  - rewrite chr_not_EOF. simpl. rewrite drop_0. auto.
Qed.

Lemma reading_step input k s :
  reading input k s -> reading input (S k) (next_char s).
Proof.
  unfold reading. destruct (input !! k) as [c|] eqn:Hk.
  - intros (Hch & Hsrc & Hline).
    destruct (input !! S k) as [c'|] eqn:Hk'.
    + unfold next_char. rewrite Hsrc.
      rewrite (drop_S _ c' (S k)) by done. simpl. rewrite chr_not_EOF.
      rewrite Hch.
      rewrite (take_S_r _ _ c) by done. rewrite count_newlines_app. simpl.
      unfold is_newline.
      destruct (chr c =? NL); simpl; repeat split; try lia.
    + unfold next_char. rewrite Hsrc.
      apply lookup_ge_None in Hk'. rewrite drop_ge by lia. simpl.
      apply lookup_lt_Some in Hk.
      replace (List.length input - 1)%nat with k by lia. auto.
  - intros (Hch & Hsrc & Hline).
    assert (input !! S k = None) as ->.
    { apply lookup_ge_None in Hk. apply lookup_ge_None. lia. }
    unfold next_char. rewrite Hsrc. simpl. auto.
Qed.

Lemma reading_scan_to input k : reading input k (scan_to k input).
Proof.
  induction k; simpl.
  - apply reading_init.
  - apply reading_step, IHk.
Qed.

(** Reading the character after a newline starts a line. *)
Lemma next_char_after_newline s c r :
  ch s = NL -> src_file s = c :: r ->
  line (position (next_char s)) = line (position s) + 1
  /\ column_number (next_char s) = 1.
Proof.
  intros Hch Hsrc. unfold next_char. rewrite Hsrc, Hch. simpl.
  rewrite chr_not_EOF. simpl. auto.
Qed.

(** Reading any other character stays on the line and moves on a column;
    reading [EOF] changes neither. *)
Lemma next_char_same_line s c r :
  ch s <> NL -> src_file s = c :: r ->
  line (position (next_char s)) = line (position s)
  /\ column_number (next_char s) = column_number s + 1.
Proof.
  intros Hch Hsrc. unfold next_char. rewrite Hsrc. simpl.
  rewrite chr_not_EOF. destruct (ch s =? NL) eqn:E; [lia|]. simpl. auto.
Qed.

Lemma next_char_at_EOF s :
  src_file s = [] ->
  position (next_char s) = position s
  /\ column_number (next_char s) = column_number s /\ ch (next_char s) = EOF.
Proof. intros Hsrc. unfold next_char. rewrite Hsrc. simpl. auto. Qed.

(** C7, as amended.  After any number of calls of [next_char], the line
    number is one plus the number of newlines among the characters that
    precede the lookahead; a newline is counted, and the column set to one,
    when the character after it is read, so at end of file the count covers
    all of the input but its last character. *)
Theorem C7_line_counts_newlines_before_lookahead :
  forall (input : list ascii) (k : nat),
    line (position (scan_to k input))
    = 1 + count_newlines (take (Nat.min k (List.length input - 1)) input)
    /\ (forall c c' : ascii,
           input !! k = Some c -> is_newline c = true ->
           input !! S k = Some c' ->
           line (position (scan_to (S k) input))
           = line (position (scan_to k input)) + 1
           /\ column_number (scan_to (S k) input) = 1)
    /\ (List.length input <= k ->
        ch (scan_to k input) = EOF
        /\ position (scan_to (S k) input) = position (scan_to k input))%nat.
Proof.
  intros input k. pose proof (reading_scan_to input k) as H.
  unfold reading in H. split; [|split].
  - destruct (input !! k) as [c|] eqn:Hk.
    + destruct H as (_ & _ & ->). apply lookup_lt_Some in Hk.
      rewrite Nat.min_l by lia. done.
    + destruct H as (_ & _ & ->). apply lookup_ge_None in Hk.
      rewrite Nat.min_r by lia. done.
  - intros c c' Hk Hnl Hk'. rewrite Hk in H. destruct H as (Hch & Hsrc & _).
    change (scan_to (S k) input) with (next_char (scan_to k input)).
    apply (next_char_after_newline _ c' (drop (S (S k)) input)).
    + rewrite Hch. unfold is_newline in Hnl. lia.
    + rewrite Hsrc. by apply drop_S.
  - intros Hlen. apply lookup_ge_None in Hlen. rewrite Hlen in H.
    destruct H as (Hch & Hsrc & _). split; [done|].
    change (scan_to (S k) input) with (next_char (scan_to k input)).
    by apply next_char_at_EOF.
Qed.

Lemma C7_line_counts_newlines_before_lookahead_witness :
  let input := src "ab" ++ ["010"%char] ++ src "c" in
  line (position (scan_to 3 input)) = line (position (scan_to 2 input)) + 1
  /\ column_number (scan_to 3 input) = 1.
Proof.
  intros input.
  apply (proj1 (proj2 (C7_line_counts_newlines_before_lookahead input 2))
               "010"%char "c"%char); reflexivity.
Defined.

(** C7, as stated, fails on an input that ends with a newline: the whole
    input has been consumed and the line number is still one. *)
Lemma C7_counterexample :
  let input := ["010"%char] in
  let s := scan_to 1 input in
  src_file s = [] /\ ch s = EOF
  /\ count_newlines input = 1
  /\ line (position s) = 1
  /\ line (position s) <> 1 + count_newlines input.
Proof. vm_compute. repeat split; discriminate. Qed.

(** ** Scanner: numbers *)

Lemma next_char_position s :
  ch s <> NL -> position (next_char s) = position s.
Proof.
  intros H. unfold next_char. destruct (fgetc (src_file s)) as [c rest].
  destruct (c =? EOF); [done|].
  destruct (ch s =? NL) eqn:E; [lia|]. simpl. by destruct (position s).
Qed.

Lemma is_digit_range c : is_digit c -> 0 <= digit_value c <= 9.
Proof.
  unfold is_digit, isdigit, digit_value. change (chr "0") with 48. lia.
Qed.

Lemma is_digit_not_newline c : is_digit c -> chr c <> NL.
Proof. unfold is_digit, isdigit, NL. lia. Qed.

Lemma no_digit_ahead_at s rest :
  no_digit_ahead rest -> at_text s rest -> isdigit (ch s) = false.
Proof.
  destruct rest as [|c r]; simpl.
  - intros _ [-> _]. done.
  - intros H [-> _]. done.
Qed.

(** The loop of [process_number] follows [accumulate] digit by digit. *)
Lemma process_number_loop_spec digits :
  forall (rest : list ascii) (s : Scanner) (v : Z) (fuel : nat),
    Forall is_digit digits -> no_digit_ahead rest ->
    at_text s (digits ++ rest) ->
    (List.length digits < fuel)%nat ->
    process_number_loop fuel v s
    = match accumulate v digits with
      | Some n => Ok (n, Nat.iter (List.length digits) next_char s)
      | None => Fatal (position s) "number too large"
      end.
Proof.
  induction digits as [|c digits IH]; intros rest s v fuel Hd Hrest Hat Hfuel.
  - destruct fuel as [|fuel]; [simpl in Hfuel; lia|]. simpl.
    by rewrite (no_digit_ahead_at s rest).
  - destruct fuel as [|fuel]; [simpl in Hfuel; lia|].
    apply Forall_cons in Hd as [Hc Hd].
    pose proof (is_digit_range c Hc) as Hrange.
    assert (ch s = chr c) as Hch by apply Hat.
    cbn [process_number_loop accumulate]. rewrite Hch, Hc.
    fold (digit_value c).
    rewrite Z.quot_div_nonneg by (unfold INT_MAX; lia).
    destruct (v <=? (INT_MAX - digit_value c) / 10); [|done].
    rewrite (IH rest (next_char s) _ fuel); try done.
    + rewrite next_char_position
        by (rewrite Hch; by apply is_digit_not_newline).
      change (List.length (c :: digits)) with (S (List.length digits)).
      by rewrite Nat.iter_succ_r.
    + by apply (at_text_next s c).
    + simpl in Hfuel. lia.
Qed.

Lemma decimal_value_ge digits :
  forall v, 0 <= v -> Forall is_digit digits -> v <= decimal_value v digits.
Proof.
  induction digits as [|c digits IH]; intros v Hv Hd; simpl; [lia|].
  apply Forall_cons in Hd as [Hc Hd]. apply is_digit_range in Hc.
  etrans; [|apply IH]; [lia|lia|done].
Qed.

(** Accepting digit by digit is accepting what does not exceed INT_MAX. *)
Lemma accumulate_decimal digits :
  forall v, 0 <= v <= INT_MAX -> Forall is_digit digits ->
    accumulate v digits
    = if decimal_value v digits <=? INT_MAX
      then Some (decimal_value v digits) else None.
Proof.
  induction digits as [|c digits IH]; intros v Hv Hd; simpl.
  - destruct (v <=? INT_MAX) eqn:E; [done|lia].
  - apply Forall_cons in Hd as [Hc Hd].
    pose proof (is_digit_range c Hc) as Hrange.
    assert (v <= (INT_MAX - digit_value c) / 10
            <-> 10 * v + digit_value c <= INT_MAX) as Hiff.
    { unfold INT_MAX in *.
      pose proof (Z.div_mod (2147483647 - digit_value c) 10 ltac:(lia)).
      pose proof (Z.mod_pos_bound (2147483647 - digit_value c) 10 ltac:(lia)).
      lia. }
    destruct (v <=? (INT_MAX - digit_value c) / 10) eqn:E.
    + apply IH; [lia|done].
    + pose proof (decimal_value_ge digits (10 * v + digit_value c)
                                   ltac:(lia) Hd).
      destruct (decimal_value (10 * v + digit_value c) digits <=? INT_MAX)
        eqn:E'; [lia|done].
Qed.

(** C6.  On a digit sequence, [process_number] accepts the next digit [d]
    exactly when [v <= (INT_MAX - d) / 10] and otherwise ends with the
    message [number too large]; what it accepts is the number the digits
    denote, which lies between 0 and INT_MAX; so 2147483647 is accepted and
    2147483648 is not. *)
Theorem C6_number_too_large :
  (forall (digits rest : list ascii) (s : Scanner) (token : Token)
          (fuel : nat),
      Forall is_digit digits -> no_digit_ahead rest ->
      at_text s (digits ++ rest) ->
      (List.length digits < fuel)%nat ->
      process_number fuel token s
      = match accumulate 0 digits with
        | Some n => Ok (number_token token n,
                        Nat.iter (List.length digits) next_char s)
        | None => Fatal (position s) "number too large"
        end
      /\ (forall n, accumulate 0 digits = Some n ->
                    0 <= n <= INT_MAX /\ n = decimal_value 0 digits)
      /\ (accumulate 0 digits = None <-> INT_MAX < decimal_value 0 digits))
  /\ (exists s', scan1 "2147483647"
                 = Ok (number_token empty_token 2147483647, s'))
  /\ scan1 "2147483648" = Fatal {| line := 1; col := 1 |} "number too large".
Proof.
  split; [|split; [eexists; vm_compute; reflexivity | vm_compute; reflexivity]].
  intros digits rest s token fuel Hd Hrest Hat Hfuel.
  pose proof (accumulate_decimal digits 0 ltac:(unfold INT_MAX; lia) Hd) as Hacc.
  pose proof (decimal_value_ge digits 0 ltac:(lia) Hd) as Hge.
  split; [|split].
  - unfold process_number.
    rewrite (process_number_loop_spec digits rest s 0 fuel) by done.
    by destruct (accumulate 0 digits).
  - intros n Hn. rewrite Hn in Hacc.
    destruct (decimal_value 0 digits <=? INT_MAX) eqn:E; [|done].
    inversion Hacc; subst. lia.
  - rewrite Hacc.
    destruct (decimal_value 0 digits <=? INT_MAX) eqn:E; split; try done; lia.
Qed.

Lemma C6_number_too_large_witness :
  let s := init_scanner (src "1234;") in
  process_number 5 empty_token s
  = Ok (number_token empty_token 1234, Nat.iter 4 next_char s).
Proof.
  intros s.
  pose proof (proj1 (proj1 C6_number_too_large (src "1234") (src ";") s
                       empty_token 5%nat
                       ltac:(repeat constructor) ltac:(reflexivity)
                       ltac:(vm_compute; split; reflexivity)
                       ltac:(simpl; lia))) as H.
  exact H.
Defined.

(** ** Scanner: strings *)

Lemma at_text_set_col s n t : at_text s t -> at_text (set_col s n) t.
Proof. by destruct t. Qed.


Lemma process_string_loop_plain fuel str s :
  isprint (ch s) = true -> ch s <> DQUOTE -> ch s <> BACKSLASH ->
  process_string_loop (S fuel) str s
  = process_string_loop fuel (str ++ [ch s]) (next_char s).
Proof.
  intros Hp Hd Hb. cbn [process_string_loop]. rewrite Hp.
  assert (ch s <> EOF) by (unfold isprint, EOF in *; lia).
  destruct (ch s =? DQUOTE) eqn:E1; [lia|].
  destruct (ch s =? EOF) eqn:E2; [lia|].
  destruct (ch s =? BACKSLASH) eqn:E3; [lia|]. reflexivity.
Qed.






(** ** Scanner: comments *)

Lemma runs_to_refl stack s : runs_to stack s stack s.
Proof. by exists 0%nat. Qed.

Lemma runs_to_trans a s b s' c s'' :
  runs_to a s b s' -> runs_to b s' c s'' -> runs_to a s c s''.
Proof.
  intros [n1 H1] [n2 H2]. exists (n1 + n2)%nat. intros k.
  rewrite <- Nat.add_assoc, H1. apply H2.
Qed.

Lemma runs_to_fatal a s b s' p m :
  runs_to a s b s' -> runs_fatal b s' p m -> runs_fatal a s p m.
Proof.
  intros [n1 H1] [n2 H2]. exists (n1 + n2)%nat. intros k.
  rewrite <- Nat.add_assoc, H1. apply H2.
Qed.

(** The single steps of the stack machine. *)
Lemma step_plain stack top s :
  ch s <> EOF -> ch s <> RBRACE -> ch s <> LBRACE ->
  runs_to (top :: stack) s (top :: stack) (next_char s).
Proof.
  intros H1 H2 H3. exists 1%nat. intros k. simpl.
  destruct (ch s =? EOF) eqn:E1; [lia|].
  destruct (ch s =? RBRACE) eqn:E2; [lia|].
  destruct (ch s =? LBRACE) eqn:E3; [lia|]. done.
Qed.

Lemma step_open stack top s :
  ch s = LBRACE ->
  runs_to (top :: stack) s (here s :: top :: stack) (next_char s).
Proof. intros H. exists 1%nat. intros k. simpl. by rewrite H. Qed.

Lemma step_close stack top top' s :
  ch s = RBRACE ->
  runs_to (top :: top' :: stack) s (top' :: stack) (next_char s).
Proof. intros H. exists 1%nat. intros k. simpl. by rewrite H. Qed.

Lemma step_eof stack top s :
  ch s = EOF -> runs_fatal (top :: stack) s top "comment not closed".
Proof. intros H. exists 0%nat. intros k. simpl. by rewrite H. Qed.

(** The recursion of [skip_comment] is the stack machine: the loop of a
    comment neither pushes nor pops on balance, and the comment itself pops
    what it pushed. *)
Lemma skip_comment_is_stack_machine fuel :
  (forall s top below,
      (forall s', skip_comment_loop fuel s = Ok s' ->
                  (ch s' = RBRACE \/ ch s' = EOF)
                  /\ runs_to (top :: below) s (top :: below) s')
      /\ (forall p m, skip_comment_loop fuel s = Fatal p m ->
                      runs_fatal (top :: below) s p m)
      /\ skip_comment_loop fuel s <> Aborted
      /\ skip_comment_loop fuel s <> Undefined)
  /\ (forall s below,
         (forall s', skip_comment fuel s = Ok s' ->
                     ch s' = RBRACE
                     /\ runs_to (here s :: below) (next_char s)
                                (here s :: below) s')
         /\ (forall p m, skip_comment fuel s = Fatal p m ->
                         runs_fatal (here s :: below) (next_char s) p m)
         /\ skip_comment fuel s <> Aborted
         /\ skip_comment fuel s <> Undefined).
Proof.
  induction fuel as [|fuel [IHloop IHskip]].
  { split; intros; simpl; (split; [|split; [|split]]); intros; discriminate. }
  split.
  - intros s top below. cbn [skip_comment_loop].
    destruct (ch s =? RBRACE) eqn:E1; simpl.
    { split; [|split; [|split]]; try done.
      intros s' [= <-]. split; [left; lia | apply runs_to_refl]. }
    destruct (ch s =? EOF) eqn:E2; simpl.
    { split; [|split; [|split]]; try done.
      intros s' [= <-]. split; [right; lia | apply runs_to_refl]. }
    destruct (ch s =? LBRACE) eqn:E3.
    + destruct (IHskip s (top :: below)) as (HOk & HFatal & HA & HU).
      destruct (skip_comment fuel s) as [s1| p1 m1 | | |] eqn:Es; simpl;
        try done.
      * destruct (HOk s1 eq_refl) as [Hch1 Hrun1].
        destruct (IHloop (next_char s1) top below) as (LOk & LFatal & LA & LU).
        assert (runs_to (top :: below) s (top :: below) (next_char s1)) as Hrun.
        { eapply runs_to_trans; [apply step_open; lia|].
          eapply runs_to_trans; [apply Hrun1|]. by apply step_close. }
        split; [|split; [|split]]; try done.
        -- intros s' Hs'. split; [by apply LOk|].
           eapply runs_to_trans; [apply Hrun|]. by apply LOk.
        -- intros p m Hf. eapply runs_to_fatal; [apply Hrun|]. by apply LFatal.
      * split; [|split; [|split]]; try done. intros p m [= <- <-].
        eapply runs_to_fatal; [apply step_open; lia|]. by apply HFatal.
    + simpl. destruct (IHloop (next_char s) top below) as (LOk & LFatal & LA & LU).
      assert (runs_to (top :: below) s (top :: below) (next_char s)) as Hrun.
      { apply step_plain; lia. }
      split; [|split; [|split]]; try done.
      * intros s' Hs'. split; [by apply LOk|].
        eapply runs_to_trans; [apply Hrun|]. by apply LOk.
      * intros p m Hf. eapply runs_to_fatal; [apply Hrun|]. by apply LFatal.
  - intros s below. cbn [skip_comment].
    destruct (IHloop (next_char s) (here s) below) as (LOk & LFatal & LA & LU).
    destruct (skip_comment_loop fuel (next_char s)) as [s1| p1 m1 | | |] eqn:El;
      simpl; try done.
    + destruct (LOk s1 eq_refl) as [Hch1 Hrun1].
      destruct (ch s1 =? EOF) eqn:E.
      * split; [|split; [|split]]; try done. intros p m [= <- <-].
        eapply runs_to_fatal; [apply Hrun1|]. apply step_eof. lia.
      * split; [|split; [|split]]; try done.
        intros s' [= <-]. split; [|done]. destruct Hch1; [done|lia].
Qed.

Lemma remaining_next_char s :
  ch s <> EOF -> S (remaining (next_char s)) = remaining s.
Proof.
  intros H. unfold remaining, next_char.
  destruct (ch s =? EOF) eqn:E; [lia|].
  destruct (src_file s) as [|c r]; simpl; [done|].
  rewrite chr_not_EOF. destruct (ch s =? NL); simpl; by rewrite chr_not_EOF.
Qed.

Lemma remaining_next_char_le s :
  (remaining (next_char s) <= List.length (src_file s))%nat.
Proof.
  unfold remaining, next_char.
  destruct (src_file s) as [|c r]; simpl; [done|].
  rewrite chr_not_EOF. destruct (ch s =? NL); simpl; by rewrite chr_not_EOF.
Qed.

(** [skip_comment] ends, given fuel for the characters that are left. *)
Lemma skip_comment_total fuel :
  (forall s, (2 * remaining s + 1 <= fuel)%nat ->
             skip_comment_loop fuel s <> OutOfFuel
             /\ forall s', skip_comment_loop fuel s = Ok s' ->
                           (remaining s' <= remaining s)%nat)
  /\ (forall s, (2 * List.length (src_file s) + 2 <= fuel)%nat ->
                skip_comment fuel s <> OutOfFuel
                /\ forall s', skip_comment fuel s = Ok s' ->
                              ch s' <> EOF
                              /\ (remaining s' <= List.length (src_file s))%nat).
Proof.
  induction fuel as [|fuel [IHloop IHskip]]; [split; intros; lia|].
  split.
  - intros s Hfuel. cbn [skip_comment_loop].
    destruct (ch s =? RBRACE) eqn:E1; simpl.
    { split; [done|]. by intros s' [= <-]. }
    destruct (ch s =? EOF) eqn:E2; simpl.
    { split; [done|]. by intros s' [= <-]. }
    pose proof (remaining_next_char s ltac:(lia)) as Hrem.
    destruct (ch s =? LBRACE) eqn:E3.
    + assert (remaining s = S (List.length (src_file s))) as Hlen.
      { unfold remaining. by rewrite E2. }
      destruct (IHskip s ltac:(lia)) as [Hnot HOk].
      destruct (skip_comment fuel s) as [s1| | | |] eqn:Es; simpl; try done.
      destruct (HOk s1 eq_refl) as [Hch1 Hrem1].
      pose proof (remaining_next_char s1 Hch1) as Hrem1'.
      destruct (IHloop (next_char s1) ltac:(lia)) as [Lnot LOk].
      split; [done|]. intros s' Hs'. apply LOk in Hs'. lia.
    + simpl. destruct (IHloop (next_char s) ltac:(lia)) as [Lnot LOk].
      split; [done|]. intros s' Hs'. apply LOk in Hs'. lia.
  - intros s Hfuel. cbn [skip_comment].
    pose proof (remaining_next_char_le s) as Hle.
    destruct (IHloop (next_char s) ltac:(lia)) as [Lnot LOk].
    destruct (skip_comment_loop fuel (next_char s)) as [s1| | | |] eqn:El;
      simpl; try done.
    destruct (ch s1 =? EOF) eqn:E; [done|].
    split; [done|]. intros s' [= <-]. split; [lia|].
    specialize (LOk s1 eq_refl). lia.
Qed.

Lemma open_comments_fatal_message n :
  forall stack s pos msg,
    open_comments n stack s = Fatal pos msg -> msg = "comment not closed".
Proof.
  induction n as [|n IH]; intros stack s pos msg; simpl; [done|].
  destruct stack as [|top below]; [done|].
  destruct (ch s =? EOF); [by intros [= _ <-]|].
  destruct (ch s =? RBRACE).
  { destruct below; [done|]. apply IH. }
  destruct (ch s =? LBRACE); apply IH.
Qed.

(** C4, as amended.  [skip_comment] ends on every input and does what the
    stack of open comments does: when end of file is reached inside a
    comment it aborts with the message [comment not closed], and the place
    it reports is that of the opening brace of the innermost comment still
    open.  That is the outermost brace when every comment inside it was
    closed, as in a nesting of three whose outermost close is missing; when
    an inner comment is open too, it is the brace of the innermost one. *)
Theorem C4_comment_not_closed_at_innermost_open :
  (forall s : Scanner,
      skip_comment (scan_fuel s) s <> OutOfFuel
      /\ (exists n, open_comments n [here s] (next_char s)
                    = skip_comment (scan_fuel s) s)
      /\ (forall pos msg, skip_comment (scan_fuel s) s = Fatal pos msg ->
                          msg = "comment not closed"))
  /\ scan1 "{ a { b { c } }"
     = Fatal {| line := 1; col := 1 |} "comment not closed"
  /\ scan1 "{ a { b { c }"
     = Fatal {| line := 1; col := 5 |} "comment not closed".
Proof.
  split; [|split; by vm_compute].
  intros s.
  destruct (skip_comment_total (scan_fuel s)) as [_ Htotal].
  destruct (Htotal s ltac:(unfold scan_fuel; lia)) as [Hnot _].
  destruct (proj2 (skip_comment_is_stack_machine (scan_fuel s)) s [])
    as (HOk & HFatal & HA & HU).
  assert (exists n, open_comments n [here s] (next_char s)
                    = skip_comment (scan_fuel s) s) as [n Hn].
  { destruct (skip_comment (scan_fuel s) s) as [s'|pos msg| | |] eqn:E;
      try done.
    - destruct (HOk s' eq_refl) as [Hch [n Hn]]. exists (n + 1)%nat.
      rewrite Hn. simpl. rewrite Hch. done.
    - destruct (HFatal pos msg eq_refl) as [n Hn]. by exists (n + 1)%nat. }
  split; [done|]. split; [by exists n|].
  intros pos msg E. rewrite E in Hn.
  by apply open_comments_fatal_message in Hn.
Qed.

(** C4, as stated, fails when an inner comment is still open at end of
    file: the place reported is the inner brace, not the outermost one. *)
Lemma C4_counterexample :
  let s := init_scanner (src "{ {") in
  ch s = LBRACE
  /\ here s = {| line := 1; col := 1 |}
  /\ skip_comment (scan_fuel s) s
     = Fatal {| line := 1; col := 3 |} "comment not closed"
  /\ {| line := 1; col := 3 |} <> here s.
Proof. by vm_compute. Qed.

(** ** Code emitter: stack depth *)

Lemma instructions_app l1 l2 :
  instructions (l1 ++ l2) = instructions l1 ++ instructions l2.
Proof. unfold instructions. apply omap_app. Qed.

Lemma final_depth_app l1 l2 d :
  final_depth d (l1 ++ l2) = final_depth (final_depth d l1) l2.
Proof. revert d. induction l1 as [|bc l1 IH]; intros d; simpl; [done|]. apply IH. Qed.

Lemma depths_after_push_app l1 l2 d :
  depths_after_push d (l1 ++ l2)
  = depths_after_push d l1 ++ depths_after_push (final_depth d l1) l2.
Proof.
  revert d. induction l1 as [|bc l1 IH]; intros d; simpl; [done|].
  by rewrite IH.
Qed.

Lemma supremum_app l1 l2 :
  supremum (l1 ++ l2) = Z.max (supremum l1) (supremum l2).
Proof.
  unfold supremum. induction l1 as [|d l1 IH]; simpl.
  - assert (0 <= fold_right Z.max 0 l2); [|lia].
    induction l2; simpl; lia.
  - rewrite IH. lia.
Qed.

Lemma supremum_nonneg l : 0 <= supremum l.
Proof. unfold supremum. induction l; simpl; lia. Qed.

Lemma supremum_upper l d : In d l -> d <= supremum l.
Proof.
  unfold supremum. induction l as [|x l IH]; simpl; [done|].
  intros [->|H]; [lia|]. apply IH in H. lia.
Qed.

Lemma supremum_attained l :
  (exists d, In d l /\ 0 <= d) -> In (supremum l) l.
Proof.
  unfold supremum. induction l as [|x l IH]; simpl.
  - by intros (d & [] & _).
  - intros (d & [->|Hd] & H0).
    + destruct (Z.max_spec d (fold_right Z.max 0 l)) as [[Hlt ->]|[Hle ->]];
        [|by left].
      right. apply IH.
      destruct l as [|y l]; simpl in *; [lia|].
      destruct (Z.max_spec y (fold_right Z.max 0 l)) as [[? E]|[? E]].
      * (* the supremum of [l] is attained in [l] *)
        clear IH. exists (fold_right Z.max 0 l). split; [|lia].
        right. assert (0 < fold_right Z.max 0 l) as Hpos by lia.
        clear -Hpos. induction l as [|z l IH]; simpl in *; [lia|].
        destruct (Z.max_spec z (fold_right Z.max 0 l)) as [[? E]|[? E]];
          rewrite E in *; [right; by apply IH | by left].
      * exists y. split; [by left|lia].
    + destruct (Z.max_spec x (fold_right Z.max 0 l)) as [[Hlt ->]|[Hle ->]];
        [|by left].
      right. apply IH. by exists d.
Qed.

Lemma same_bodies_refl g : same_bodies g g.
Proof. by unfold same_bodies. Qed.

Lemma same_bodies_trans g1 g2 g3 :
  same_bodies g1 g2 -> same_bodies g2 g3 -> same_bodies g1 g3.
Proof.
  unfold same_bodies. intros (-> & -> & -> & -> & ?) (-> & -> & -> & -> & ?).
  repeat split; lia.
Qed.

(** The three steps every emission is made of. *)
Lemma ensure_space_effect n g :
  view (ensure_space n g) = view g
  /\ stack_depth (ensure_space n g) = stack_depth g
  /\ max_stack_depth (ensure_space n g) = max_stack_depth g
  /\ ip (ensure_space n g) = ip g
  /\ same_bodies g (ensure_space n g).
Proof.
  unfold ensure_space. destruct (code_size g <? ip g + n).
  - unfold view, same_bodies. simpl. rewrite lookup_insert_eq.
    repeat split; try done; try lia.
  - repeat split; try done; apply same_bodies_refl.
Qed.

Lemma emit_effect t d g g' :
  emit t d g = Ok g' ->
  view g' = view g ++ [ {| code_type := t; code_data := d |} ]
  /\ stack_depth g' = stack_depth g
  /\ max_stack_depth g' = max_stack_depth g
  /\ ip g' = ip g + 1 /\ 0 <= ip g
  /\ same_bodies g g'.
Proof.
  unfold emit, view. destruct (bufs g !! code g) as [buf|] eqn:E; [|done].
  destruct ((ip g =? Z.of_nat (List.length buf)) && (ip g <? code_size g))
    eqn:Hc; [|done].
  intros [= <-]. simpl. rewrite lookup_insert_eq. simpl.
  apply andb_true_iff in Hc as [Hc1 Hc2]. apply Z.eqb_eq in Hc1.
  repeat split; try done; try lia.
Qed.

Lemma adjust_stack_effect bc g :
  view (adjust_stack bc g) = view g
  /\ stack_depth (adjust_stack bc g) = stack_depth g + push bc - pop bc
  /\ max_stack_depth (adjust_stack bc g)
     = Z.max (max_stack_depth g) (stack_depth g + push bc)
  /\ ip (adjust_stack bc g) = ip g
  /\ same_bodies g (adjust_stack bc g).
Proof.
  unfold adjust_stack, view, same_bodies. simpl.
  repeat split; try done.
  destruct (max_stack_depth g <? stack_depth g + push bc) eqn:E; lia.
Qed.

Lemma get_label_effect g :
  view (snd (get_label g)) = view g
  /\ stack_depth (snd (get_label g)) = stack_depth g
  /\ max_stack_depth (snd (get_label g)) = max_stack_depth g
  /\ ip (snd (get_label g)) = ip g
  /\ same_bodies g (snd (get_label g)).
Proof. unfold same_bodies. by repeat split. Qed.

(** The effects that are pending are applied in the order of emission. *)
Lemma tracked_ensure_space p n g :
  tracked_but p g -> tracked_but p (ensure_space n g).
Proof.
  destruct (ensure_space_effect n g) as (Hv & Hs & Hm & _).
  intros (a & H1 & H2 & H3). exists a. by rewrite Hv, Hs, Hm.
Qed.

Lemma tracked_emit_instruction p q opcode g g' :
  tracked_but p g -> emit_instruction opcode g = Ok g' ->
  q = p ++ [instruction_set opcode] -> tracked_but q g'.
Proof.
  intros (a & H1 & H2 & H3) He ->.
  destruct (emit_effect _ _ _ _ He) as (Hv & Hs & Hm & _).
  exists a. rewrite Hv, Hs, Hm, instructions_app, H1.
  split; [|done]. by rewrite <- app_assoc.
Qed.

Lemma tracked_emit_operand p t d g g' :
  tracked_but p g -> emit t d g = Ok g' ->
  item_instruction {| code_type := t; code_data := d |} = None ->
  tracked_but p g'.
Proof.
  intros (a & H1 & H2 & H3) He Hn.
  destruct (emit_effect _ _ _ _ He) as (Hv & Hs & Hm & _).
  assert (instructions [ {| code_type := t; code_data := d |} ] = []) as E.
  { unfold instructions. simpl. by rewrite Hn. }
  exists a. by rewrite Hv, Hs, Hm, instructions_app, E, app_nil_r.
Qed.

Lemma tracked_adjust_stack p bc g :
  tracked_but (bc :: p) g -> tracked_but p (adjust_stack bc g).
Proof.
  intros (a & H1 & H2 & H3).
  destruct (adjust_stack_effect bc g) as (Hv & Hs & Hm & _).
  exists (a ++ [bc]). rewrite Hv, Hs, Hm, H1, H2, H3.
  rewrite <- app_assoc, final_depth_app, depths_after_push_app, supremum_app.
  split; [done|]. split; [done|].
  pose proof (supremum_nonneg (depths_after_push 0 a)).
  unfold supremum at 3. simpl. lia.
Qed.

Lemma tracked_get_label p g :
  tracked_but p g -> tracked_but p (snd (get_label g)).
Proof. intros (a & H). by exists a. Qed.

Ltac bind_inv H :=
  repeat match type of H with
         | bind ?m ?k = Ok _ =>
           let g := fresh "g" in
           let E := fresh "E" in
           apply bind_Ok in H as (g & E & H)
         end.

(** Carry what is tracked along the emissions that are in the context, then
    through the stack adjustments of the goal. *)
Ltac track :=
  repeat match goal with
         | T : tracked_but ?p ?g,
           E : emit_instruction ?op (ensure_space ?n ?g) = Ok ?g' |- _ =>
           apply (tracked_ensure_space p n g) in T
         | T : tracked_but ?p ?g,
           E : emit_instruction ?op ?g = Ok ?g' |- _ =>
           apply (fun T => tracked_emit_instruction p _ op g g' T E eq_refl)
             in T; simpl app in T; clear E
         | T : tracked_but ?p ?g, E : emit ?t ?d (ensure_space ?n ?g) = Ok ?g'
           |- _ =>
           apply (tracked_ensure_space p n g) in T
         | T : tracked_but ?p ?g, E : emit ?t ?d ?g = Ok ?g' |- _ =>
           apply (fun T => tracked_emit_operand p t d g g' T E eq_refl) in T;
           clear E
         end;
  repeat apply tracked_adjust_stack;
  try assumption.

Lemma gen_1_tracked opcode g g' :
  tracked g -> gen_1 opcode g = Ok g' -> tracked g'.
Proof.
  unfold tracked, gen_1. intros T H. bind_inv H. injection H as <-. track.
Qed.

Lemma gen_2_tracked opcode operand g g' :
  tracked g -> gen_2 opcode operand g = Ok g' -> tracked g'.
Proof.
  unfold tracked, gen_2. intros T H. bind_inv H. injection H as <-. track.
Qed.

Lemma gen_label_tracked label g g' :
  tracked g -> gen_label label g = Ok g' -> tracked g'.
Proof. unfold tracked, gen_label. intros T H. track. Qed.

Lemma gen_2_label_tracked opcode label g g' :
  tracked g -> gen_2_label opcode label g = Ok g' -> tracked g'.
Proof.
  unfold tracked, gen_2_label. intros T H. bind_inv H. injection H as <-. track.
Qed.

Lemma gen_newarray_tracked atype g g' :
  tracked g -> gen_newarray atype g = Ok g' -> tracked g'.
Proof.
  unfold tracked, gen_newarray. intros T H. bind_inv H. injection H as <-.
  track.
Qed.

Lemma gen_call_tracked ps fname p g g' :
  tracked g -> gen_call ps fname p g = Ok g' -> tracked g'.
Proof.
  unfold tracked, gen_call. intros T H. bind_inv H.
  destruct p as [a|]; [|done]. destruct (class_name g0); [|done].
  destruct (ps !! a); [|done]. bind_inv H. injection H as <-. track.
Qed.

Lemma gen_cmp_tracked opcode g g' :
  tracked g -> gen_cmp opcode g = Ok g' -> tracked g'.
Proof.
  unfold gen_cmp. intros T H.
  destruct (get_label g) as [l1 g1] eqn:E1.
  destruct (get_label g1) as [l2 g2] eqn:E2.
  assert (tracked g2) as T2.
  { replace g2 with (snd (get_label g1)) by (by rewrite E2).
    apply tracked_get_label.
    replace g1 with (snd (get_label g)) by (by rewrite E1).
    by apply tracked_get_label. }
  bind_inv H.
  apply (gen_2_label_tracked _ _ _ _ T2) in E.
  apply (gen_2_tracked _ _ _ _ E) in E0.
  apply (gen_2_label_tracked _ _ _ _ E0) in E3.
  apply (gen_label_tracked _ _ _ E3) in E4.
  apply (gen_2_tracked _ _ _ _ E4) in E5.
  by apply (gen_label_tracked _ _ _ E5) in H.
Qed.

Lemma gen_print_tracked type g g' :
  tracked g -> gen_print type g = Ok g' -> tracked g'.
Proof.
  unfold tracked, gen_print. intros T H. cbv zeta in H. bind_inv H.
  injection H as <-.
  match type of E3 with
  | (if ?c then _ else _) = _ => destruct c
  end.
  { track. }
  match type of E3 with
  | (if ?c then _ else _) = _ => destruct c; [|done]
  end.
  track.
Qed.

Lemma gen_print_string_tracked str g g' :
  tracked g -> gen_print_string str g = Ok g' -> tracked g'.
Proof.
  unfold tracked, gen_print_string. intros T H. bind_inv H.
  injection H as <-. track.
Qed.

Lemma gen_read_tracked type g g' :
  tracked g -> gen_read type g = Ok g' -> tracked g'.
Proof.
  unfold tracked, gen_read. intros T H. bind_inv H. injection H as <-.
  destruct (type =? TYPE_BOOLEAN).
  { destruct (ref_read_boolean g0); [|done]. track. }
  destruct (type =? TYPE_INTEGER); [|done].
  destruct (ref_read_integer g0); [|done]. track.
Qed.

(** ** Code emitter: what emission leaves alone *)

Lemma ensure_space_same g0 n g :
  same_bodies g0 g -> same_bodies g0 (ensure_space n g).
Proof.
  intros H. eapply same_bodies_trans; [apply H|]. apply ensure_space_effect.
Qed.

Lemma emit_same g0 t d g g' :
  same_bodies g0 g -> emit t d g = Ok g' -> same_bodies g0 g'.
Proof.
  intros H E. eapply same_bodies_trans; [apply H|].
  by apply emit_effect in E as (_ & _ & _ & _ & _ & E).
Qed.

Lemma adjust_stack_same g0 bc g :
  same_bodies g0 g -> same_bodies g0 (adjust_stack bc g).
Proof.
  intros H. eapply same_bodies_trans; [apply H|]. apply adjust_stack_effect.
Qed.

Lemma get_label_same g l g' : get_label g = (l, g') -> same_bodies g g'.
Proof. intros [= _ <-]. apply (get_label_effect g). Qed.

Ltac frame g0 :=
  let S := fresh "S" in
  pose proof (same_bodies_refl g0) as S;
  repeat match goal with
         | S : same_bodies g0 ?g,
           E : emit_instruction ?op (ensure_space ?n ?g) = Ok ?g' |- _ =>
           apply (ensure_space_same g0 n g) in S
         | S : same_bodies g0 ?g, E : emit ?t ?d (ensure_space ?n ?g) = Ok ?g'
           |- _ =>
           apply (ensure_space_same g0 n g) in S
         | S : same_bodies g0 ?g, E : emit_instruction ?op ?g = Ok ?g' |- _ =>
           apply (fun S => emit_same g0 _ _ g g' S E) in S; clear E
         | S : same_bodies g0 ?g, E : emit ?t ?d ?g = Ok ?g' |- _ =>
           apply (fun S => emit_same g0 t d g g' S E) in S; clear E
         end;
  repeat apply adjust_stack_same;
  try assumption.

Lemma gen_1_same opcode g g' : gen_1 opcode g = Ok g' -> same_bodies g g'.
Proof. unfold gen_1. intros H. bind_inv H. injection H as <-. frame g. Qed.

Lemma gen_2_same opcode operand g g' :
  gen_2 opcode operand g = Ok g' -> same_bodies g g'.
Proof. unfold gen_2. intros H. bind_inv H. injection H as <-. frame g. Qed.

Lemma gen_label_same label g g' : gen_label label g = Ok g' -> same_bodies g g'.
Proof. unfold gen_label. intros H. frame g. Qed.

Lemma gen_2_label_same opcode label g g' :
  gen_2_label opcode label g = Ok g' -> same_bodies g g'.
Proof. unfold gen_2_label. intros H. bind_inv H. injection H as <-. frame g. Qed.

Lemma gen_newarray_same atype g g' :
  gen_newarray atype g = Ok g' -> same_bodies g g'.
Proof. unfold gen_newarray. intros H. bind_inv H. injection H as <-. frame g. Qed.

Lemma gen_call_same ps fname p g g' :
  gen_call ps fname p g = Ok g' -> same_bodies g g'.
Proof.
  unfold gen_call. intros H. bind_inv H.
  destruct p as [a|]; [|done]. destruct (class_name g0); [|done].
  destruct (ps !! a); [|done]. bind_inv H. injection H as <-. frame g.
Qed.

Lemma gen_cmp_same opcode g g' : gen_cmp opcode g = Ok g' -> same_bodies g g'.
Proof.
  unfold gen_cmp. intros H.
  destruct (get_label g) as [l1 g1] eqn:E1.
  destruct (get_label g1) as [l2 g2] eqn:E2.
  apply get_label_same in E1. apply get_label_same in E2.
  bind_inv H.
  apply gen_2_label_same in E. apply gen_2_same in E0.
  apply gen_2_label_same in E3. apply gen_label_same in E4.
  apply gen_2_same in E5. apply gen_label_same in H.
  repeat (eapply same_bodies_trans; [eassumption|]). apply same_bodies_refl.
Qed.

Lemma gen_print_same type g g' : gen_print type g = Ok g' -> same_bodies g g'.
Proof.
  unfold gen_print. intros H. cbv zeta in H. bind_inv H. injection H as <-.
  match type of E3 with
  | (if ?c then _ else _) = _ => destruct c
  end.
  { frame g. }
  match type of E3 with
  | (if ?c then _ else _) = _ => destruct c; [|done]
  end.
  frame g.
Qed.

Lemma gen_print_string_same str g g' :
  gen_print_string str g = Ok g' -> same_bodies g g'.
Proof.
  unfold gen_print_string. intros H. bind_inv H. injection H as <-. frame g.
Qed.

Lemma gen_read_same type g g' : gen_read type g = Ok g' -> same_bodies g g'.
Proof.
  unfold gen_read. intros H. bind_inv H. injection H as <-.
  destruct (type =? TYPE_BOOLEAN).
  { destruct (ref_read_boolean g0); [|done]. frame g. }
  destruct (type =? TYPE_INTEGER); [|done].
  destruct (ref_read_integer g0); [|done]. frame g.
Qed.

(** ** Code emitter: the states it reaches *)

Lemma emitter_state_invariant g :
  emitter_state g -> tracked g /\ (bodies g < cg_next_addr g)%nat.
Proof.
  induction 1 as [|g g' Hg [T Hb] Hstep].
  - split; [|simpl; unfold NULL; lia]. by exists [].
  - assert (forall g g', same_bodies g g' ->
                         (bodies g < cg_next_addr g)%nat ->
                         (bodies g' < cg_next_addr g')%nat) as Hsame.
    { intros ? ? (-> & _ & _ & _ & ?) ?. lia. }
    destruct Hstep as [g|cname g|name p g|fuel w g g' Hc|g
                       |op g g' E|op n g g' E|l g g' E|op l g g' E|a g g' E
                       |ps f p g g' E|op g g' E|t g g' E|s g g' E|t g g' E].
    + split; [by destruct T as (a & ?); exists a|]. simpl. unfold NULL. lia.
    + split; [by destruct T as (a & ?); exists a|]. done.
    + split; [|simpl; lia]. exists []. unfold view. simpl.
      by rewrite lookup_insert_eq.
    + unfold close_subroutine_codegen in Hc.
      destruct (negb (bodies g =? NULL)%nat).
      * apply bind_Ok in Hc as (p & _ & Hc).
        destruct (_ !! bodies g); [|done]. injection Hc as <-.
        split; [by destruct T as (a & ?); exists a|]. simpl. lia.
      * injection Hc as <-.
        split; [by destruct T as (a & ?); exists a|]. simpl. lia.
    + split; [by apply tracked_get_label|]. done.
    + split; [by eapply gen_1_tracked|]. eapply Hsame; [|done].
      by eapply gen_1_same.
    + split; [by eapply gen_2_tracked|]. eapply Hsame; [|done].
      by eapply gen_2_same.
    + split; [by eapply gen_label_tracked|]. eapply Hsame; [|done].
      by eapply gen_label_same.
    + split; [by eapply gen_2_label_tracked|]. eapply Hsame; [|done].
      by eapply gen_2_label_same.
    + split; [by eapply gen_newarray_tracked|]. eapply Hsame; [|done].
      by eapply gen_newarray_same.
    + split; [by eapply gen_call_tracked|]. eapply Hsame; [|done].
      by eapply gen_call_same.
    + split; [by eapply gen_cmp_tracked|]. eapply Hsame; [|done].
      by eapply gen_cmp_same.
    + split; [by eapply gen_print_tracked|]. eapply Hsame; [|done].
      by eapply gen_print_same.
    + split; [by eapply gen_print_string_tracked|]. eapply Hsame; [|done].
      by eapply gen_print_string_same.
    + split; [by eapply gen_read_tracked|]. eapply Hsame; [|done].
      by eapply gen_read_same.
Qed.

Lemma instructions_push_nonneg buf bc :
  In bc (instructions buf) -> 0 <= push bc.
Proof.
  unfold instructions. rewrite <- list_elem_of_In, list_elem_of_omap.
  intros (c & _ & Hc). unfold item_instruction in Hc.
  destruct (_ =? _); [|done]. destruct (code_data c); try done.
  injection Hc as <-. by destruct opcode.
Qed.

Lemma depths_after_push_head l :
  (forall bc, In bc l -> 0 <= push bc) ->
  depths_after_push 0 l <> [] ->
  exists d, In d (depths_after_push 0 l) /\ 0 <= d.
Proof.
  destruct l as [|bc l]; [done|]. intros H _. simpl.
  exists (0 + push bc). split; [by left|]. specialize (H bc (or_introl eq_refl)).
  lia.
Qed.

(** C5.  [adjust_stack] adds the push count to [stack_depth], raises
    [max_stack_depth] to the result when that is larger, and then takes off
    the pop count.  It is applied once for every instruction that is
    emitted, in the order of emission; so in every state of the emitter
    [max_stack_depth] is the supremum of the depths reached right after each
    push, and the body that [close_subroutine_codegen] makes has a
    [max_stack_depth] that is at least 0 and is that supremum, taken over
    the instructions of its code. *)
Theorem C5_max_stack_depth_is_supremum :
  (forall (bc : BC) (g : CodeGen),
      stack_depth (adjust_stack bc g) = stack_depth g + push bc - pop bc
      /\ max_stack_depth (adjust_stack bc g)
         = Z.max (max_stack_depth g) (stack_depth g + push bc))
  /\ (forall g : CodeGen,
         emitter_state g ->
         stack_depth g = final_depth 0 (instructions (view g))
         /\ max_stack_depth g
            = supremum (depths_after_push 0 (instructions (view g))))
  /\ (forall (g g' : CodeGen) (fuel : nat) (varwidth : Z),
         emitter_state g ->
         close_subroutine_codegen fuel varwidth g = Ok g' ->
         exists B : Body,
           body_store g' !! cg_next_addr g = Some B
           /\ body_code g' B = view g
           /\ let trace :=
                  depths_after_push 0 (instructions (body_code g' B)) in
              b_max_stack_depth B = supremum trace
              /\ 0 <= b_max_stack_depth B
              /\ (forall d, In d trace -> d <= b_max_stack_depth B)
              /\ (trace <> [] -> In (b_max_stack_depth B) trace)).
Proof.
  split; [|split].
  - intros bc g.
    by destruct (adjust_stack_effect bc g) as (_ & H1 & H2 & _).
  - intros g Hg. apply emitter_state_invariant in Hg as [(a & H1 & H2 & H3) _].
    rewrite app_nil_r in H1. by rewrite H1.
  - intros g g' fuel w Hg Hc.
    apply emitter_state_invariant in Hg as [(a & H1 & H2 & H3) Hb].
    rewrite app_nil_r in H1.
    set (B := {| b_name := function_name g; b_idprop := cur_idprop g;
                 b_code := code g; b_ip := ip g;
                 b_max_stack_depth := max_stack_depth g;
                 b_variables_width := w; b_next := NULL; b_prev := NULL |}).
    assert (body_store g' !! cg_next_addr g = Some B /\ bufs g' = bufs g)
      as [HB Hbufs].
    { unfold close_subroutine_codegen in Hc. fold B in Hc.
      destruct (negb (bodies g =? NULL)%nat).
      - apply bind_Ok in Hc as (p & _ & Hc).
        destruct (_ !! bodies g); [|done]. injection Hc as <-. simpl.
        split; [|done]. rewrite lookup_insert_ne by lia.
        apply lookup_insert_eq.
      - injection Hc as <-. simpl. split; [|done]. apply lookup_insert_eq. }
    exists B. split; [done|].
    assert (body_code g' B = view g) as Hcode.
    { unfold body_code, view. by rewrite Hbufs. }
    split; [done|]. rewrite Hcode, H1. simpl.
    split; [done|]. rewrite H3.
    split; [apply supremum_nonneg|]. split; [apply supremum_upper|].
    intros Hne. apply supremum_attained.
    apply depths_after_push_head; [|done].
    intros bc Hbc. apply (instructions_push_nonneg (view g)). by rewrite H1.
Qed.

Lemma C5_max_stack_depth_is_supremum_witness :
  let g1 := init_subroutine_codegen "f" NULL initial_codegen in
  let g2 := match gen_2 JVM_LDC 7 g1 with Ok g => g | _ => g1 end in
  let g3 := match gen_1 JVM_IRETURN g2 with Ok g => g | _ => g2 end in
  let g4 := match close_subroutine_codegen 1 0 g3 with Ok g => g | _ => g3 end in
  exists B : Body,
    body_store g4 !! cg_next_addr g3 = Some B
    /\ b_max_stack_depth B
       = supremum (depths_after_push 0 (instructions (body_code g4 B))).
Proof.
  intros g1 g2 g3 g4.
  assert (emitter_state g3) as H3.
  { apply (emitter_after g2).
    - apply (emitter_after g1).
      + apply (emitter_after initial_codegen); constructor.
      + apply (step_gen_2 JVM_LDC 7). by vm_compute.
    - apply (step_gen_1 JVM_IRETURN). by vm_compute. }
  destruct (proj2 (proj2 C5_max_stack_depth_is_supremum) g3 g4 1%nat 0 H3
                  ltac:(by vm_compute)) as (B & HB & _ & Hsup & _).
  exists B. split; [exact HB | exact Hsup].
Defined.

(** ** Hash table: searching *)

Section Chains.
Variable cmp : string -> string -> Z.
Hypothesis cmp_ok : forall a b, cmp a b = 0 <-> a = b.

Lemma search_chain_app k l1 l2 :
  search_chain cmp k (l1 ++ l2)
  = match search_chain cmp k l1 with
    | Some v => Some v
    | None => search_chain cmp k l2
    end.
Proof.
  induction l1 as [|e l1 IH]; simpl; [done|].
  by destruct (cmp k (e_key e) =? 0).
Qed.

Lemma search_chain_None k l :
  search_chain cmp k l = None <-> k ∉ map e_key l.
Proof.
  induction l as [|e l IH]; simpl.
  - split; [|done]. intros _ H. by apply elem_of_nil in H.
  - rewrite not_elem_of_cons, <- IH.
    destruct (cmp k (e_key e) =? 0) eqn:E.
    + apply Z.eqb_eq, cmp_ok in E. split; [done|]. by intros [? _].
    + apply Z.eqb_neq in E. split; [|by intros [_ ?]]. intros H.
      split; [|done]. intros Heq. by apply cmp_ok in Heq.
Qed.

Lemma search_chain_Some k v l :
  NoDup (map e_key l) ->
  search_chain cmp k l = Some v <-> entry k v ∈ l.
Proof.
  induction l as [|e l IH]; simpl; intros Hnd.
  - split; [done|]. intros H. by apply elem_of_nil in H.
  - apply NoDup_cons in Hnd as [Hnotin Hnd]. rewrite elem_of_cons.
    destruct (cmp k (e_key e) =? 0) eqn:E.
    + apply Z.eqb_eq, cmp_ok in E. subst k. split.
      * intros [= <-]. left. by destruct e.
      * intros [<-|Hin]; [done|]. exfalso. apply Hnotin.
        apply list_elem_of_fmap. by exists (entry (e_key e) v).
    + apply Z.eqb_neq in E. rewrite IH by done. split; [by right|].
      intros [<-|Hin]; [|done]. simpl in E. exfalso. apply E.
      by apply cmp_ok.
Qed.
End Chains.

Lemma elem_of_concat {A : Type} (x : A) (ls : list (list A)) :
  x ∈ concat ls <-> exists l, l ∈ ls /\ x ∈ l.
Proof.
  induction ls as [|a ls IH]; simpl.
  - split; [intros H; by apply elem_of_nil in H|].
    intros (l & H & _). by apply elem_of_nil in H.
  - rewrite elem_of_app, IH. split.
    + intros [H|(l & H1 & H2)].
      * exists a. split; [by left|done].
      * exists l. split; [by right|done].
    + intros (l & H1 & H2). apply elem_of_cons in H1 as [->|H1]; [by left|].
      right. by exists l.
Qed.

Lemma elem_of_entries ht e :
  e ∈ entries ht <-> exists i chain, ht_table ht !! i = Some chain /\ e ∈ chain.
Proof.
  unfold entries. rewrite elem_of_concat. split.
  - intros (chain & Hc & He). apply list_elem_of_lookup in Hc as [i Hi].
    by exists i, chain.
  - intros (i & chain & Hi & He). exists chain. split; [|done].
    by apply list_elem_of_lookup_2 in Hi.
Qed.

Lemma bucket_index_range ht k :
  ht_inv ht ->
  0 <= bucket_index ht k < ht_size ht
  /\ (Z.to_nat (bucket_index ht k) < List.length (ht_table ht))%nat.
Proof.
  intros Hinv. destruct (inv_index ht Hinv) as (i & Hi & Hs).
  assert (0 < ht_size ht) as Hpos.
  { rewrite Hs. unfold prime_size.
    assert (i = 4 \/ i = 5 \/ i = 6 \/ 7 <= i <= 30) as Hc by lia.
    destruct Hc as [->|[->|[->|Hc]]]; try done.
    assert (2 ^ 7 <= 2 ^ i) by (apply Z.pow_le_mono_r; lia).
    assert (default 0 (delta !! Z.to_nat i) <= 57); [|lia].
    destruct (delta !! Z.to_nat i) as [d|] eqn:E; simpl; [|lia].
    assert (Forall (fun d => d <= 57) delta) as Hall
        by (unfold delta; repeat constructor; lia).
    eapply Forall_forall in Hall; [done|]. by eapply list_elem_of_lookup_2. }
  pose proof (inv_hash ht Hinv k _ Hpos). unfold bucket_index.
  rewrite (inv_length ht Hinv). split; lia.
Qed.

(** [ht_search] finds what the entries of the table hold for the key. *)
Lemma ht_search_spec ht k :
  ht_inv ht ->
  ht_search ht k = Ok (search_chain (ht_cmp ht) k (entries ht)).
Proof.
  intros Hinv. destruct (bucket_index_range ht k Hinv) as [Hrange Hlt].
  unfold ht_search.
  destruct (ht_table ht !! Z.to_nat (bucket_index ht k)) as [chain|] eqn:E;
    [|apply lookup_ge_None in E; lia].
  destruct (0 <=? bucket_index ht k) eqn:E0; [|lia]. f_equal.
  pose proof (inv_cmp ht Hinv) as Hcmp.
  destruct (search_chain (ht_cmp ht) k chain) as [v|] eqn:Es.
  - symmetry. apply (search_chain_Some _ Hcmp); [apply (inv_nodup ht Hinv)|].
    apply elem_of_entries. exists (Z.to_nat (bucket_index ht k)), chain.
    split; [done|]. apply (search_chain_Some _ Hcmp) in Es; [done|].
    pose proof (inv_nodup ht Hinv) as Hnd. unfold keys, entries in Hnd.
    apply take_drop_middle in E. rewrite <- E in Hnd.
    rewrite concat_app, concat_cons, !map_app in Hnd.
    apply NoDup_app in Hnd as (_ & _ & Hnd).
    by apply NoDup_app in Hnd as (Hnd & _ & _).
  - symmetry. apply (search_chain_None _ Hcmp). intros Hin.
    apply list_elem_of_fmap in Hin as (e & -> & He).
    apply elem_of_entries in He as (i & chain' & Hi & He).
    pose proof (inv_placed ht Hinv i chain' e Hi He) as Hp.
    unfold bucket_index in E. rewrite Hp, Hi in E. injection E as ->.
    apply (search_chain_None _ Hcmp) in Es. apply Es.
    apply list_elem_of_fmap. by exists e.
Qed.

(** ** Hash table: inserting without rehashing *)






(** ** Hash table: sizes *)

(** A check that holds at every index from [lo] on, [n] of them, holds at
    each. *)
Lemma checked_in_range (f : Z -> bool) (lo : Z) (n : nat) :
  forallb f (map (fun k => lo + Z.of_nat k) (seq 0 n)) = true ->
  forall i, lo <= i < lo + Z.of_nat n -> f i = true.
Proof.
  intros H i Hi. rewrite forallb_forall in H. apply H.
  apply in_map_iff. exists (Z.to_nat (i - lo)). split; [lia|].
  apply in_seq. lia.
Qed.


Lemma prime_size_next i :
  4 <= i <= 29 -> prime_size i + 2 <= prime_size (i + 1).
Proof.
  intros H.
  pose proof (checked_in_range
                (fun i => prime_size i + 2 <=? prime_size (i + 1)) 4 26
                ltac:(by vm_compute) i ltac:(lia)).
  simpl in *. lia.
Qed.



Lemma getsize_spec ht i :
  at_index ht i -> i <= 29 ->
  getsize ht
  = Ok (prime_size (i + 1), set_idx ht ((ht_idx ht + 1) mod 65536)).
Proof.
  intros [Hi Hs] H29. unfold getsize. rewrite Hs.
  pose proof (checked_in_range
                (fun i => match getsize_loop (S (List.length delta))
                                             INITIAL_DELTA_INDEX
                                             (prime_size i) with
                          | Ok n => (n =? prime_size (i + 1))
                                    && (13 <=? prime_size i)
                          | _ => false
                          end) 4 26
                ltac:(by vm_compute) i ltac:(lia)) as H.
  cbv beta in H.
  destruct (getsize_loop _ _ (prime_size i)) as [n| | | |]; try done.
  apply andb_true_iff in H as [H1 H2]. apply Z.eqb_eq in H1. subst n.
  destruct (prime_size i <? 13) eqn:E; [lia|]. done.
Qed.

(** ** Hash table: rehashing *)







(** ** Hash table: the interface *)






(** ** Symbol table: its hash tables *)

Lemma key_strcmp_eq a b : key_strcmp a b = 0 <-> a = b.
Proof.
  unfold key_strcmp, strcmp. split.
  - destruct (String.compare a b) eqn:E; try done. intros _.
    by apply String.compare_eq_iff.
  - intros ->. pose proof (String.compare_antisym b b) as H.
    by destruct (String.compare b b).
Qed.

Lemma shift_hash_range k s : 0 < s -> 0 <= shift_hash k s < s.
Proof. intros H. unfold shift_hash. by apply Z.mod_pos_bound. Qed.

Lemma symbol_hash_table_ok : table_ok symbol_hash_table.
Proof.
  assert (entries symbol_hash_table = []) as He by done.
  split; [|split; [done|split; [done|]]].
  - split.
    + intros k s. apply shift_hash_range.
    + apply key_strcmp_eq.
    + done.
    + exists 4. by split.
    + done.
    + intros i chain e Hi Hin.
      change (ht_table symbol_hash_table)
        with (replicate 13 (@nil HTentry)) in Hi.
      apply lookup_replicate in Hi as [-> _].
      by apply elem_of_nil in Hin.
    + unfold keys. rewrite He. apply NoDup_nil_2.
  - exists 4. split; [by split|by left].
Qed.




(** ** Symbol table: [find_name] and [insert_name] *)

Lemma ht_search_entry T k v :
  ht_inv T -> ht_search T k = Ok (Some v) <-> entry k v ∈ entries T.
Proof.
  intros Hinv. rewrite ht_search_spec by done.
  rewrite <- (search_chain_Some _ (inv_cmp T Hinv))
    by apply (inv_nodup T Hinv).
  split; [by intros [= ->]|by intros ->].
Qed.


Lemma ht_search_total T k :
  ht_inv T ->
  (ht_search T k = Ok None /\ k ∉ keys T)
  \/ exists v, ht_search T k = Ok (Some v) /\ entry k v ∈ entries T.
Proof.
  intros Hinv. rewrite ht_search_spec by done.
  destruct (search_chain (ht_cmp T) k (entries T)) as [v|] eqn:E.
  - right. exists v. split; [done|].
    apply (search_chain_Some _ (inv_cmp T Hinv)); [|done].
    apply (inv_nodup T Hinv).
  - left. split; [done|]. by apply (search_chain_None _ (inv_cmp T Hinv)).
Qed.








(** ** Symbol table: the states of the interface *)

Lemma scope_inv_init st : scope_inv (init_symbol_table st).
Proof.
  split; [|by left]. exists symbol_hash_table. simpl.
  split; [by rewrite lookup_insert_eq|]. split; [apply symbol_hash_table_ok|].
  intros e He. by apply elem_of_nil in He.
Qed.






Lemma after_Ok {A : Type} (r : result A) (a d : A) :
  r = Ok a -> after r d = a.
Proof. by intros ->. Qed.








(** ** The list of bodies *)
















(** ** What the parser does to the list of bodies *)

Lemma bindP_Ok {A B : Type} (m : Parser A) (k : A -> Parser B) c b c' :
  bindP m k c = Ok (b, c') ->
  exists a c1, m c = Ok (a, c1) /\ k a c1 = Ok (b, c').
Proof.
  unfold bindP. intros H. destruct (m c) as [[a c1]| | | |]; try done.
  by exists a, c1.
Qed.

Section Runs.
Variable R : CodeGen -> CodeGen -> Prop.
Hypothesis R_refl : forall g, R g g.
Hypothesis R_trans : forall g1 g2 g3, R g1 g2 -> R g2 g3 -> R g1 g3.
Hypothesis R_same : forall g g', same_bodies g g' -> R g g'.

Lemma runs_ret {A : Type} (a : A) : runs R (ret a).
Proof. intros c a' c' [= _ <-]. apply R_refl. Qed.

Lemma runs_bind {A B : Type} (m : Parser A) (k : A -> Parser B) :
  runs R m -> (forall a, runs R (k a)) -> runs R (bindP m k).
Proof.
  intros Hm Hk c b c' H. apply bindP_Ok in H as (a & c1 & H1 & H2).
  eapply R_trans; [by eapply Hm|by eapply Hk].
Qed.

(** A parser that leaves the emitter alone. *)
Lemma runs_pure {A : Type} (m : Parser A) :
  (forall c a c', m c = Ok (a, c') -> codegen c' = codegen c) -> runs R m.
Proof. intros H c a c' E. rewrite (H c a c' E). apply R_refl. Qed.

Lemma runs_tok : runs R tok.
Proof. apply runs_pure. by intros c a c' [= _ <-]. Qed.

Lemma runs_next_token : runs R next_token.
Proof.
  apply runs_pure. unfold next_token. intros c a c' H.
  destruct (get_token _ _ _) as [[t s]| | | |]; try done.
  by injection H as _ <-.
Qed.

Lemma runs_abort_compile {A : Type} err : runs R (@abort_compile A err).
Proof. by intros c a c' H. Qed.

Lemma runs_die {A : Type} msg : runs R (@die A msg).
Proof. by intros c a c' H. Qed.

Lemma runs_undefined {A : Type} : runs R (@undefined A).
Proof. by intros c a c' H. Qed.

Lemma runs_out_of_fuel {A : Type} : runs R (@out_of_fuel A).
Proof. by intros c a c' H. Qed.

Lemma runs_expect type : runs R (expect type).
Proof.
  unfold expect. apply runs_bind; [apply runs_tok|]. intros t.
  destruct (tok_eqb t type); [apply runs_next_token|apply runs_abort_compile].
Qed.

Lemma runs_expect_id : runs R expect_id.
Proof.
  intros c a c' H. unfold expect_id in H.
  destruct (tok_eqb (tok_type (token c)) TOKEN_ID); [|done].
  revert H. apply (runs_bind next_token); [apply runs_next_token|].
  intros _. apply runs_ret.
Qed.

Lemma runs_lookup id p : runs R (lookup id p).
Proof.
  apply runs_pure. unfold lookup. intros c a c' H.
  destruct (find_name _ _ _) as [r| | | |]; try done. by injection H as _ <-.
Qed.

Lemma runs_prop_of p : runs R (prop_of p).
Proof.
  apply runs_pure. unfold prop_of. intros c a c' H.
  destruct (deref_prop _ _) as [r| | | |]; try done. by injection H as _ <-.
Qed.

Lemma runs_new_idprop type offset nparams params :
  runs R (new_idprop type offset nparams params).
Proof. apply runs_pure. unfold new_idprop. by intros c a c' [= _ <-]. Qed.

Lemma runs_sym {A : Type} (f : SymTab -> result (A * SymTab)) :
  runs R (sym f).
Proof.
  apply runs_pure. unfold sym. intros c a c' H.
  destruct (f _) as [[x st]| | | |]; try done. by injection H as _ <-.
Qed.

Lemma runs_variables_width : runs R variables_width.
Proof. apply runs_pure. by intros c a c' [= _ <-]. Qed.

Lemma runs_current_position : runs R current_position.
Proof. apply runs_pure. by intros c a c' [= _ <-]. Qed.

Lemma runs_new_label : runs R new_label.
Proof.
  intros c a c' H. unfold new_label in H.
  destruct (get_label (codegen c)) as [l g] eqn:E. injection H as _ <-.
  apply R_same. by apply (get_label_same _ l).
Qed.

Lemma runs_gen_with (f : Compiler -> CodeGen -> result CodeGen) :
  (forall c g g', f c g = Ok g' -> same_bodies g g') ->
  runs R (fun c => gen (f c) c).
Proof.
  intros Hf c a c' H. unfold gen in H.
  destruct (f c (codegen c)) as [g'| | | |] eqn:E; try done.
  injection H as _ <-. apply R_same. by apply (Hf c).
Qed.

Lemma runs_gen (f : CodeGen -> result CodeGen) :
  (forall g g', f g = Ok g' -> same_bodies g g') -> runs R (gen f).
Proof. intros Hf. apply (runs_gen_with (fun _ => f)). by intros _. Qed.

Lemma runs_when b m : runs R m -> runs R (when b m).
Proof. intros H. destruct b; [done|apply runs_ret]. Qed.

Lemma runs_while {A : Type} fuel cond (body : A -> Parser A) :
  (forall a, runs R (body a)) -> forall a, runs R (while_token fuel cond body a).
Proof.
  intros Hbody. induction fuel as [|fuel IH]; intros a;
    [apply runs_out_of_fuel|].
  simpl. apply runs_bind; [apply runs_tok|]. intros t.
  destruct (cond t); [|apply runs_ret].
  apply runs_bind; [apply Hbody|apply IH].
Qed.

Ltac runs_leaf :=
  first
    [ assumption
    | apply runs_ret | apply runs_tok | apply runs_next_token
    | apply runs_abort_compile | apply runs_die | apply runs_undefined
    | apply runs_out_of_fuel | apply runs_expect | apply runs_expect_id
    | apply runs_lookup | apply runs_prop_of | apply runs_new_idprop
    | apply runs_sym | apply runs_variables_width
    | apply runs_current_position | apply runs_new_label
    | match goal with H : forall _, runs _ (_ _) |- _ => apply H end
    | apply runs_gen;
      eauto using gen_1_same, gen_2_same, gen_label_same, gen_2_label_same,
        gen_newarray_same, gen_call_same, gen_cmp_same, gen_print_same,
        gen_print_string_same, gen_read_same
    | apply runs_gen_with; intros ? ? ?;
      eauto using gen_1_same, gen_2_same, gen_label_same, gen_2_label_same,
        gen_newarray_same, gen_call_same, gen_cmp_same, gen_print_same,
        gen_print_string_same, gen_read_same ].

Ltac runs_step :=
  lazymatch goal with
  | |- runs _ (bindP _ _) => apply runs_bind; [|intros ?]
  | |- runs _ (when _ _) => apply runs_when
  | |- runs _ (while_token _ _ _ _) => apply runs_while; intros ?
  | |- runs _ (if ?b then _ else _) => destruct b
  | |- runs _ (match ?x with _ => _ end) => destruct x
  | |- _ => runs_leaf
  end.

Ltac runs_all := repeat runs_step.

Lemma runs_if_found id k : (forall p, runs R (k p)) -> runs R (if_found id k).
Proof. intros Hk. unfold if_found. runs_all. Qed.

Lemma runs_expressions fuel :
  (forall type, runs R (parse_expr fuel type))
  /\ (forall type, runs R (parse_simple fuel type))
  /\ (forall type, runs R (parse_term fuel type))
  /\ (forall type, runs R (parse_factor fuel type)).
Proof.
  induction fuel as [|fuel (IHe & IHs & IHt & IHf)].
  { repeat split; intros type; apply runs_out_of_fuel. }
  split; [|split; [|split]]; intros type; simpl.
  - runs_all.
  - runs_all.
  - runs_all.
  - runs_all.
Qed.

Ltac runs_parser :=
  repeat lazymatch goal with
         | |- runs _ (if_found _ _) => apply runs_if_found; intros ?
         | |- _ => runs_step
         end.

Ltac with_expressions fuel :=
  let He := fresh "He" in
  let Hs := fresh "Hs" in
  let Ht := fresh "Ht" in
  let Hf := fresh "Hf" in
  destruct (runs_expressions fuel) as (He & Hs & Ht & Hf).

Lemma runs_parse_assign fuel : runs R (parse_assign fuel).
Proof. with_expressions fuel. unfold parse_assign. runs_parser. Qed.

Lemma runs_parse_call fuel : runs R (parse_call fuel).
Proof. with_expressions fuel. unfold parse_call. runs_parser. Qed.

Lemma runs_parse_input fuel : runs R (parse_input fuel).
Proof. with_expressions fuel. unfold parse_input. runs_parser. Qed.

Lemma runs_parse_leave fuel : runs R (parse_leave fuel).
Proof. with_expressions fuel. unfold parse_leave. runs_parser. Qed.

Lemma runs_output_item fuel type : runs R (output_item fuel type).
Proof. with_expressions fuel. unfold output_item. runs_parser. Qed.

Lemma runs_parse_output fuel : runs R (parse_output fuel).
Proof.
  pose proof (runs_output_item fuel) as Hitem.
  unfold parse_output. runs_parser.
Qed.

Lemma runs_parse_if_with fuel statements :
  runs R statements -> runs R (parse_if_with fuel statements).
Proof.
  intros Hst. with_expressions fuel. unfold parse_if_with. runs_parser.
Qed.

Lemma runs_parse_while_with fuel statements :
  runs R statements -> runs R (parse_while_with fuel statements).
Proof.
  intros Hst. with_expressions fuel. unfold parse_while_with. runs_parser.
Qed.

Lemma runs_parse_statement_with fuel statements :
  runs R statements -> runs R (parse_statement_with fuel statements).
Proof.
  intros Hst. unfold parse_statement_with.
  apply runs_bind; [apply runs_tok|]. intros t.
  destruct t;
    first [ apply runs_abort_compile | apply runs_parse_assign
          | apply runs_parse_call | by apply runs_parse_if_with
          | apply runs_parse_input | apply runs_parse_leave
          | apply runs_parse_output | by apply runs_parse_while_with ].
Qed.

Lemma runs_parse_statements fuel : runs R (parse_statements fuel).
Proof.
  induction fuel as [|fuel IH]; [apply runs_out_of_fuel|]. simpl.
  pose proof (runs_parse_statement_with fuel _ IH) as Hst.
  runs_parser.
Qed.

Lemma runs_parse_type : runs R parse_type.
Proof. unfold parse_type. runs_parser. Qed.

Lemma runs_declare id type : runs R (declare id type).
Proof. unfold declare. runs_parser. Qed.

Lemma runs_parse_vardef fuel : runs R (parse_vardef fuel).
Proof.
  pose proof runs_parse_type as Htype. pose proof runs_declare as Hdecl.
  unfold parse_vardef.
  repeat first [ apply runs_declare | runs_step ].
Qed.

Lemma runs_parse_body fuel : runs R (parse_body fuel).
Proof.
  unfold parse_body.
  repeat first [ apply runs_parse_vardef | apply runs_parse_statements
               | runs_step ].
Qed.

Lemma runs_insert_params chain : runs R (insert_params chain).
Proof.
  induction chain as [|v chain IH]; simpl; [apply runs_ret|].
  apply runs_bind; [apply runs_declare|by intros _].
Qed.

Lemma runs_gen_total (f : CodeGen -> CodeGen) :
  (forall g, R g (f g)) -> runs R (gen_total f).
Proof. intros Hf c a c' [= _ <-]. apply Hf. Qed.

Lemma runs_gen_rel (f : CodeGen -> result CodeGen) :
  (forall g g', f g = Ok g' -> R g g') -> runs R (gen f).
Proof.
  intros Hf c a c' H. unfold gen in H.
  destruct (f (codegen c)) as [g'| | | |] eqn:E; try done.
  injection H as _ <-. by apply Hf.
Qed.

Hypothesis R_init : forall name p g, R g (init_subroutine_codegen name p g).
Hypothesis R_close :
  forall fuel w g g', close_subroutine_codegen fuel w g = Ok g' -> R g g'.

(** A function definition: its header, which may start the code of a
    subroutine, its body, and the call that completes the body. *)
Lemma runs_parse_funcdef fuel : runs R (parse_funcdef fuel).
Proof.
  unfold parse_funcdef.
  repeat first
         [ apply runs_parse_type | apply runs_parse_body
         | apply runs_insert_params
         | apply runs_gen_total; intros ?; apply R_init
         | apply runs_gen_rel; intros ? ?; apply R_close
         | runs_step
         | apply runs_pure; intros ? ? ? [= _ <-]; reflexivity
         | apply runs_pure; intros ? ? ? ?;
           match goal with
           | H : context [param_types ?n ?i ?l] |- _ =>
             destruct (param_types n i l); [|done..];
             by injection H as _ <-
           end ].
Qed.
End Runs.





Lemma gen_total_Ok f c a c' :
  gen_total f c = Ok (a, c') -> codegen c' = f (codegen c).
Proof. by intros [= _ <-]. Qed.









(** C10 fails on a function whose statements are [relax]: the parse
    succeeds, the body of the function holds no code item, and the guard of
    [dump_method] reads the item before the first of its buffer; the body of
    the program holds the [return] that [parse_source] emits. *)
Theorem C10_relax_function_body_is_empty :
  exists c,
    parse 100 relax_program = Ok c
    /\ map (fun b => (b_name b, b_ip b)) (body_list (codegen c))
       = [(Some "sq", 0); (Some "main", 1)]
    /\ map (guard_of (codegen c)) (body_list (codegen c))
       = [Undefined; Ok ""]
    /\ main 100 relax_program = Undefined.
Proof.
  assert (match parse 100 relax_program with
          | Ok c =>
            map (fun b => (b_name b, b_ip b)) (body_list (codegen c))
            = [(Some "sq", 0); (Some "main", 1)]
            /\ map (guard_of (codegen c)) (body_list (codegen c))
               = [Undefined; Ok ""]
          | _ => False
          end) as H by (vm_compute; split; reflexivity).
  assert (main 100 relax_program = Undefined) as Hmain
      by (vm_compute; reflexivity).
  destruct (parse 100 relax_program) as [c| | | |]; [|destruct H..].
  exists c. destruct H as [H1 H2]. split; [reflexivity|].
  split; [exact H1|]. split; [exact H2|exact Hmain].
Qed.

(** * Further properties *)

(** ** Scanner: reserved words and identifiers *)

Lemma assoc_index_Some {A : Type} name (l : list (string * A)) :
  forall k i a,
    assoc_index name l k = Some (i, a) ->
    (k <= i)%nat /\ nth_error l (i - k) = Some (name, a).
Proof.
  induction l as [|[w b] l IH]; intros k i a H; [done|]. simpl in H.
  destruct (String.eqb name w) eqn:E.
  - apply String.eqb_eq in E as ->. injection H as <- <-.
    split; [lia|]. by rewrite Nat.sub_diag.
  - apply IH in H as [Hle Hnth]. split; [lia|].
    replace (i - k)%nat with (S (i - S k)) by lia. done.
Qed.

Lemma assoc_index_None {A : Type} name (l : list (string * A)) :
  forall k, assoc_index name l k = None -> ~ In name (map fst l).
Proof.
  induction l as [|[w b] l IH]; intros k H; [by intros []|]. simpl in H.
  destruct (String.eqb name w) eqn:E; [done|].
  apply String.eqb_neq in E. intros [Hw|Hin]; [by subst|].
  by apply (IH (S k)).
Qed.

Lemma strcmp_zero a b : strcmp a b = 0 <-> a = b.
Proof. apply key_strcmp_eq. Qed.

(** The search ends, inside the table, and what it finds is the lexeme. *)
Lemma search_reserved_sound lexeme fuel :
  forall low high,
    0 <= low -> high <= NUM_RESERVED_WORDS - 1 ->
    (0 < fuel)%nat -> high - low + 1 < Z.of_nat fuel ->
    exists r,
      search_reserved fuel lexeme low high = Ok r
      /\ (r = -1
          \/ exists ty, nth_error reserved (Z.to_nat r) = Some (lexeme, ty)).
Proof.
  induction fuel as [|fuel IH]; intros low high Hlow Hhigh Hpos Hfuel; [lia|].
  cbn [search_reserved].
  destruct (low <=? high) eqn:E; [|exists (-1); split; [done|by left]].
  apply Z.leb_le in E. destruct (high <? low) eqn:E'; [lia|].
  set (mid := low + Z.quot (high - low) 2).
  assert (low <= mid <= high) as Hmid.
  { unfold mid. rewrite Z.quot_div_nonneg by lia.
    pose proof (Z.div_pos (high - low) 2 ltac:(lia) ltac:(lia)).
    pose proof (Z.div_le_upper_bound (high - low) 2 (high - low)
                                     ltac:(lia) ltac:(lia)). lia. }
  destruct (nth_error reserved (Z.to_nat mid)) as [[word ty]|] eqn:En.
  2:{ apply nth_error_None in En. unfold NUM_RESERVED_WORDS in Hhigh. lia. }
  destruct (strcmp lexeme word =? 0) eqn:E0.
  - apply Z.eqb_eq, strcmp_zero in E0 as ->. exists mid. split; [done|].
    right. by exists ty.
  - destruct (strcmp lexeme word <? 0) eqn:E1.
    + destruct (0 <? strcmp lexeme word) eqn:E2; [lia|].
      apply IH; lia.
    + destruct (0 <? strcmp lexeme word) eqn:E2; [|lia].
      apply IH; lia.
Qed.

(** Every word of the table is found where it stands. *)
Lemma search_reserved_finds i word ty :
  nth_error reserved i = Some (word, ty) ->
  search_reserved (S (List.length reserved)) word 0 (NUM_RESERVED_WORDS - 1)
  = Ok (Z.of_nat i).
Proof.
  intros H.
  do 25 (destruct i as [|i];
         [injection H as <- _; vm_compute; reflexivity|]).
  by destruct i.
Qed.

(** The search returns the index of the lexeme in the table, or -1. *)
Lemma search_reserved_index lexeme :
  search_reserved (S (List.length reserved)) lexeme 0 (NUM_RESERVED_WORDS - 1)
  = Ok (reserved_index lexeme).
Proof.
  unfold reserved_index.
  destruct (assoc_index lexeme reserved 0) as [[i ty]|] eqn:E.
  - apply assoc_index_Some in E as [_ E]. rewrite Nat.sub_0_r in E.
    by apply (search_reserved_finds i lexeme ty).
  - apply assoc_index_None in E.
    destruct (search_reserved_sound lexeme (S (List.length reserved)) 0
                (NUM_RESERVED_WORDS - 1) ltac:(lia) ltac:(lia)
                ltac:(lia) ltac:(by vm_compute))
      as (r & Hr & [->|(ty & Hnth)]); [done|].
    exfalso. apply E. apply nth_error_In in Hnth.
    apply in_map_iff. by exists (lexeme, ty).
Qed.

(** X1.  The binary search of [process_word] returns the index of the
    lexeme in the table of reserved words when the lexeme is one of them,
    and -1 for every other lexeme. *)
Theorem X1_reserved_word_search lexeme :
  search_reserved (S (List.length reserved)) lexeme 0 (NUM_RESERVED_WORDS - 1)
  = Ok (reserved_index lexeme).
Proof. apply search_reserved_index. Qed.

Lemma string_app_nil_r (a : string) : (a ++ "")%string = a.
Proof.
  induction a as [|c a IH]; [done|].
  change (String c (a ++ "")%string = String c a). by rewrite IH.
Qed.

Lemma string_app_assoc (a b c : string) :
  ((a ++ b) ++ c)%string = (a ++ (b ++ c))%string.
Proof.
  induction a as [|x a IH]; [done|].
  change (String x ((a ++ b) ++ c)%string = String x (a ++ (b ++ c))%string).
  by rewrite IH.
Qed.

Lemma to_ascii_chr c : to_ascii (chr c) = c.
Proof.
  unfold to_ascii, chr. pose proof (N_ascii_bounded c) as Hb.
  rewrite Z.mod_small by lia. rewrite N2Z.id. apply ascii_N_embedding.
Qed.

Lemma is_word_not_newline c : is_word c -> chr c <> NL.
Proof.
  unfold is_word, is_word_char, isalpha, isdigit, NL.
  change (chr "_") with 95. lia.
Qed.

Lemma starts_word_is_word c : starts_word c -> is_word c.
Proof.
  unfold starts_word, is_word, is_word_char.
  destruct (isalpha (chr c)), (isdigit (chr c)), (chr c =? chr "_"); done.
Qed.

Lemma no_word_ahead_at s rest :
  no_word_ahead rest -> at_text s rest -> is_word_char (ch s) = false.
Proof.
  destruct rest as [|c r]; simpl.
  - by intros _ [-> _].
  - by intros H [-> _].
Qed.

(** Reading on inside a line leaves the place of the token alone. *)
Lemma position_iter_word w :
  forall s rest,
    Forall is_word w -> at_text s (w ++ rest) ->
    position (Nat.iter (List.length w) next_char s) = position s.
Proof.
  induction w as [|c w IH]; intros s rest Hw Hat; [done|].
  apply Forall_cons in Hw as [Hc Hw].
  change (List.length (c :: w)) with (S (List.length w)).
  rewrite Nat.iter_succ_r.
  rewrite (IH (next_char s) rest Hw (at_text_next s c _ Hat)).
  apply next_char_position. destruct Hat as [-> _].
  by apply is_word_not_newline.
Qed.

(** The loop of [process_word] on a word that fits. *)
Lemma process_word_loop_spec w :
  forall s rest lexeme (i : Z) fuel,
    Forall is_word w -> no_word_ahead rest -> at_text s (w ++ rest) ->
    i + Z.of_nat (List.length w) <= MAX_ID_LENGTH ->
    (List.length w < fuel)%nat ->
    process_word_loop fuel lexeme i s
    = Ok ((lexeme ++ string_of_list_ascii w)%string,
          Nat.iter (List.length w) next_char s).
Proof.
  induction w as [|c w IH]; intros s rest lexeme i fuel Hw Hrest Hat Hi Hfuel.
  - destruct fuel as [|fuel]; [simpl in Hfuel; lia|]. cbn [process_word_loop].
    rewrite (no_word_ahead_at s rest Hrest Hat). simpl.
    by rewrite string_app_nil_r.
  - apply Forall_cons in Hw as [Hc Hw].
    destruct fuel as [|fuel]; [simpl in Hfuel; lia|]. cbn [process_word_loop].
    pose proof Hat as [Hch _]. rewrite Hch, Hc.
    change (List.length (c :: w)) with (S (List.length w)) in *.
    destruct (i <? MAX_ID_LENGTH) eqn:E; [|lia].
    rewrite to_ascii_chr.
    rewrite (IH (next_char s) rest _ (i + 1) fuel Hw Hrest
                (at_text_next s c _ Hat) ltac:(lia) ltac:(lia)).
    rewrite Nat.iter_succ_r. f_equal. f_equal.
    by rewrite string_app_assoc.
Qed.

(** The loop of [process_word] on a word that is too long. *)
Lemma process_word_loop_long w :
  forall s rest lexeme (i : Z) fuel,
    Forall is_word w -> at_text s (w ++ rest) ->
    0 <= i <= MAX_ID_LENGTH ->
    MAX_ID_LENGTH < i + Z.of_nat (List.length w) ->
    (List.length w < fuel)%nat ->
    process_word_loop fuel lexeme i s
    = Fatal (position s) "identifier too long".
Proof.
  induction w as [|c w IH]; intros s rest lexeme i fuel Hw Hat Hi Hlong Hfuel.
  - simpl in Hlong. lia.
  - apply Forall_cons in Hw as [Hc Hw].
    destruct fuel as [|fuel]; [simpl in Hfuel; lia|]. cbn [process_word_loop].
    pose proof Hat as [Hch _]. rewrite Hch, Hc.
    change (List.length (c :: w)) with (S (List.length w)) in *.
    destruct (i <? MAX_ID_LENGTH) eqn:E; [|done].
    rewrite (IH (next_char s) rest _ (i + 1) fuel Hw
                (at_text_next s c _ Hat) ltac:(lia) ltac:(lia) ltac:(lia)).
    f_equal. apply next_char_position. rewrite Hch.
    by apply is_word_not_newline.
Qed.

Lemma skip_whitespace_none fuel s :
  (ch s =? SPACE) || (ch s =? TAB) || (ch s =? NL) = false ->
  skip_whitespace (S fuel) s = Ok s.
Proof. intros H. cbn [skip_whitespace]. by rewrite H. Qed.

Lemma starts_word_no_blank c :
  starts_word c ->
  (chr c =? SPACE) || (chr c =? TAB) || (chr c =? NL) = false.
Proof.
  unfold starts_word, isalpha, SPACE, TAB, NL. change (chr "_") with 95. lia.
Qed.

(** X2.  On a word of at most [MAX_ID_LENGTH] characters, made of letters,
    digits and underscores and starting with a letter or an underscore,
    [get_token] returns the kind of the reserved word when the word is one,
    and otherwise an identifier whose lexeme is the word; the scanner is
    left on the character after the word. *)
Theorem X2_word_token c w rest s token fuel :
  starts_word c -> Forall is_word w -> no_word_ahead rest ->
  at_text s (c :: w ++ rest) ->
  (List.length (c :: w) <= 32)%nat ->
  (List.length (c :: w) < fuel)%nat ->
  exists s',
    get_token fuel token s
    = Ok (word_token token (string_of_list_ascii (c :: w)), s')
    /\ at_text s' rest.
Proof.
  intros Hc Hw Hrest Hat Hlen Hfuel.
  destruct fuel as [|fuel]; [lia|]. cbn [get_token].
  pose proof Hat as [Hch _].
  rewrite skip_whitespace_none by (rewrite Hch; by apply starts_word_no_blank).
  cbn [bind]. set (s0 := set_col s (column_number s)).
  change (ch s0) with (ch s). rewrite Hch, chr_not_EOF. cbn [negb].
  unfold starts_word in Hc. rewrite Hc.
  unfold process_word.
  assert (at_text (set_col s0 (column_number s0)) ((c :: w) ++ rest)) as Hat0
      by (by do 2 apply at_text_set_col).
  rewrite (process_word_loop_spec (c :: w) _ rest "" 0 (S fuel)); try done.
  - cbn [bind]. rewrite search_reserved_index. cbn [bind].
    unfold reserved_index, word_token.
    exists (Nat.iter (List.length (c :: w)) next_char
                     (set_col s0 (column_number s0))).
    split; [|by apply at_text_iter].
    change ("" ++ string_of_list_ascii (c :: w))%string
      with (string_of_list_ascii (c :: w)).
    destruct (assoc_index _ reserved 0) as [[i ty]|] eqn:E.
    + apply assoc_index_Some in E as [_ E]. rewrite Nat.sub_0_r in E.
      assert ((Z.of_nat i =? -1) = false) as -> by (apply Z.eqb_neq; lia).
      by rewrite Nat2Z.id, E.
    + done.
  - constructor; [by apply starts_word_is_word|done].
  - unfold MAX_ID_LENGTH. lia.
Qed.

Lemma X2_word_token_witness :
  exists s',
    get_token 10 empty_token (init_scanner (src "while x1"))
    = Ok (word_token empty_token "while", s')
    /\ at_text s' (src " x1").
Proof.
  apply (X2_word_token "w" (src "hile") (src " x1")).
  - reflexivity.
  - repeat constructor.
  - reflexivity.
  - split; reflexivity.
  - simpl. lia.
  - simpl. lia.
Defined.

(** X3.  On a word of more than [MAX_ID_LENGTH] characters [get_token]
    ends with the message [identifier too long], reported at the place
    where the word starts. *)
Theorem X3_identifier_too_long c w rest s token fuel :
  starts_word c -> Forall is_word w ->
  at_text s (c :: w ++ rest) ->
  (32 < List.length (c :: w))%nat ->
  (List.length (c :: w) < fuel)%nat ->
  get_token fuel token s = Fatal (token_start s) "identifier too long".
Proof.
  intros Hc Hw Hat Hlen Hfuel.
  destruct fuel as [|fuel]; [lia|]. cbn [get_token].
  pose proof Hat as [Hch _].
  rewrite skip_whitespace_none by (rewrite Hch; by apply starts_word_no_blank).
  cbn [bind]. set (s0 := set_col s (column_number s)).
  change (ch s0) with (ch s). rewrite Hch, chr_not_EOF. cbn [negb].
  unfold starts_word in Hc. rewrite Hc.
  unfold process_word.
  assert (at_text (set_col s0 (column_number s0)) ((c :: w) ++ rest)) as Hat0
      by (by do 2 apply at_text_set_col).
  rewrite (process_word_loop_long (c :: w) _ rest "" 0 (S fuel));
    [done
    |constructor; [by apply starts_word_is_word|done]
    |done
    |unfold MAX_ID_LENGTH; lia..].
Qed.

Lemma X3_identifier_too_long_witness :
  get_token 40 empty_token
            (init_scanner (src "a23456789012345678901234567890123 := 1"))
  = Fatal {| line := 1; col := 1 |} "identifier too long".
Proof.
  apply (X3_identifier_too_long
           "a" (src "23456789012345678901234567890123") (src " := 1")).
  - reflexivity.
  - repeat constructor.
  - split; reflexivity.
  - simpl. lia.
  - simpl. lia.
Defined.

(** ** Scanner: operators, blanks and other characters *)

Lemma at_text_lookahead s t : at_text s t -> ch s = lookahead t.
Proof. destruct t; by intros [-> _]. Qed.

Lemma at_text_next_lookahead s c t :
  at_text s (c :: t) -> ch (next_char s) = lookahead t.
Proof. intros H. by apply at_text_lookahead, (at_text_next s c). Qed.

(** The tests of [get_token] on a character that is known. *)
Ltac dispatch :=
  cbv -[next_char set_col set_type process_word process_number process_string
        skip_comment skip_comment_loop get_token single case_less
        case_greater case_equal leprintf msg_illegal_character at_text
        token_start position lookahead ch column_number src_file].

Ltac enter_token s s0 Hat Hat0 :=
  let Hch := fresh "Hch" in
  pose proof (at_text_lookahead _ _ Hat) as Hch; simpl in Hch;
  cbn [get_token];
  rewrite skip_whitespace_none by (by rewrite Hch);
  cbn [bind]; set (s0 := set_col s (column_number s));
  pose proof (at_text_set_col s (column_number s) _ Hat) as Hat0;
  fold s0 in Hat0;
  change (ch s0) with (ch s); rewrite Hch;
  let Hpos := fresh "Hpos" in
  assert (position s0 = token_start s) as Hpos by reflexivity;
  clearbody s0.

Lemma eqb_false (a b : Z) : a <> b -> (a =? b) = false.
Proof. apply Z.eqb_neq. Qed.

(** X4.  The operators of two characters are read as one token; [<] and
    [>] before any other character are a token of their own, and a space
    right after them is taken with them; a colon that [=] does not follow
    is an illegal character. *)
Theorem X4_operators s token fuel :
  (forall rest,
      at_text s ("<" :: "=" :: rest)%char ->
      exists s', get_token (S fuel) token s
                 = Ok (set_type token TOKEN_LESS_EQUAL, s')
                 /\ at_text s' rest)
  /\ (forall rest,
         at_text s ("<" :: ">" :: rest)%char ->
         exists s', get_token (S fuel) token s
                    = Ok (set_type token TOKEN_NOT_EQUAL, s')
                    /\ at_text s' rest)
  /\ (forall rest,
         at_text s (">" :: "=" :: rest)%char ->
         exists s', get_token (S fuel) token s
                    = Ok (set_type token TOKEN_GREATER_EQUAL, s')
                    /\ at_text s' rest)
  /\ (forall rest,
         at_text s (":" :: "=" :: rest)%char ->
         exists s', get_token (S fuel) token s
                    = Ok (set_type token TOKEN_GETS, s')
                    /\ at_text s' rest)
  /\ (forall rest,
         at_text s ("<" :: " " :: rest)%char ->
         exists s', get_token (S fuel) token s
                    = Ok (set_type token TOKEN_LESS_THAN, s')
                    /\ at_text s' rest)
  /\ (forall rest,
         at_text s (">" :: " " :: rest)%char ->
         exists s', get_token (S fuel) token s
                    = Ok (set_type token TOKEN_GREATER_THAN, s')
                    /\ at_text s' rest)
  /\ (forall t,
         at_text s ("<"%char :: t) ->
         lookahead t <> chr " " -> lookahead t <> chr ">" ->
         lookahead t <> chr "=" ->
         exists s', get_token (S fuel) token s
                    = Ok (set_type token TOKEN_LESS_THAN, s')
                    /\ at_text s' t)
  /\ (forall t,
         at_text s (">"%char :: t) ->
         lookahead t <> chr " " -> lookahead t <> chr "=" ->
         exists s', get_token (S fuel) token s
                    = Ok (set_type token TOKEN_GREATER_THAN, s')
                    /\ at_text s' t)
  /\ (forall t,
         at_text s (":"%char :: t) -> lookahead t <> chr "=" ->
         get_token (S fuel) token s
         = Fatal (token_start s) (msg_illegal_character (chr ":"))).
Proof.
  repeat split.
  - intros rest Hat. enter_token s s0 Hat Hat0. dispatch. unfold case_less. cbv zeta.
    rewrite (at_text_next_lookahead s0 _ _ Hat0). dispatch.
    eexists. split; [reflexivity|]. by do 2 eapply at_text_next.
  - intros rest Hat. enter_token s s0 Hat Hat0. dispatch. unfold case_less. cbv zeta.
    rewrite (at_text_next_lookahead s0 _ _ Hat0). dispatch.
    eexists. split; [reflexivity|]. by do 2 eapply at_text_next.
  - intros rest Hat. enter_token s s0 Hat Hat0. dispatch. unfold case_greater. cbv zeta.
    rewrite (at_text_next_lookahead s0 _ _ Hat0). dispatch.
    eexists. split; [reflexivity|]. by do 2 eapply at_text_next.
  - intros rest Hat. enter_token s s0 Hat Hat0. dispatch.
    rewrite (at_text_next_lookahead s0 _ _ Hat0). dispatch.
    eexists. split; [reflexivity|]. by do 2 eapply at_text_next.
  - intros rest Hat. enter_token s s0 Hat Hat0. dispatch. unfold case_less. cbv zeta.
    rewrite (at_text_next_lookahead s0 _ _ Hat0). dispatch.
    eexists. split; [reflexivity|]. by do 2 eapply at_text_next.
  - intros rest Hat. enter_token s s0 Hat Hat0. dispatch. unfold case_greater. cbv zeta.
    rewrite (at_text_next_lookahead s0 _ _ Hat0). dispatch.
    eexists. split; [reflexivity|]. by do 2 eapply at_text_next.
  - intros t Hat H1 H2 H3. enter_token s s0 Hat Hat0. dispatch.
    unfold case_less. cbv zeta. rewrite (at_text_next_lookahead s0 _ _ Hat0).
    change SPACE with (chr " ").
    rewrite !(eqb_false _ _ H1), !(eqb_false _ _ H2), !(eqb_false _ _ H3).
    cbn [negb orb]. eexists. split; [reflexivity|]. by eapply at_text_next.
  - intros t Hat H1 H2. enter_token s s0 Hat Hat0. dispatch.
    unfold case_greater. cbv zeta. rewrite (at_text_next_lookahead s0 _ _ Hat0).
    change SPACE with (chr " ").
    rewrite !(eqb_false _ _ H1), !(eqb_false _ _ H2).
    cbn [negb orb]. eexists. split; [reflexivity|]. by eapply at_text_next.
  - intros t Hat H1. enter_token s s0 Hat Hat0. dispatch.
    rewrite (at_text_next_lookahead s0 _ _ Hat0).
    replace (match lookahead t with 61 => true | _ => false end)
      with (lookahead t =? 61) by reflexivity.
    rewrite (eqb_false _ 61 H1).
    unfold leprintf. f_equal. rewrite next_char_position; [done|].
    destruct Hat0 as [-> _]. done.
Qed.

Lemma X4_operators_witness :
  exists s',
    get_token 1 empty_token (init_scanner (src "<= 3"))
    = Ok (set_type empty_token TOKEN_LESS_EQUAL, s')
    /\ at_text s' (src " 3").
Proof.
  apply (proj1 (X4_operators (init_scanner (src "<= 3")) empty_token 0)).
  split; reflexivity.
Defined.

Lemma skip_whitespace_blanks ws :
  forall s rest fuel,
    Forall is_blank ws -> at_text s (ws ++ rest) ->
    (lookahead rest =? SPACE) || (lookahead rest =? TAB)
    || (lookahead rest =? NL) = false ->
    (List.length ws < fuel)%nat ->
    skip_whitespace fuel s = Ok (Nat.iter (List.length ws) next_char s).
Proof.
  induction ws as [|c ws IH]; intros s rest fuel Hws Hat Hrest Hfuel.
  - destruct fuel as [|fuel]; [simpl in Hfuel; lia|].
    cbn [skip_whitespace]. simpl in Hat.
    by rewrite (at_text_lookahead s rest Hat), Hrest.
  - apply Forall_cons in Hws as [Hc Hws].
    destruct fuel as [|fuel]; [simpl in Hfuel; lia|]. cbn [skip_whitespace].
    pose proof Hat as [Hch _]. rewrite Hch. unfold is_blank in Hc. rewrite Hc.
    change (List.length (c :: ws)) with (S (List.length ws)) in *.
    rewrite Nat.iter_succ_r.
    apply (IH (next_char s) rest); try done; [|lia].
    by apply (at_text_next s c).
Qed.

(** X5.  On an input that holds nothing but spaces, tabs and newlines, the
    empty input among them, [get_token] returns the end-of-file token and
    leaves the scanner at the end of the input. *)
Theorem X5_blank_input_is_end_of_file ws s token fuel :
  Forall is_blank ws -> at_text s ws -> (List.length ws < fuel)%nat ->
  exists s',
    get_token fuel token s = Ok (set_type token TOKEN_EOF, s')
    /\ at_text s' [].
Proof.
  intros Hws Hat Hfuel. destruct fuel as [|fuel]; [lia|]. cbn [get_token].
  rewrite <- (app_nil_r ws) in Hat.
  rewrite (skip_whitespace_blanks ws s [] (S fuel) Hws Hat eq_refl Hfuel).
  cbn [bind]. apply at_text_iter in Hat.
  set (s1 := Nat.iter (List.length ws) next_char s) in *.
  pose proof Hat as [Hch Hsrc].
  change (ch (set_col s1 (column_number s1))) with (ch s1). rewrite Hch.
  cbn [negb Z.eqb EOF]. eexists. split; [reflexivity|]. done.
Qed.

Lemma X5_blank_input_is_end_of_file_witness :
  exists s',
    get_token 4 empty_token (init_scanner [" "; "010"; "009"]%char)
    = Ok (set_type empty_token TOKEN_EOF, s')
    /\ at_text s' [].
Proof.
  apply (X5_blank_input_is_end_of_file [" "; "010"; "009"]%char).
  - repeat constructor.
  - split; reflexivity.
  - simpl. lia.
Defined.

(** X6.  A character that starts no token, the closing brace among them,
    ends the scan with the message [illegal character], which names the
    character and its code, reported at the place of the character. *)
Theorem X6_illegal_character c rest s token fuel :
  legal_start (chr c) = false -> at_text s (c :: rest) ->
  get_token (S fuel) token s
  = Fatal (token_start s) (msg_illegal_character (chr c)).
Proof.
  intros Hc Hat. pose proof Hat as [Hch _]. unfold legal_start in Hc.
  apply orb_false_elim in Hc as [Hc Hsym].
  apply orb_false_elim in Hc as [Halpha Hdigit]. cbn [existsb map] in Hsym.
  repeat match goal with
         | H : _ || _ = false |- _ => apply orb_false_elim in H as [? ?]
         end.
  cbn [get_token]. rewrite skip_whitespace_none.
  2:{ rewrite Hch. change SPACE with (chr " "). change TAB with (chr "009").
      change NL with (chr "010"). by repeat (apply orb_false_intro). }
  cbn [bind]. change (ch (set_col s (column_number s))) with (ch s).
  rewrite Hch, chr_not_EOF. cbn [negb].
  change DQUOTE with (chr "034"). change LBRACE with (chr "{").
  repeat match goal with
         | H : ?b = false |- context [?b] => rewrite H
         end.
  cbn [orb]. by destruct (chr c =? RBRACE).
Qed.

Lemma X6_illegal_character_witness :
  get_token 1 empty_token (init_scanner (src "} end"))
  = Fatal {| line := 1; col := 1 |} "illegal character '}' (ASCII #125)".
Proof.
  apply (X6_illegal_character "}" (src " end")).
  - reflexivity.
  - split; reflexivity.
Defined.

(** ** Scanner: every call ends *)

Lemma remaining_set_col s n : remaining (set_col s n) = remaining s.
Proof. done. Qed.

Lemma at_end_next_char s : at_end_when_EOF (next_char s).
Proof.
  unfold at_end_when_EOF, next_char.
  destruct (src_file s) as [|c r]; simpl; [done|].
  rewrite chr_not_EOF. pose proof (chr_not_EOF c) as E.
  destruct (ch s =? NL); simpl; intros H; rewrite H in E; done.
Qed.


Lemma at_end_iter n s :
  at_end_when_EOF s -> at_end_when_EOF (Nat.iter n next_char s).
Proof. destruct n; [done|]. intros _. simpl. apply at_end_next_char. Qed.

Lemma remaining_next_char_weak s :
  at_end_when_EOF s ->
  (remaining (next_char s) <= remaining s)%nat
  /\ (ch s <> EOF -> (remaining (next_char s) < remaining s)%nat).
Proof.
  intros Hend. destruct (Z.eq_dec (ch s) EOF) as [E|E].
  - split; [|done]. specialize (Hend E). unfold remaining, next_char.
    by rewrite Hend, E.
  - pose proof (remaining_next_char s E). split; [lia|]. intros _. lia.
Qed.







Lemma single_ends s0 token ty :
  at_end_when_EOF s0 -> ch s0 <> EOF -> ends_well s0 (single token ty s0).
Proof.
  intros Hend Hch. split; [apply at_end_next_char|]. left.
  by apply (remaining_next_char_weak s0 Hend).
Qed.


Lemma next_ends s0 token ty :
  at_end_when_EOF s0 -> ch s0 <> EOF ->
  ends_well s0 (Ok (set_type token ty, next_char s0)).
Proof. intros Hend Hch. by apply (single_ends s0 token ty). Qed.










(** ** Scanner: numbers and strings as tokens *)

Lemma is_digit_no_blank c :
  is_digit c ->
  (chr c =? SPACE) || (chr c =? TAB) || (chr c =? NL) = false.
Proof. unfold is_digit, isdigit, SPACE, TAB, NL. lia. Qed.

Lemma is_digit_no_word_start c :
  is_digit c -> isalpha (chr c) || (chr c =? chr "_") = false.
Proof. unfold is_digit, isdigit, isalpha. change (chr "_") with 95. lia. Qed.

(** X25.  On a sequence of digits [get_token] returns a number token with
    the value the digits denote, leading zeros included, as long as the
    value is at most [INT_MAX], and leaves the scanner on the character
    after the digits; for a larger value it ends with the message
    [number too large], reported at the place where the number starts. *)
Theorem X25_number_token c digits rest s token fuel :
  is_digit c -> Forall is_digit digits -> no_digit_ahead rest ->
  at_text s (c :: digits ++ rest) ->
  (List.length (c :: digits) < fuel)%nat ->
  (decimal_value 0 (c :: digits) <= INT_MAX ->
   exists s',
     get_token fuel token s
     = Ok (number_token token (decimal_value 0 (c :: digits)), s')
     /\ at_text s' rest)
  /\ (INT_MAX < decimal_value 0 (c :: digits) ->
      get_token fuel token s = Fatal (token_start s) "number too large").
Proof.
  intros Hc Hd Hrest Hat Hfuel.
  destruct fuel as [|fuel]; [simpl in Hfuel; lia|]. cbn [get_token].
  pose proof Hat as [Hch _].
  rewrite skip_whitespace_none by (rewrite Hch; by apply is_digit_no_blank).
  cbn [bind]. set (s0 := set_col s (column_number s)).
  change (ch s0) with (ch s). rewrite Hch, chr_not_EOF. cbn [negb].
  rewrite (is_digit_no_word_start c Hc). unfold is_digit in Hc. rewrite Hc.
  assert (at_text s0 ((c :: digits) ++ rest)) as Hat0
      by (by apply at_text_set_col).
  assert (Forall is_digit (c :: digits)) as Hall by (by constructor).
  unfold process_number.
  rewrite (process_number_loop_spec (c :: digits) rest s0 0 (S fuel))
    by done.
  rewrite (accumulate_decimal (c :: digits) 0) by (unfold INT_MAX; done).
  split.
  - intros Hle. apply Z.leb_le in Hle. rewrite Hle. cbn [bind].
    eexists. split; [reflexivity|]. by apply at_text_iter.
  - intros Hgt. apply Z.leb_gt in Hgt. by rewrite Hgt.
Qed.

Lemma X25_number_token_witness :
  exists s',
    get_token 10 empty_token (init_scanner (src "007;"))
    = Ok (number_token empty_token 7, s')
    /\ at_text s' (src ";").
Proof.
  destruct (X25_number_token "0" (src "07") (src ";")
                             (init_scanner (src "007;")) empty_token 10)
    as [H _].
  - reflexivity.
  - repeat constructor.
  - reflexivity.
  - split; reflexivity.
  - simpl. lia.
  - apply H. by vm_compute.
Defined.

Lemma plain_char_not_newline c : plain_char c -> chr c <> NL.
Proof. intros [H _]. unfold isprint, NL in *. lia. Qed.

(** The loop of [process_string] on characters it takes as they are. *)
Lemma process_string_loop_plain_run body :
  forall s str fuel t,
    Forall plain_char body -> at_text s (body ++ t) ->
    exists s',
      at_text s' t
      /\ position s' = position s
      /\ (t <> [] ->
          column_number s' = column_number s + Z.of_nat (List.length body))
      /\ process_string_loop (List.length body + fuel) str s
         = process_string_loop fuel (str ++ map chr body) s'.
Proof.
  induction body as [|c body IH]; intros s str fuel t Hb Hat.
  - exists s. split; [done|]. split; [done|]. split; [simpl; lia|].
    by rewrite app_nil_r.
  - apply Forall_cons in Hb as [Hc Hb].
    pose proof Hc as (Hprint & Hq & Hbs).
    pose proof Hat as [Hch Hfile].
    destruct (IH (next_char s) (str ++ [chr c]) fuel t Hb
                 (at_text_next s c _ Hat))
      as (s' & Hat' & Hpos & Hcol & Hrun).
    exists s'. split; [done|]. split.
    { rewrite Hpos. apply next_char_position. rewrite Hch.
      by apply plain_char_not_newline. }
    split.
    { intros Ht. rewrite (Hcol Ht).
      assert (exists c' r, src_file s = c' :: r) as (c' & r & Hnext).
      { rewrite Hfile. destruct body as [|c' body']; simpl.
        - destruct t as [|c' r]; [done|by exists c', r].
        - by eexists _, _. }
      destruct (next_char_same_line s c' r) as [_ ->]; [|done|].
      - rewrite Hch. by apply plain_char_not_newline.
      - change (List.length (c :: body)) with (S (List.length body)). lia. }
    change (List.length (c :: body) + fuel)%nat
      with (S (List.length body + fuel)).
    rewrite process_string_loop_plain by (rewrite Hch; done).
    rewrite Hch, Hrun. by rewrite <- app_assoc.
Qed.

Lemma dquote_dispatch :
  (chr dquote =? SPACE) || (chr dquote =? TAB) || (chr dquote =? NL) = false
  /\ isalpha (chr dquote) || (chr dquote =? chr "_") = false
  /\ isdigit (chr dquote) = false
  /\ (chr dquote =? DQUOTE) = true.
Proof. done. Qed.

(** [get_token] on an opening quote goes on with [process_string] on
    the character after the quote. *)
Lemma get_token_on_quote s token fuel t :
  at_text s (dquote :: t) ->
  exists s1,
    get_token (S fuel) token s = process_string (S fuel) token s1
    /\ at_text s1 t
    /\ position s1 = token_start s
    /\ (t <> [] -> column_number s1 = column_number s + 1).
Proof.
  intros Hat.
  destruct dquote_dispatch as (Hblank & Hword & Hdigit & Hquote).
  pose proof Hat as [Hch Hfile].
  exists (next_char (set_col (set_col s (column_number s)) (column_number s))).
  split; [|split; [|split]].
  - cbn [get_token]. rewrite skip_whitespace_none by (by rewrite Hch).
    cbn [bind]. set (s0 := set_col s (column_number s)).
    change (ch s0) with (ch s). rewrite Hch, chr_not_EOF. cbn [negb].
    by rewrite Hword, Hdigit, Hquote.
  - apply (at_text_next _ dquote). by do 2 apply at_text_set_col.
  - rewrite next_char_position; [done|].
    change (ch (set_col (set_col s (column_number s)) (column_number s)))
      with (ch s).
    by rewrite Hch.
  - intros Ht. destruct t as [|c' r]; [done|].
    destruct (next_char_same_line
                (set_col (set_col s (column_number s)) (column_number s))
                c' r) as [_ Hc1]; [|done|done].
    change (ch (set_col (set_col s (column_number s)) (column_number s)))
      with (ch s).
    by rewrite Hch.
Qed.

(** X26.  A string literal of characters taken as they are that the input
    ends in before its closing quote ends the scan with the message
    [string not closed], reported at the opening quote.  A character that
    is not printable, a newline among them, ends the scan inside such a
    literal with the message [non-printable character] and its code,
    reported at the column of the character. *)
Theorem X26_string_errors body s token fuel :
  Forall plain_char body ->
  (List.length body + 1 < fuel)%nat ->
  (at_text s (dquote :: body) ->
   get_token fuel token s = Fatal (token_start s) "string not closed")
  /\ (forall c rest,
         isprint (chr c) = false ->
         at_text s (dquote :: body ++ c :: rest) ->
         get_token fuel token s
         = Fatal {| line := line (position s);
                    col := column_number s + 1
                           + Z.of_nat (List.length body) |}
                 (msg_non_printable (chr c))).
Proof.
  intros Hb Hfuel.
  destruct fuel as [|fuel]; [lia|].
  assert (exists k, S fuel = (List.length body + S k)%nat) as [k Hk]
      by (exists (fuel - List.length body)%nat; lia).
  split.
  - intros Hat.
    destruct (get_token_on_quote s token fuel body Hat)
      as (s1 & -> & Hat1 & Hpos1 & _).
    rewrite <- (app_nil_r body) in Hat1.
    destruct (process_string_loop_plain_run body s1 [] (S k) [] Hb Hat1)
      as (s' & [Hch' _] & Hpos & _ & Hloop).
    unfold process_string. rewrite Hk, Hloop.
    cbn [process_string_loop]. rewrite Hch'. cbn [bind].
    change (EOF =? DQUOTE) with false. change (EOF =? EOF) with true.
    cbn [negb andb bind]. rewrite Hch'. change (EOF =? EOF) with true.
    cbv iota. unfold leprintf. by rewrite Hpos, Hpos1.
  - intros c rest Hc Hat.
    destruct (get_token_on_quote s token fuel (body ++ c :: rest) Hat)
      as (s1 & -> & Hat1 & Hpos1 & Hcol1).
    destruct (process_string_loop_plain_run body s1 [] (S k) (c :: rest)
                                            Hb Hat1)
      as (s' & [Hch' _] & Hpos & Hcol & Hloop).
    unfold process_string. rewrite Hk, Hloop.
    cbn [process_string_loop]. rewrite Hch', chr_not_EOF.
    assert ((chr c =? DQUOTE) = false) as ->.
    { apply Z.eqb_neq. intros E. rewrite E in Hc. done. }
    cbn [negb andb]. rewrite Hc. cbn [negb bind].
    unfold leprintf. cbn [position set_col bind].
    rewrite (Hcol ltac:(done)), Hcol1 by (by destruct body).
    rewrite Hpos, Hpos1. unfold token_start. cbn [line]. done.
Qed.

Lemma X26_string_errors_witness :
  get_token 10 empty_token (init_scanner (dquote :: src "abc"))
  = Fatal {| line := 1; col := 1 |} "string not closed"
  /\ get_token 10 empty_token
               (init_scanner (dquote :: src "ab" ++ "010"%char :: src "c"))
     = Fatal {| line := 1; col := 4 |}
             "non-printable character (ASCII #10) in string".
Proof.
  split.
  - destruct (X26_string_errors
                (src "abc") (init_scanner (dquote :: src "abc"))
                empty_token 10) as [H _].
    + repeat constructor; by vm_compute.
    + simpl. lia.
    + apply H. split; reflexivity.
  - destruct (X26_string_errors
                (src "ab")
                (init_scanner (dquote :: src "ab" ++ "010"%char :: src "c"))
                empty_token 10) as [_ H].
    + repeat constructor; by vm_compute.
    + simpl. lia.
    + apply (H "010"%char (src "c")); [reflexivity|split; reflexivity].
Defined.

(** ** Scanner: comments *)

(** The loop of [skip_comment] runs through the text of a comment, the
    comments inside it included, and stops on the closing brace. *)
Lemma skip_comment_loop_body body :
  comment_body body ->
  forall s rest fuel,
    at_text s (body ++ "}"%char :: rest) ->
    (List.length body < fuel)%nat ->
    exists s',
      at_text s' ("}"%char :: rest) /\ skip_comment_loop fuel s = Ok s'.
Proof.
  induction 1 as [|c t Hl Hr Ht IH|inner t Hinner IHinner Ht IHt];
    intros s rest fuel Hat Hfuel.
  - destruct fuel as [|fuel]; [simpl in Hfuel; lia|].
    exists s. split; [done|]. cbn [skip_comment_loop].
    destruct Hat as [-> _]. done.
  - destruct fuel as [|fuel]; [simpl in Hfuel; lia|].
    cbn [skip_comment_loop]. pose proof Hat as [Hch _]. rewrite Hch.
    rewrite chr_not_EOF, (eqb_false _ _ Hl), (eqb_false _ _ Hr).
    cbn [negb andb bind]. apply (IH (next_char s) rest fuel).
    + by apply (at_text_next s c).
    + simpl in Hfuel. lia.
  - destruct fuel as [|fuel]; [simpl in Hfuel; lia|].
    cbn [skip_comment_loop]. pose proof Hat as [Hch _]. rewrite Hch.
    change (chr "{" =? RBRACE) with false.
    change (chr "{" =? EOF) with false.
    change (chr "{" =? LBRACE) with true. cbn [negb andb].
    simpl in Hfuel. rewrite length_app in Hfuel. simpl in Hfuel.
    destruct fuel as [|fuel]; [lia|]. cbn [skip_comment].
    assert (at_text (next_char s) (inner ++ "}"%char :: t ++ "}"%char :: rest))
      as Hat1.
    { apply (at_text_next s "{"). simpl in Hat.
      by rewrite <- app_assoc in Hat. }
    destruct (IHinner (next_char s) (t ++ "}"%char :: rest) fuel Hat1
                      ltac:(lia)) as (s1 & Hat2 & ->).
    cbn [bind]. pose proof Hat2 as [Hch2 _]. rewrite Hch2.
    change (chr "}" =? EOF) with false. cbv iota. cbn [bind].
    apply (IHt (next_char s1) rest (S fuel)).
    + by apply (at_text_next s1 "}").
    + lia.
Qed.

Lemma lbrace_dispatch :
  (chr "{" =? SPACE) || (chr "{" =? TAB) || (chr "{" =? NL) = false
  /\ isalpha (chr "{") || (chr "{" =? chr "_") = false
  /\ isdigit (chr "{") = false
  /\ (chr "{" =? DQUOTE) = false
  /\ (chr "{" =? LBRACE) = true.
Proof. done. Qed.

(** X29.  A comment, with the comments nested in it, is skipped: on the
    opening brace of a comment that is closed [get_token] returns what it
    returns from the character after the closing brace. *)
Theorem X29_comment_is_skipped body rest s token fuel :
  comment_body body ->
  at_text s ("{"%char :: body ++ "}"%char :: rest) ->
  (List.length body + 1 < fuel)%nat ->
  exists s',
    at_text s' rest
    /\ get_token (S fuel) token s = get_token fuel token s'.
Proof.
  intros Hbody Hat Hfuel.
  destruct lbrace_dispatch as (Hblank & Hword & Hdigit & Hquote & Hbrace).
  pose proof Hat as [Hch _].
  cbn [get_token]. rewrite skip_whitespace_none by (by rewrite Hch).
  cbn [bind]. set (s0 := set_col s (column_number s)).
  assert (at_text s0 ("{"%char :: body ++ "}"%char :: rest)) as Hat0
      by (by apply at_text_set_col).
  change (ch s0) with (ch s). rewrite Hch, chr_not_EOF. cbn [negb].
  rewrite Hword, Hdigit, Hquote, Hbrace.
  cbn [skip_comment].
  destruct (skip_comment_loop_body body Hbody (next_char s0) rest fuel)
    as (s1 & Hat1 & ->); [by apply (at_text_next s0 "{")|lia|].
  cbn [bind]. pose proof Hat1 as [Hch1 _]. rewrite Hch1.
  change (chr "}" =? EOF) with false. cbv iota. cbn [bind].
  exists (next_char s1). split; [|done]. by apply (at_text_next s1 "}").
Qed.

Lemma X29_comment_is_skipped_witness :
  exists s',
    at_text s' (src " x")
    /\ get_token 11 empty_token (init_scanner (src "{a{b}c} x"))
       = get_token 10 empty_token s'.
Proof.
  apply (X29_comment_is_skipped
           ("a" :: "{" :: src "b" ++ "}" :: src "c")%char (src " x")).
  - apply comment_char; [done|done|].
    apply (comment_nested (src "b") (src "c")).
    + apply comment_char; [done|done|apply comment_empty].
    + apply comment_char; [done|done|apply comment_empty].
  - split; reflexivity.
  - simpl. lia.
Defined.
(** ** Further properties of the hash table *)

Lemma no_divisor_spec n :
  forall d p,
    no_divisor n d p = true
    <-> forall k, d <= k < d + Z.of_nat n -> p mod k <> 0.
Proof.
  induction n as [|n IH]; intros d p.
  - split; [intros _ k Hk; lia|done].
  - cbn [no_divisor]. destruct (p mod d =? 0) eqn:E.
    + apply Z.eqb_eq in E. split; [done|]. intros H.
      exfalso. apply (H d); [lia|done].
    + apply Z.eqb_neq in E. rewrite IH. split.
      * intros H2 k Hk. destruct (Z.eq_dec k d) as [->|Hne]; [done|].
        apply H2. lia.
      * intros H k Hk. apply H. lia.
Qed.

(** Trial division up to the square root decides primality. *)
Lemma trial_prime_spec p : trial_prime p = true <-> Z.prime p.
Proof.
  unfold trial_prime. rewrite andb_true_iff, Z.ltb_lt, no_divisor_spec.
  split.
  - intros [H1 Hdiv]. split; [done|].
    intros n Hn [m Hm].
    pose proof (Z.sqrt_spec p ltac:(lia)) as Hs. cbv zeta in Hs.
    assert (1 <= Z.sqrt p) as Hr by (apply Z.sqrt_le_square; lia).
    assert (1 < m) as Hm1.
    { destruct (Z.le_gt_cases m 1) as [Hm1|]; [exfalso|done].
      destruct (Z.le_gt_cases m 0); [nia|].
      assert (m = 1) as -> by lia. lia. }
    destruct (Z.le_gt_cases n (Z.sqrt p)) as [Hle|Hgt].
    + apply (Hdiv n); [lia|]. rewrite Hm. apply Z.mod_mul. lia.
    + assert (m <= Z.sqrt p) as Hle.
      { destruct (Z.le_gt_cases m (Z.sqrt p)); [done|exfalso].
        assert ((Z.sqrt p + 1) * (Z.sqrt p + 1) <= m * n) by nia.
        unfold Z.succ in Hs. lia. }
      apply (Hdiv m); [lia|]. rewrite Hm, Z.mul_comm. apply Z.mod_mul. lia.
  - intros [H2 Hp].
    split; [lia|]. intros k Hk Hmod.
    pose proof (Z.sqrt_spec p ltac:(lia)) as Hs.
    assert (2 <= k <= Z.sqrt p) as Hk1 by lia. clear Hk.
    pose proof (Z.mul_le_mono_nonneg k (Z.sqrt p) k (Z.sqrt p)
                  ltac:(lia) ltac:(lia) ltac:(lia) ltac:(lia)) as Hk2.
    assert (k < k * k) as Hk3 by nia.
    cbv zeta in Hs. apply (Hp k); [lia|].
    apply Z.mod_divide; [lia|done].
Qed.

Lemma elem_of_strictly_between p top q :
  p < q < top -> In q (strictly_between p top).
Proof.
  intros H. unfold strictly_between. apply in_map_iff.
  exists (Z.to_nat (q - p - 1)). split; [lia|]. apply in_seq. lia.
Qed.

Lemma largest_prime_below_spec i :
  largest_prime_below i = true ->
  Z.prime (prime_size i)
  /\ forall q, Z.prime q -> q < 2 ^ i -> q <= prime_size i.
Proof.
  unfold largest_prime_below. rewrite andb_true_iff, forallb_forall.
  intros [H1 H2]. split; [by apply trial_prime_spec|].
  intros q Hq Hlt. destruct (Z.le_gt_cases q (prime_size i)) as [|Hgt]; [done|].
  specialize (H2 q (elem_of_strictly_between (prime_size i) (2 ^ i) q
                                             ltac:(lia))).
  apply negb_true_iff in H2. apply trial_prime_spec in Hq. congruence.
Qed.

Lemma prime_sizes_checked i :
  4 <= i <= 30 -> largest_prime_below i = true.
Proof.
  intros H. apply (checked_in_range largest_prime_below 4 27); [|lia].
  vm_compute. reflexivity.
Qed.

Lemma prime_size_below i : 4 <= i <= 30 -> prime_size i < 2 ^ i.
Proof.
  intros H. apply Z.ltb_lt.
  by apply (checked_in_range (fun i => prime_size i <? 2 ^ i) 4 27);
    [|lia].
Qed.

Lemma at_index_prime ht i : at_index ht i -> Z.prime (ht_size ht).
Proof.
  intros [Hi ->].
  by apply largest_prime_below_spec, prime_sizes_checked.
Qed.

(** X8.  From a table whose size is the largest prime below [2 ^ i],
    [getsize] returns the largest prime below [2 ^ (i + 1)] and advances
    [idx], for [i] from 4 to 29: the size stays a prime and grows.  At the
    last size, the prime below [2 ^ 30], the computation of [power(2, 31)]
    overflows [int]. *)
Theorem X8_getsize_next_prime ht i :
  at_index ht i ->
  Z.prime (ht_size ht)
  /\ (i <= 29 ->
      getsize ht
      = Ok (prime_size (i + 1), set_idx ht ((ht_idx ht + 1) mod 65536))
      /\ Z.prime (prime_size (i + 1))
      /\ ht_size ht < prime_size (i + 1) < 2 ^ (i + 1)
      /\ forall q, Z.prime q -> q < 2 ^ (i + 1) -> q <= prime_size (i + 1))
  /\ (i = 30 -> getsize ht = Undefined).
Proof.
  intros Hat. split; [by apply (at_index_prime ht i)|].
  pose proof Hat as [Hi Hs]. split.
  - intros H29. split; [by apply getsize_spec|].
    destruct (largest_prime_below_spec (i + 1)
                (prime_sizes_checked (i + 1) ltac:(lia))) as [Hp Hmax].
    split; [done|]. split; [|done].
    pose proof (prime_size_next i ltac:(lia)).
    pose proof (prime_size_below (i + 1) ltac:(lia)). lia.
  - intros ->. unfold getsize. rewrite Hs.
    assert (getsize_loop (S (List.length delta)) INITIAL_DELTA_INDEX
                         (prime_size 30) = Undefined) as E
        by (vm_compute; reflexivity).
    rewrite E. reflexivity.
Qed.

Lemma X8_getsize_next_prime_witness :
  Z.prime (ht_size symbol_hash_table)
  /\ getsize symbol_hash_table
     = Ok (31, set_idx symbol_hash_table 5).
Proof.
  destruct (X8_getsize_next_prime symbol_hash_table 4) as (Hp & Hn & _).
  - split; [lia|reflexivity].
  - split; [exact Hp|]. destruct (Hn ltac:(lia)) as [E _]. exact E.
Defined.




Lemma power_loop_spec n :
  forall num j,
    0 <= num -> 0 <= j -> num ^ j <= INT_MAX ->
    power_loop n num (num ^ j)
    = if num ^ (j + Z.of_nat n) <=? INT_MAX
      then Ok (num ^ (j + Z.of_nat n)) else Undefined.
Proof.
  induction n as [|n IH]; intros num j Hnum Hj Hle.
  - rewrite Z.add_0_r. destruct (num ^ j <=? INT_MAX) eqn:E; [done|lia].
  - cbn [power_loop].
    assert (num ^ j * num = num ^ (j + 1)) as E
        by (rewrite Z.pow_add_r, Z.pow_1_r by lia; lia).
    rewrite E.
    replace (j + Z.of_nat (S n)) with (j + 1 + Z.of_nat n) by lia.
    pose proof (Z.pow_nonneg num (j + 1) Hnum) as Hpos.
    unfold in_int_range.
    destruct (num ^ (j + 1) <=? INT_MAX) eqn:E1.
    + replace (- 2147483648 <=? num ^ (j + 1)) with true
        by (symmetry; apply Z.leb_le; lia).
      cbn [andb]. apply IH; lia.
    + rewrite andb_false_r.
      assert (1 <= num) as H1.
      { destruct (Z.eq_dec num 0) as [->|]; [|lia].
        rewrite Z.pow_0_l in E1 by lia. done. }
      pose proof (Z.pow_le_mono_r num (j + 1) (j + 1 + Z.of_nat n)
                    ltac:(lia) ltac:(lia)).
      destruct (num ^ (j + 1 + Z.of_nat n) <=? INT_MAX) eqn:E2; [lia|done].
Qed.

(** X11.  [power] of hashtable.c, on a base that is not negative, returns
    the base itself for every exponent below 2, also for the exponent 0,
    and the base to the [exponent] from there on, as long as that fits an
    [int]; where it does not, the multiplication overflows. *)
Theorem X11_power num exponent :
  0 <= num <= INT_MAX -> - INT_MAX <= exponent <= INT_MAX ->
  power num exponent
  = if exponent <=? 1 then Ok num
    else if num ^ exponent <=? INT_MAX then Ok (num ^ exponent)
         else Undefined.
Proof.
  intros Hnum _. unfold power.
  destruct (exponent <=? 1) eqn:E.
  - replace (Z.to_nat (exponent - 1)) with 0%nat by lia. done.
  - pose proof (power_loop_spec (Z.to_nat (exponent - 1)) num 1
                  ltac:(lia) ltac:(lia)) as H.
    rewrite Z.pow_1_r in H.
    replace (1 + Z.of_nat (Z.to_nat (exponent - 1))) with exponent in H
      by lia.
    apply H. lia.
Qed.

Lemma X11_power_witness :
  power 2 0 = Ok 2 /\ power 2 30 = Ok 1073741824 /\ power 2 31 = Undefined.
Proof.
  split; [|split].
  - by rewrite (X11_power 2 0).
  - by rewrite (X11_power 2 30).
  - by rewrite (X11_power 2 31).
Defined.




(** ** Further properties of the symbol table *)

Lemma not_bound_iff st id T :
  tabs st !! table st = Some T ->
  id ∉ keys T <-> forall v, ~ bound st id v.
Proof.
  intros HT. split.
  - intros Hout v (T0 & HT0 & Hin). rewrite HT in HT0. injection HT0 as <-.
    apply Hout. unfold keys. apply list_elem_of_fmap. by exists (entry id v).
  - intros Hnone Hin. unfold keys in Hin.
    apply list_elem_of_fmap in Hin as ([k v] & -> & Hin).
    apply (Hnone v). by exists T.
Qed.

Lemma entry_unique T k v w :
  ht_inv T -> entry k v ∈ entries T -> entry k w ∈ entries T -> v = w.
Proof.
  intros Hinv Hv Hw.
  apply (ht_search_entry T k v Hinv) in Hv.
  apply (ht_search_entry T k w Hinv) in Hw. congruence.
Qed.

(** [find_name] in full: what it returns and what it leaves in [*prop]. *)
Lemma find_name_spec st id q :
  scope_inv st ->
  exists b r,
    find_name st id q = Ok (b, r)
    /\ (b = true -> exists v, r = Some v /\ visible st id v)
    /\ (b = false ->
        (forall v, ~ visible st id v)
        /\ (r = q \/ exists v, r = Some v /\ captured st id v)).
Proof.
  intros [(T & HT & Hok & Hvals) Hsaved]. destruct Hok as (Hinv & _).
  pose proof (not_bound_iff st id T HT) as Hnb.
  unfold find_name, deref_table. rewrite HT. cbn [bind].
  destruct (ht_search_total T id Hinv) as [[-> Hout]|(v & -> & Hin)];
    cbn [bind].
  - pose proof (proj1 Hnb Hout) as Hnone. cbn [negb andb].
    destruct (saved_table st =? NULL)%nat eqn:En; cbn [negb].
    + apply Nat.eqb_eq in En.
      exists false, q. split; [done|]. split; [done|]. intros _.
      split; [|by left]. intros v [Hb|[_ [Hn _]]]; [by apply (Hnone v)|done].
    + apply Nat.eqb_neq in En.
      destruct Hsaved as [Hnull|(S & HS & HinvS & HvalsS)]; [done|].
      rewrite HS. cbn [bind].
      destruct (ht_search_total S id HinvS) as [[-> HoutS]|(v & -> & HinS)];
        cbn [bind].
      * exists false, q. split; [done|]. split; [done|]. intros _.
        split; [|by left]. intros v [Hb|[_ (_ & S0 & rec & HS0 & HinS & _)]];
          [by apply (Hnone v)|].
        rewrite HS in HS0. injection HS0 as <-. apply HoutS. unfold keys.
        apply list_elem_of_fmap. by exists (entry id v).
      * destruct (HvalsS _ HinS) as [rec Hrec]. simpl in Hrec.
        unfold deref_prop. rewrite Hrec. cbn [bind].
        destruct (IS_CALLABLE_TYPE (prop_type rec)) eqn:Ec; cbn [negb].
        -- exists true, (Some v). split; [done|]. split; [|done]. intros _.
           exists v. split; [done|]. right. split; [done|]. split; [done|].
           by exists S, rec.
        -- exists false, (Some v). split; [done|]. split; [done|]. intros _.
           split.
           ++ intros w [Hb|[_ (_ & S0 & rec0 & HS0 & HinS0 & Hrec0 & Hc0)]];
                [by apply (Hnone w)|].
              rewrite HS in HS0. injection HS0 as <-.
              assert (w = v) as -> by (by apply (entry_unique S id)).
              congruence.
           ++ right. exists v. split; [done|]. split; [done|].
              by exists S, rec.
  - exists true, (Some v). split; [done|]. split; [|done]. intros _.
    exists v. split; [done|]. left. by exists T.
Qed.









(** ** The hash function *)

Lemma two32_pos : 0 < two32.
Proof. done. Qed.

Lemma mod_add_compat a a' b b' :
  a mod two32 = a' mod two32 -> b mod two32 = b' mod two32 ->
  (a + b) mod two32 = (a' + b') mod two32.
Proof.
  intros Ha Hb. rewrite (Z.add_mod a b), (Z.add_mod a' b') by done.
  by rewrite Ha, Hb.
Qed.

Lemma mod_mul_compat a a' b b' :
  a mod two32 = a' mod two32 -> b mod two32 = b' mod two32 ->
  (a * b) mod two32 = (a' * b') mod two32.
Proof.
  intros Ha Hb. rewrite (Z.mul_mod a b), (Z.mul_mod a' b') by done.
  by rewrite Ha, Hb.
Qed.

Lemma upower_loop_spec n :
  forall num acc,
    upower_loop n num acc mod two32 = (acc * num ^ Z.of_nat n) mod two32.
Proof.
  induction n as [|n IH]; intros num acc.
  - by rewrite Z.mul_1_r.
  - cbn [upower_loop]. rewrite IH.
    replace (Z.of_nat (S n)) with (1 + Z.of_nat n) by lia.
    rewrite Z.pow_add_r, Z.pow_1_r by lia.
    rewrite Z.mul_assoc. apply mod_mul_compat; [|done].
    by rewrite Z.mod_mod.
Qed.

Lemma upower_spec num exp :
  0 <= exp -> upower num exp mod two32 = num ^ (exp + 1) mod two32.
Proof.
  intros H. unfold upower. rewrite upower_loop_spec.
  rewrite Z2Nat.id by done.
  replace (exp + 1) with (1 + exp) by lia.
  by rewrite Z.pow_add_r, Z.pow_1_r by lia.
Qed.

Lemma sum_of_app l1 l2 : sum_of (l1 ++ l2) = sum_of l1 + sum_of l2.
Proof. induction l1 as [|x l1 IH]; simpl; [done|]. rewrite IH. lia. Qed.

(** The exponents the inner loop of [shift_hash] goes through. *)
Lemma exponents_S (len : nat) :
  map (fun j => Z.of_nat (S len) - Z.of_nat j) (seq 0 (S len))
  = Z.of_nat (S len)
      :: map (fun j => Z.of_nat len - Z.of_nat j) (seq 0 len).
Proof.
  cbn [seq map]. change (Z.of_nat 0) with 0. rewrite Z.sub_0_r.
  rewrite <- seq_shift, map_map. f_equal. apply map_ext. intros j. lia.
Qed.

Lemma weight_exponents (len : nat) :
  sum_of (map (fun j => 40 ^ (j + 2))
              (map (fun j => Z.of_nat len - Z.of_nat j) (seq 0 len)))
  = weight len.
Proof.
  unfold weight. induction len as [|len IH]; [done|].
  rewrite exponents_S. cbn [map sum_of fold_right]. fold (sum_of).
  change (fold_right Z.add 0) with sum_of. rewrite IH.
  rewrite seq_S, map_app, sum_of_app. simpl. lia.
Qed.

(** The inner loop of [shift_hash] adds the character times each power. *)
Lemma inner_loop_spec c js :
  forall h,
    (forall j, In j js -> 0 <= j) ->
    0 <= h < two32 ->
    let r := fold_left
               (fun hash j =>
                  (hash + (char_operand c * upower (39 + 1) (j + 1))
                            mod two32) mod two32) js h in
    0 <= r < two32
    /\ r mod two32
       = (h + char_operand c * sum_of (map (fun j => 40 ^ (j + 2)) js))
           mod two32.
Proof.
  induction js as [|j js IH]; intros h Hjs Hh; cbn zeta.
  - simpl. split; [done|]. f_equal. lia.
  - cbn [fold_left].
    set (h1 := (h + (char_operand c * upower (39 + 1) (j + 1)) mod two32)
                 mod two32).
    assert (0 <= h1 < two32) as Hh1 by (apply Z.mod_pos_bound; done).
    destruct (IH h1 ltac:(intros; apply Hjs; by right) Hh1) as [Hr Heq].
    split; [done|]. rewrite Heq. cbn [map sum_of fold_right].
    change (fold_right Z.add 0) with sum_of.
    rewrite Z.mul_add_distr_l, Z.add_assoc.
    apply mod_add_compat; [|done]. subst h1. rewrite Z.mod_mod by done.
    apply mod_add_compat; [done|]. rewrite Z.mod_mod by done.
    apply mod_mul_compat; [done|].
    rewrite upower_spec by (specialize (Hjs j ltac:(by left)); lia).
    by replace (j + 1 + 1) with (j + 2) by lia.
Qed.

Lemma outer_loop_spec (len : nat) chars :
  forall h,
    0 <= h < two32 ->
    let r := fold_left
               (fun hash c =>
                  fold_left
                    (fun hash j =>
                       (hash + (char_operand c * upower (39 + 1) (j + 1))
                                 mod two32) mod two32)
                    (map (fun j => Z.of_nat len - Z.of_nat j) (seq 0 len))
                    hash)
               chars h in
    0 <= r < two32
    /\ r mod two32
       = (h + sum_of (map char_operand chars) * weight len) mod two32.
Proof.
  induction chars as [|c chars IH]; intros h Hh; cbn zeta.
  - simpl. split; [done|]. f_equal. lia.
  - cbn [fold_left].
    destruct (inner_loop_spec
                c (map (fun j => Z.of_nat len - Z.of_nat j) (seq 0 len)) h)
      as [Hr Heq]; [|done|].
    { intros j Hj. apply in_map_iff in Hj as (i & <- & Hi).
      apply in_seq in Hi. lia. }
    cbn zeta in Hr, Heq. rewrite weight_exponents in Heq.
    destruct (IH _ Hr) as [Hr' Heq']. split; [done|].
    cbn zeta in Heq'. rewrite Heq'. cbn [map sum_of fold_right].
    change (fold_right Z.add 0) with sum_of.
    rewrite Z.mul_add_distr_r, Z.add_assoc.
    apply mod_add_compat; [|done].
    rewrite <- (Z.mod_mod (h + _)) by done.
    by rewrite <- Heq, Z.mod_mod by done.
Qed.

Lemma shift_hash_closed key size :
  shift_hash key size
  = ((char_sum key * weight (List.length (list_ascii_of_string key)))
       mod two32) mod size.
Proof.
  unfold shift_hash. cbv zeta.
  destruct (outer_loop_spec (List.length (list_ascii_of_string key))
                            (list_ascii_of_string key) 0 ltac:(done))
    as [Hr Heq].
  cbn zeta in Hr, Heq. f_equal.
  rewrite <- (Z.mod_small _ two32 Hr). rewrite Heq. by rewrite Z.add_0_l.
Qed.

Lemma sum_of_permutation l1 l2 : l1 ≡ₚ l2 -> sum_of l1 = sum_of l2.
Proof.
  induction 1 as [|x l1 l2 _ IH|x y l|l1 l2 l3 _ IH1 _ IH2]; simpl;
    [done|by rewrite IH|lia|congruence].
Qed.

(** X13.  [shift_hash] of a key is the sum of its characters times a
    factor that depends on the length of the key only, reduced modulo
    2^32 and then modulo the size of the table.  So two keys made of the
    same characters in another order fall into the same bucket, whatever
    the size of the table. *)
Theorem X13_shift_hash_sums_characters key size :
  shift_hash key size
  = ((char_sum key * weight (List.length (list_ascii_of_string key)))
       mod two32) mod size
  /\ forall key',
      list_ascii_of_string key' ≡ₚ list_ascii_of_string key ->
      shift_hash key' size = shift_hash key size.
Proof.
  split; [apply shift_hash_closed|].
  intros key' Hperm. rewrite !shift_hash_closed. unfold char_sum.
  rewrite (sum_of_permutation _ _ (Permutation_map char_operand Hperm)).
  by rewrite (Permutation_length Hperm).
Qed.

Lemma X13_shift_hash_sums_characters_witness :
  shift_hash "on" 13 = shift_hash "no" 13
  /\ shift_hash "on" 31 = shift_hash "no" 31.
Proof.
  split.
  - apply (proj2 (X13_shift_hash_sums_characters "no" 13)).
    simpl. apply perm_swap.
  - apply (proj2 (X13_shift_hash_sums_characters "no" 31)).
    simpl. apply perm_swap.
Defined.

Lemma upower_loop_range n :
  forall num acc, 0 <= acc < two32 -> 0 <= upower_loop n num acc < two32.
Proof.
  induction n as [|n IH]; intros num acc Hacc; [done|].
  cbn [upower_loop]. apply IH. by apply Z.mod_pos_bound.
Qed.

(** X21.  [power] of symboltable.c multiplies [exp] times, starting from
    [num]: it returns [num] to the [exp + 1], reduced modulo 2^32, and so
    [num] itself for the exponent 0. *)
Theorem X21_symbol_table_power num exp :
  0 <= num < two32 -> 0 <= exp ->
  upower num exp = num ^ (exp + 1) mod two32.
Proof.
  intros Hnum Hexp. rewrite <- upower_spec by done.
  symmetry. apply Z.mod_small. by apply upower_loop_range.
Qed.

Lemma X21_symbol_table_power_witness :
  upower 40 0 = 40 /\ upower 40 2 = 64000 /\ upower 40 10 = 0.
Proof.
  split; [|split].
  - by rewrite (X21_symbol_table_power 40 0).
  - by rewrite (X21_symbol_table_power 40 2).
  - by rewrite (X21_symbol_table_power 40 10).
Defined.

(** X22.  After [init_symbol_table] the symbol table is in order, no name
    is visible, [find_name] returns FALSE for every name and leaves
    [*prop] as it was, and the width of the variables is 1. *)
Theorem X22_init_symbol_table st id q :
  scope_inv (init_symbol_table st)
  /\ (forall v, ~ visible (init_symbol_table st) id v)
  /\ find_name (init_symbol_table st) id q = Ok (false, q)
  /\ get_variables_width (init_symbol_table st) = 1.
Proof.
  pose proof (scope_inv_init st) as Hscope.
  assert (forall v, ~ bound (init_symbol_table st) id v) as Hnb.
  { intros v (T & HT & Hin). simpl in HT. rewrite lookup_insert_eq in HT.
    injection HT as <-. by apply elem_of_nil in Hin. }
  assert (forall v, ~ visible (init_symbol_table st) id v) as Hnv.
  { intros v [Hb|[_ [Hnull _]]]; [by apply (Hnb v)|done]. }
  split; [done|]. split; [done|]. split; [|done].
  destruct (find_name_spec (init_symbol_table st) id q Hscope)
    as (b & r & -> & Htrue & Hfalse).
  destruct b.
  - destruct (Htrue eq_refl) as (v & _ & Hv). by apply Hnv in Hv.
  - destruct (Hfalse eq_refl) as [_ [->|(v & _ & Hnull & _)]]; done.
Qed.
(** ** Further properties of the code emitter *)

Lemma appended_refl g : appended g g [] 0.
Proof.
  unfold appended. rewrite app_nil_r, Z.add_0_r. done.
Qed.

Lemma appended_trans g1 g2 g3 l1 l2 c1 c2 :
  appended g1 g2 l1 c1 -> appended g2 g3 l2 c2 ->
  appended g1 g3 (l1 ++ l2) (c1 + c2).
Proof.
  intros (Hv1 & Hl1 & Hd1) (Hv2 & Hl2 & Hd2).
  split; [by rewrite Hv2, Hv1, app_assoc|]. split; [congruence|lia].
Qed.

(** [ensure_space] makes space for what is about to be emitted: one
    doubling is enough, the block being no smaller than [INITIAL_SIZE]. *)
Lemma ensure_space_space n g :
  open_body g -> 0 <= n <= INITIAL_SIZE ->
  space_for n (ensure_space n g) /\ appended g (ensure_space n g) [] 0.
Proof.
  intros (buf & Hbuf & Hip & Hle & Hsize) Hn. unfold ensure_space.
  destruct (code_size g <? ip g + n) eqn:E.
  - apply Z.ltb_lt in E. split.
    + split; [|simpl; lia]. exists buf. simpl.
      rewrite lookup_insert_eq, Hbuf. split; [done|]. split; [exact Hip|].
      unfold INITIAL_SIZE in *. lia.
    + unfold appended, view. simpl. rewrite lookup_insert_eq, Hbuf. simpl.
      rewrite app_nil_r, Z.add_0_r. done.
  - apply Z.ltb_ge in E. split; [|apply appended_refl].
    split; [by exists buf|done].
Qed.

(** An item goes into the space there is. *)
Lemma emit_space t d k g :
  space_for (k + 1) g -> 0 <= k ->
  exists g',
    emit t d g = Ok g' /\ space_for k g' /\ appended g g' [item t d] 0.
Proof.
  intros [(buf & Hbuf & Hip & Hle & Hsize) Hk] Hk0. unfold emit.
  rewrite Hbuf.
  assert ((ip g =? Z.of_nat (List.length buf)) && (ip g <? code_size g)
          = true) as ->.
  { apply andb_true_iff. split; [by apply Z.eqb_eq|apply Z.ltb_lt; lia]. }
  eexists. split; [reflexivity|]. split.
  - split; [|simpl; lia]. exists (buf ++ [item t d]). simpl.
    rewrite lookup_insert_eq. split; [done|].
    rewrite length_app. simpl. split; [lia|]. split; [lia|done].
  - unfold appended, view. simpl. rewrite lookup_insert_eq, Hbuf. simpl.
    rewrite Z.add_0_r. done.
Qed.

Lemma adjust_stack_space opcode k g :
  space_for k g ->
  space_for k (adjust_stack (instruction_set opcode) g)
  /\ appended g (adjust_stack (instruction_set opcode) g) [] (net opcode).
Proof.
  intros [(buf & Hbuf & Hip & Hle & Hsize) Hk]. split.
  - split; [by exists buf|done].
  - unfold appended, view, net. simpl. rewrite app_nil_r.
    split; [done|]. split; [done|lia].
Qed.

Lemma space_for_open g : space_for 0 g -> open_body g.
Proof. by intros [H _]. Qed.

Lemma gen_1_open opcode g :
  open_body g ->
  exists g',
    gen_1 opcode g = Ok g' /\ open_body g'
    /\ appended g g' [instruction opcode] (net opcode).
Proof.
  intros Hopen. unfold gen_1, emit_instruction.
  destruct (ensure_space_space 1 g Hopen ltac:(done)) as [Hs Ha].
  destruct (emit_space CODE_INSTRUCTION (D_code opcode) 0 _ Hs ltac:(lia))
    as (g1 & -> & Hs1 & Ha1).
  cbn [bind].
  destruct (adjust_stack_space opcode 0 g1 Hs1) as [Hs2 Ha2].
  eexists. split; [reflexivity|]. split; [by apply space_for_open|].
  apply (appended_trans _ _ _ _ _ _ _ Ha) in Ha1.
  by apply (appended_trans _ _ _ _ _ _ _ Ha1) in Ha2.
Qed.

(** An instruction and its operand. *)
Lemma gen_pair_open opcode t d g :
  open_body g ->
  exists g',
    (let* g := emit_instruction opcode (ensure_space 2 g) in
     let* g := emit t d g in
     Ok (adjust_stack (instruction_set opcode) g)) = Ok g'
    /\ open_body g'
    /\ appended g g' [instruction opcode; item t d] (net opcode).
Proof.
  intros Hopen. unfold emit_instruction.
  destruct (ensure_space_space 2 g Hopen ltac:(done)) as [Hs Ha].
  destruct (emit_space CODE_INSTRUCTION (D_code opcode) 1 _ Hs ltac:(lia))
    as (g1 & -> & Hs1 & Ha1).
  cbn [bind].
  destruct (emit_space t d 0 _ Hs1 ltac:(lia)) as (g2 & -> & Hs2 & Ha2).
  cbn [bind].
  destruct (adjust_stack_space opcode 0 g2 Hs2) as [Hs3 Ha3].
  eexists. split; [reflexivity|]. split; [by apply space_for_open|].
  apply (appended_trans _ _ _ _ _ _ _ Ha) in Ha1.
  apply (appended_trans _ _ _ _ _ _ _ Ha1) in Ha2.
  by apply (appended_trans _ _ _ _ _ _ _ Ha2) in Ha3.
Qed.

Lemma gen_2_open opcode operand g :
  open_body g ->
  exists g',
    gen_2 opcode operand g = Ok g' /\ open_body g'
    /\ appended g g'
         [instruction opcode;
          item (Z.lor CODE_OPERAND CODE_INTEGER) (D_num operand)]
         (net opcode).
Proof. apply gen_pair_open. Qed.

Lemma gen_2_label_open opcode label g :
  open_body g ->
  exists g',
    gen_2_label opcode label g = Ok g' /\ open_body g'
    /\ appended g g'
         [instruction opcode;
          item (Z.lor CODE_LABEL CODE_OPERAND) (D_label label)]
         (net opcode).
Proof. apply gen_pair_open. Qed.

Lemma gen_newarray_open atype g :
  open_body g ->
  exists g',
    gen_newarray atype g = Ok g' /\ open_body g'
    /\ appended g g'
         [instruction JVM_NEWARRAY;
          item (Z.lor CODE_OPERAND CODE_ARRAY_TYPE) (D_atype atype)]
         (net JVM_NEWARRAY).
Proof. apply gen_pair_open. Qed.

Lemma gen_label_open label g :
  open_body g ->
  exists g',
    gen_label label g = Ok g' /\ open_body g'
    /\ appended g g' [item CODE_LABEL (D_label label)] 0.
Proof.
  intros Hopen. unfold gen_label.
  destruct (ensure_space_space 1 g Hopen ltac:(done)) as [Hs Ha].
  destruct (emit_space CODE_LABEL (D_label label) 0 _ Hs ltac:(lia))
    as (g1 & -> & Hs1 & Ha1).
  eexists. split; [reflexivity|]. split; [by apply space_for_open|].
  by apply (appended_trans _ _ _ _ _ _ _ Ha) in Ha1.
Qed.

Lemma gen_print_string_open str g :
  open_body g ->
  exists g',
    gen_print_string str g = Ok g' /\ open_body g'
    /\ appended g g'
         [instruction JVM_GETSTATIC; item REF (D_string ref_print_stream);
          instruction JVM_LDC;
          item (Z.lor (Z.lor CODE_OPERAND CODE_STRING) CODE_ALLOCATED)
               (D_string str);
          instruction JVM_INVOKEVIRTUAL;
          item REF (D_string ref_print_string)]
         (net JVM_GETSTATIC + net JVM_LDC + net JVM_INVOKEVIRTUAL).
Proof.
  intros Hopen. unfold gen_print_string, emit_instruction.
  destruct (ensure_space_space 6 g Hopen ltac:(done)) as [Hs Ha].
  destruct (emit_space CODE_INSTRUCTION (D_code JVM_GETSTATIC) 5 _ Hs
                       ltac:(lia)) as (g1 & -> & Hs1 & Ha1).
  cbn [bind].
  destruct (emit_space REF (D_string ref_print_stream) 4 _ Hs1 ltac:(lia))
    as (g2 & -> & Hs2 & Ha2).
  cbn [bind].
  destruct (emit_space CODE_INSTRUCTION (D_code JVM_LDC) 3 _ Hs2 ltac:(lia))
    as (g3 & -> & Hs3 & Ha3).
  cbn [bind].
  destruct (emit_space (Z.lor (Z.lor CODE_OPERAND CODE_STRING) CODE_ALLOCATED)
                       (D_string str) 2 _ Hs3 ltac:(lia))
    as (g4 & -> & Hs4 & Ha4).
  cbn [bind].
  destruct (emit_space CODE_INSTRUCTION (D_code JVM_INVOKEVIRTUAL) 1 _ Hs4
                       ltac:(lia)) as (g5 & -> & Hs5 & Ha5).
  cbn [bind].
  destruct (emit_space REF (D_string ref_print_string) 0 _ Hs5 ltac:(lia))
    as (g6 & -> & Hs6 & Ha6).
  cbn [bind].
  destruct (adjust_stack_space JVM_GETSTATIC 0 g6 Hs6) as [Hs7 Ha7].
  destruct (adjust_stack_space JVM_LDC 0 _ Hs7) as [Hs8 Ha8].
  destruct (adjust_stack_space JVM_INVOKEVIRTUAL 0 _ Hs8) as [Hs9 Ha9].
  eexists. split; [reflexivity|]. split; [by apply space_for_open|].
  apply (appended_trans _ _ _ _ _ _ _ Ha) in Ha1.
  apply (appended_trans _ _ _ _ _ _ _ Ha1) in Ha2.
  apply (appended_trans _ _ _ _ _ _ _ Ha2) in Ha3.
  apply (appended_trans _ _ _ _ _ _ _ Ha3) in Ha4.
  apply (appended_trans _ _ _ _ _ _ _ Ha4) in Ha5.
  apply (appended_trans _ _ _ _ _ _ _ Ha5) in Ha6.
  apply (appended_trans _ _ _ _ _ _ _ Ha6) in Ha7.
  apply (appended_trans _ _ _ _ _ _ _ Ha7) in Ha8.
  by apply (appended_trans _ _ _ _ _ _ _ Ha8) in Ha9.
Qed.

Lemma init_subroutine_codegen_open name p g :
  open_body (init_subroutine_codegen name p g)
  /\ view (init_subroutine_codegen name p g) = [].
Proof.
  split.
  - exists []. simpl. rewrite lookup_insert_eq. done.
  - unfold view. simpl. by rewrite lookup_insert_eq.
Qed.

(** X17.  Once [init_subroutine_codegen] has opened a body, emission never
    writes outside the block of the body, however much has been emitted:
    [gen_1], [gen_2], [gen_label], [gen_2_label], [gen_newarray] and
    [gen_print_string] return, the body stays open, the items of the call
    are appended to the code in the order of the source, the stack depth
    moves by the net effect of the instructions, and no label is used
    up. *)
Theorem X17_emission_stays_in_block g :
  open_body g ->
  (forall opcode,
      exists g', gen_1 opcode g = Ok g' /\ open_body g'
                 /\ appended g g' [instruction opcode] (net opcode))
  /\ (forall opcode operand,
         exists g', gen_2 opcode operand g = Ok g' /\ open_body g'
                    /\ appended g g'
                         [instruction opcode;
                          item (Z.lor CODE_OPERAND CODE_INTEGER)
                               (D_num operand)]
                         (net opcode))
  /\ (forall label,
         exists g', gen_label label g = Ok g' /\ open_body g'
                    /\ appended g g' [item CODE_LABEL (D_label label)] 0)
  /\ (forall opcode label,
         exists g', gen_2_label opcode label g = Ok g' /\ open_body g'
                    /\ appended g g'
                         [instruction opcode;
                          item (Z.lor CODE_LABEL CODE_OPERAND)
                               (D_label label)]
                         (net opcode))
  /\ (forall atype,
         exists g', gen_newarray atype g = Ok g' /\ open_body g'
                    /\ appended g g'
                         [instruction JVM_NEWARRAY;
                          item (Z.lor CODE_OPERAND CODE_ARRAY_TYPE)
                               (D_atype atype)]
                         (net JVM_NEWARRAY))
  /\ (forall str,
         exists g', gen_print_string str g = Ok g' /\ open_body g'
                    /\ appended g g'
                         [instruction JVM_GETSTATIC;
                          item REF (D_string ref_print_stream);
                          instruction JVM_LDC;
                          item (Z.lor (Z.lor CODE_OPERAND CODE_STRING)
                                      CODE_ALLOCATED)
                               (D_string str);
                          instruction JVM_INVOKEVIRTUAL;
                          item REF (D_string ref_print_string)]
                         (net JVM_GETSTATIC + net JVM_LDC
                          + net JVM_INVOKEVIRTUAL)).
Proof.
  intros Hopen.
  split; [intros; by apply gen_1_open|].
  split; [intros; by apply gen_2_open|].
  split; [intros; by apply gen_label_open|].
  split; [intros; by apply gen_2_label_open|].
  split; [intros; by apply gen_newarray_open|].
  intros; by apply gen_print_string_open.
Qed.

Lemma X17_emission_stays_in_block_witness :
  exists g',
    gen_2 JVM_LDC 7 (init_subroutine_codegen "main" 1%nat initial_codegen)
    = Ok g'
    /\ open_body g'
    /\ view g' = [instruction JVM_LDC;
                  item (Z.lor CODE_OPERAND CODE_INTEGER) (D_num 7)].
Proof.
  destruct (X17_emission_stays_in_block
              (init_subroutine_codegen "main" 1%nat initial_codegen))
    as (_ & H & _).
  - exists []. split; [reflexivity|]. split; [reflexivity|].
    split; [by vm_compute|by vm_compute].
  - destruct (H JVM_LDC 7) as (g' & E & Hopen & Hv & _).
    exists g'. split; [exact E|]. split; [exact Hopen|]. exact Hv.
Defined.

(** X18.  [gen_cmp] takes two labels, the next two of the counter, and
    appends the code of a comparison that leaves 0 or 1: the branch on
    [opcode] to the first label, [ldc 0], [goto] the second label, the
    first label, [ldc 1], the second label.  The emitter counts both
    [ldc] into the stack depth, which so ends 2 above the depth the
    branch leaves. *)
Theorem X18_gen_cmp opcode g :
  open_body g ->
  exists g',
    gen_cmp opcode g = Ok g'
    /\ open_body g'
    /\ view g'
       = view g ++ comparison opcode (label_counter g) (label_counter g + 1)
    /\ label_counter g' = label_counter g + 2
    /\ stack_depth g' = stack_depth g + net opcode + 2.
Proof.
  intros Hopen. unfold gen_cmp. cbn [get_label label_counter].
  set (g2 := {| class_name := _ |}).
  assert (open_body g2) as Hopen2.
  { destruct Hopen as (buf & H). exists buf. exact H. }
  assert (view g2 = view g /\ stack_depth g2 = stack_depth g
          /\ label_counter g2 = label_counter g + 2) as (Hv2 & Hd2 & Hl2).
  { split; [done|]. split; [done|]. simpl. lia. }
  clearbody g2.
  destruct (gen_2_label_open opcode (label_counter g) g2 Hopen2)
    as (g3 & -> & Hopen3 & Ha3).
  cbn [bind].
  destruct (gen_2_open JVM_LDC 0 g3 Hopen3) as (g4 & -> & Hopen4 & Ha4).
  cbn [bind].
  destruct (gen_2_label_open JVM_GOTO (label_counter g + 1) g4 Hopen4)
    as (g5 & -> & Hopen5 & Ha5).
  cbn [bind].
  destruct (gen_label_open (label_counter g) g5 Hopen5)
    as (g6 & -> & Hopen6 & Ha6).
  cbn [bind].
  destruct (gen_2_open JVM_LDC 1 g6 Hopen6) as (g7 & -> & Hopen7 & Ha7).
  cbn [bind].
  destruct (gen_label_open (label_counter g + 1) g7 Hopen7)
    as (g8 & E & Hopen8 & Ha8).
  exists g8. split; [exact E|]. split; [done|].
  apply (appended_trans _ _ _ _ _ _ _ Ha3) in Ha4.
  apply (appended_trans _ _ _ _ _ _ _ Ha4) in Ha5.
  apply (appended_trans _ _ _ _ _ _ _ Ha5) in Ha6.
  apply (appended_trans _ _ _ _ _ _ _ Ha6) in Ha7.
  apply (appended_trans _ _ _ _ _ _ _ Ha7) in Ha8.
  destruct Ha8 as (Hv & Hl & Hd).
  split; [by rewrite Hv, Hv2|]. split; [by rewrite Hl|].
  rewrite Hd, Hd2. unfold net. simpl. lia.
Qed.

Lemma X18_gen_cmp_witness :
  exists g',
    gen_cmp JVM_IF_ICMPLT
            (init_subroutine_codegen "main" 1%nat initial_codegen) = Ok g'
    /\ view g' = comparison JVM_IF_ICMPLT 1 2
    /\ label_counter g' = 3
    /\ stack_depth g' = 0.
Proof.
  destruct (X18_gen_cmp
              JVM_IF_ICMPLT
              (init_subroutine_codegen "main" 1%nat initial_codegen))
    as (g' & E & _ & Hv & Hl & Hd).
  - exists []. split; [reflexivity|]. split; [reflexivity|].
    split; [by vm_compute|by vm_compute].
  - exists g'. split; [exact E|]. split; [exact Hv|].
    split; [exact Hl|exact Hd].
Defined.

(** X19.  While no body is open and the size of the block is 0, as it is
    until the first call of [init_subroutine_codegen], [ensure_space]
    doubles the size 0 to 0, and the store of the first item lies outside
    the block. *)
Theorem X19_emission_without_body g :
  code_size g = 0 -> 0 <= ip g ->
  (forall opcode, gen_1 opcode g = Undefined)
  /\ (forall opcode operand, gen_2 opcode operand g = Undefined)
  /\ (forall label, gen_label label g = Undefined)
  /\ (forall opcode label, gen_2_label opcode label g = Undefined)
  /\ (forall str, gen_print_string str g = Undefined).
Proof.
  intros Hsize Hip.
  assert (forall n t d, 0 < n -> emit t d (ensure_space n g) = Undefined)
    as Hemit.
  { intros n t d Hn. unfold ensure_space. rewrite Hsize.
    assert ((0 <? ip g + n) = true) as -> by (apply Z.ltb_lt; lia).
    unfold emit. cbn [set_buffer bufs code ip code_size].
    rewrite lookup_insert_eq. change (0 * 2) with 0.
    assert ((ip g <? 0) = false) as -> by (apply Z.ltb_ge; lia).
    by rewrite andb_false_r. }
  split; [intros; unfold gen_1, emit_instruction; by rewrite Hemit|].
  split; [intros; unfold gen_2, emit_instruction; by rewrite Hemit|].
  split; [intros; unfold gen_label; by rewrite Hemit|].
  split; [intros; unfold gen_2_label, emit_instruction; by rewrite Hemit|].
  intros; unfold gen_print_string, emit_instruction; by rewrite Hemit.
Qed.

Lemma X19_emission_without_body_witness :
  gen_1 JVM_RETURN (init_code_generation initial_codegen) = Undefined.
Proof.
  destruct (X19_emission_without_body (init_code_generation initial_codegen))
    as [H _]; [reflexivity|by vm_compute|].
  apply H.
Defined.

Lemma param_descriptor_ext f1 f2 n :
  forall i params,
    Forall (fun t => f1 t = f2 t) params ->
    param_descriptor f1 n i params = param_descriptor f2 n i params.
Proof.
  induction n as [|n IH]; intros i params Hall; [done|].
  cbn [param_descriptor].
  destruct (params !! i) as [t|] eqn:E; [|done].
  rewrite (IH (S i) params Hall).
  by rewrite (Forall_lookup_1 _ _ _ _ Hall E).
Qed.

Lemma param_descriptor_spec n :
  forall i params,
    (i + n <= List.length params)%nat ->
    param_descriptor IS_ARRAY_TYPE n i params
    = Ok (descriptor (take n (drop i params))).
Proof.
  induction n as [|n IH]; intros i params Hlen; [done|].
  cbn [param_descriptor].
  destruct (params !! i) as [t|] eqn:E.
  2:{ apply lookup_ge_None in E. lia. }
  rewrite (IH (S i) params) by lia. cbn [bind].
  rewrite (drop_S params t i E). done.
Qed.

Lemma param_descriptor_short n :
  forall i params,
    (List.length params < i + n)%nat -> (0 < n)%nat ->
    param_descriptor IS_ARRAY_TYPE n i params = Undefined.
Proof.
  induction n as [|n IH]; intros i params Hlen Hn; [lia|].
  cbn [param_descriptor].
  destruct (params !! i) as [t|] eqn:E; [|done].
  apply lookup_lt_Some in E.
  rewrite (IH (S i) params) by lia. done.
Qed.

(** X23.  For a subroutine whose record gives as many parameters as it
    holds types, [gen_call] appends [invokestatic] and the reference
    [class.name(parameters)result]: [[I] for an array parameter and [I]
    for any other, [V] for the result of a subroutine without a return
    type and [I] otherwise, after a bracket for an array.  The stack depth
    grows by one whatever the parameters are.  When the record gives more
    parameters than it holds types, the loop over the parameters reads
    past the end of the types. *)
Theorem X23_gen_call ps fname a rec cname g :
  open_body g -> class_name g = Some cname -> ps !! a = Some rec ->
  (prop_nparams rec = Z.of_nat (List.length (prop_params rec)) ->
   exists g',
     gen_call ps fname (Some a) g = Ok g' /\ open_body g'
     /\ appended g g'
          [instruction JVM_INVOKESTATIC;
           item (Z.lor (Z.lor CODE_OPERAND CODE_REFERENCE) CODE_ALLOCATED)
                (D_string (method_reference cname fname rec))]
          1)
  /\ (Z.of_nat (List.length (prop_params rec)) < prop_nparams rec ->
      gen_call ps fname (Some a) g = Undefined).
Proof.
  intros Hopen Hclass Hrec. unfold gen_call, emit_instruction.
  destruct (ensure_space_space 2 g Hopen ltac:(done)) as [Hs Ha].
  destruct (emit_space CODE_INSTRUCTION (D_code JVM_INVOKESTATIC) 1 _ Hs
                       ltac:(lia)) as (g1 & E1 & Hs1 & Ha1).
  rewrite E1. cbn [bind].
  assert (class_name g1 = Some cname) as ->.
  { unfold emit in E1.
    destruct (bufs (ensure_space 2 g) !! code (ensure_space 2 g)); [|done].
    destruct (_ && _); [|done]. injection E1 as <-. simpl.
    unfold ensure_space. by destruct (code_size g <? ip g + 2). }
  rewrite Hrec. split.
  - intros Hn. rewrite Hn, Nat2Z.id.
    rewrite param_descriptor_spec by done. cbn [bind].
    rewrite drop_0, firstn_all.
    destruct (emit_space (Z.lor (Z.lor CODE_OPERAND CODE_REFERENCE)
                                CODE_ALLOCATED)
                         (D_string (method_reference cname fname rec)) 0 _
                         Hs1 ltac:(lia)) as (g2 & E2 & Hs2 & Ha2).
    unfold method_reference, signature in E2. rewrite E2. cbn [bind].
    destruct (adjust_stack_space JVM_INVOKESTATIC 0 g2 Hs2) as [Hs3 Ha3].
    eexists. split; [reflexivity|]. split; [by apply space_for_open|].
    apply (appended_trans _ _ _ _ _ _ _ Ha) in Ha1.
    apply (appended_trans _ _ _ _ _ _ _ Ha1) in Ha2.
    by apply (appended_trans _ _ _ _ _ _ _ Ha2) in Ha3.
  - intros Hn. rewrite param_descriptor_short; [done|lia|lia].
Qed.

Lemma X23_gen_call_witness :
  let g := set_class_name
             "F" (init_subroutine_codegen "main" 1%nat initial_codegen) in
  let rec := {| prop_type := SET_AS_CALLABLE TYPE_INTEGER; prop_offset := 0;
                prop_nparams := 2;
                prop_params := [TYPE_INTEGER; SET_AS_ARRAY TYPE_INTEGER] |} in
  exists g',
    gen_call {[ 5%nat := rec ]} "sq" (Some 5%nat) g = Ok g'
    /\ view g'
       = [instruction JVM_INVOKESTATIC;
          item (Z.lor (Z.lor CODE_OPERAND CODE_REFERENCE) CODE_ALLOCATED)
               (D_string "F.sq(I[I)I")].
Proof.
  intros g rec.
  destruct (X23_gen_call {[ 5%nat := rec ]} "sq" 5%nat rec "F" g)
    as [H _].
  - exists []. split; [reflexivity|]. split; [reflexivity|].
    split; [by vm_compute|by vm_compute].
  - reflexivity.
  - apply lookup_singleton_eq.
  - destruct (H eq_refl) as (g' & E & _ & Hv & _).
    exists g'. split; [exact E|exact Hv].
Defined.

Lemma gen_print_code_open method g :
  open_body g ->
  exists g',
    (let* g := emit_instruction JVM_GETSTATIC (ensure_space 5 g) in
     let* g := emit REF (D_string ref_print_stream) g in
     let* g := emit_instruction JVM_SWAP g in
     let* g := emit_instruction JVM_INVOKEVIRTUAL g in
     let* g := emit REF (D_string method) g in
     Ok (adjust_stack (instruction_set JVM_INVOKEVIRTUAL)
           (adjust_stack (instruction_set JVM_SWAP)
              (adjust_stack (instruction_set JVM_GETSTATIC) g)))) = Ok g'
    /\ open_body g' /\ appended g g' (print_code method) 1.
Proof.
  intros Hopen. unfold emit_instruction.
  destruct (ensure_space_space 5 g Hopen ltac:(done)) as [Hs Ha].
  destruct (emit_space CODE_INSTRUCTION (D_code JVM_GETSTATIC) 4 _ Hs
                       ltac:(lia)) as (g1 & -> & Hs1 & Ha1).
  cbn [bind].
  destruct (emit_space REF (D_string ref_print_stream) 3 _ Hs1 ltac:(lia))
    as (g2 & -> & Hs2 & Ha2).
  cbn [bind].
  destruct (emit_space CODE_INSTRUCTION (D_code JVM_SWAP) 2 _ Hs2 ltac:(lia))
    as (g3 & -> & Hs3 & Ha3).
  cbn [bind].
  destruct (emit_space CODE_INSTRUCTION (D_code JVM_INVOKEVIRTUAL) 1 _ Hs3
                       ltac:(lia)) as (g4 & -> & Hs4 & Ha4).
  cbn [bind].
  destruct (emit_space REF (D_string method) 0 _ Hs4 ltac:(lia))
    as (g5 & -> & Hs5 & Ha5).
  cbn [bind].
  destruct (adjust_stack_space JVM_GETSTATIC 0 g5 Hs5) as [Hs6 Ha6].
  destruct (adjust_stack_space JVM_SWAP 0 _ Hs6) as [Hs7 Ha7].
  destruct (adjust_stack_space JVM_INVOKEVIRTUAL 0 _ Hs7) as [Hs8 Ha8].
  eexists. split; [reflexivity|]. split; [by apply space_for_open|].
  apply (appended_trans _ _ _ _ _ _ _ Ha) in Ha1.
  apply (appended_trans _ _ _ _ _ _ _ Ha1) in Ha2.
  apply (appended_trans _ _ _ _ _ _ _ Ha2) in Ha3.
  apply (appended_trans _ _ _ _ _ _ _ Ha3) in Ha4.
  apply (appended_trans _ _ _ _ _ _ _ Ha4) in Ha5.
  apply (appended_trans _ _ _ _ _ _ _ Ha5) in Ha6.
  apply (appended_trans _ _ _ _ _ _ _ Ha6) in Ha7.
  by apply (appended_trans _ _ _ _ _ _ _ Ha7) in Ha8.
Qed.

(** X24.  [gen_print] goes by the type of the value, or by the return type
    for the type of a subroutine: for a boolean it appends the call of
    [print(Z)V] on the output stream, for an integer that of [print(I)V],
    and for every other type, an array among them, its assertion fails
    and the compiler aborts. *)
Theorem X24_gen_print type g :
  open_body g ->
  (printed_type type = TYPE_BOOLEAN ->
   exists g', gen_print type g = Ok g' /\ open_body g'
              /\ appended g g' (print_code ref_print_boolean) 1)
  /\ (printed_type type = TYPE_INTEGER ->
      exists g', gen_print type g = Ok g' /\ open_body g'
                 /\ appended g g' (print_code ref_print_integer) 1)
  /\ (printed_type type <> TYPE_BOOLEAN ->
      printed_type type <> TYPE_INTEGER ->
      gen_print type g = Aborted).
Proof.
  intros Hopen. unfold gen_print. fold (printed_type type).
  split; [|split].
  - intros ->. change (TYPE_BOOLEAN =? TYPE_BOOLEAN) with true. cbv iota.
    by apply gen_print_code_open.
  - intros ->. change (TYPE_INTEGER =? TYPE_BOOLEAN) with false.
    change (TYPE_INTEGER =? TYPE_INTEGER) with true. cbv iota.
    by apply gen_print_code_open.
  - intros Hb Hi. apply Z.eqb_neq in Hb, Hi. rewrite Hb, Hi.
    unfold emit_instruction.
    destruct (ensure_space_space 5 g Hopen ltac:(done)) as [Hs Ha].
    destruct (emit_space CODE_INSTRUCTION (D_code JVM_GETSTATIC) 4 _ Hs
                         ltac:(lia)) as (g1 & -> & Hs1 & Ha1).
    cbn [bind].
    destruct (emit_space REF (D_string ref_print_stream) 3 _ Hs1 ltac:(lia))
      as (g2 & -> & Hs2 & Ha2).
    cbn [bind].
    destruct (emit_space CODE_INSTRUCTION (D_code JVM_SWAP) 2 _ Hs2
                         ltac:(lia)) as (g3 & -> & Hs3 & Ha3).
    cbn [bind].
    destruct (emit_space CODE_INSTRUCTION (D_code JVM_INVOKEVIRTUAL) 1 _ Hs3
                         ltac:(lia)) as (g4 & -> & Hs4 & Ha4).
    done.
Qed.

Lemma X24_gen_print_witness :
  gen_print (SET_AS_ARRAY TYPE_INTEGER)
            (init_subroutine_codegen "main" 1%nat initial_codegen)
  = Aborted.
Proof.
  destruct (X24_gen_print
              (SET_AS_ARRAY TYPE_INTEGER)
              (init_subroutine_codegen "main" 1%nat initial_codegen))
    as (_ & _ & H).
  - exists []. split; [reflexivity|]. split; [reflexivity|].
    split; [by vm_compute|by vm_compute].
  - apply H; by vm_compute.
Defined.

(** X28.  A call and the method it calls agree: for a subroutine other
    than [main] whose parameters are variables, the header [dump_method]
    writes declares the very signature that [gen_call] puts, after the
    class name and a dot, into the reference of [invokestatic].  A
    subroutine that is named [main] gets the header of the entry point
    instead. *)
Theorem X28_call_matches_method ps b name rec :
  b_name b = Some name -> ps !! b_idprop b = Some rec ->
  prop_nparams rec = Z.of_nat (List.length (prop_params rec)) ->
  Forall (fun t => IS_CALLABLE_TYPE t = false) (prop_params rec) ->
  (name <> "main" ->
   method_header ps b
   = Ok (".method public static " ++ signature name rec ++ nl)%string)
  /\ (name = "main" ->
      method_header ps b
      = Ok (".method public static main([Ljava/lang/String;)V" ++ nl)%string).
Proof.
  intros Hname Hrec Hn Hvars. unfold method_header. rewrite Hname.
  split.
  - intros Hne.
    assert ((strcmp name "main" =? 0) = false) as ->.
    { apply Z.eqb_neq. intros E. apply Hne. by apply key_strcmp_eq. }
    rewrite Hrec, Hn, Nat2Z.id.
    rewrite (param_descriptor_ext IS_ARRAY IS_ARRAY_TYPE).
    + rewrite param_descriptor_spec by done. cbn [bind].
      rewrite drop_0, firstn_all. unfold signature.
      by rewrite <- !string_app_assoc.
    + eapply Forall_impl; [exact Hvars|]. intros t Ht. unfold IS_ARRAY.
      rewrite Ht. cbn [negb]. by rewrite andb_true_r.
  - intros ->. done.
Qed.

Lemma X28_call_matches_method_witness :
  let rec := {| prop_type := SET_AS_CALLABLE TYPE_INTEGER; prop_offset := 0;
                prop_nparams := 2;
                prop_params := [TYPE_INTEGER; SET_AS_ARRAY TYPE_INTEGER] |} in
  let b := {| b_name := Some "sq"; b_idprop := 5%nat; b_code := 1%nat;
              b_ip := 0; b_max_stack_depth := 0; b_variables_width := 0;
              b_next := NULL; b_prev := NULL |} in
  method_header {[ 5%nat := rec ]} b
  = Ok (".method public static sq(I[I)I" ++ nl)%string
  /\ method_reference "F" "sq" rec = "F.sq(I[I)I".
Proof.
  intros rec b. split; [|reflexivity].
  destruct (X28_call_matches_method {[ 5%nat := rec ]} b "sq" rec) as [H _].
  - reflexivity.
  - apply lookup_singleton_eq.
  - reflexivity.
  - repeat constructor.
  - apply H. discriminate.
Defined.
(** ** Further properties of the parser *)






(** ** The name of the class *)

Lemma same_class_refl g : same_class g g.
Proof. done. Qed.

Lemma same_class_trans g1 g2 g3 :
  same_class g1 g2 -> same_class g2 g3 -> same_class g1 g3.
Proof. unfold same_class. congruence. Qed.

Lemma same_bodies_class g g' : same_bodies g g' -> same_class g g'.
Proof. by intros (_ & _ & _ & H & _). Qed.

Lemma close_subroutine_codegen_class fuel w g g' :
  close_subroutine_codegen fuel w g = Ok g' -> same_class g g'.
Proof.
  unfold close_subroutine_codegen. cbv zeta.
  destruct (negb (bodies g =? NULL)%nat).
  - destruct (link_loop _ _ _ _) as [p| | | |]; try done. cbn [bind].
    destruct (_ !! bodies g); [|done]. by intros [= <-].
  - by intros [= <-].
Qed.

Lemma expect_Ok type c u c' :
  expect type c = Ok (u, c') ->
  tok_type (token c) = type /\ next_token c = Ok (tt, c').
Proof.
  unfold expect, bindP, tok. cbn [bind]. unfold tok_eqb.
  destruct (TokenType_eq_dec (tok_type (token c)) type) as [E|E]; [|done].
  intros H. split; [done|]. by destruct u.
Qed.

Lemma expect_id_Ok c id c' :
  expect_id c = Ok (id, c') ->
  tok_type (token c) = TOKEN_ID /\ next_token c = Ok (tt, c')
  /\ id = tok_lexeme (token c).
Proof.
  unfold expect_id, tok_eqb.
  destruct (TokenType_eq_dec (tok_type (token c)) TOKEN_ID) as [E|E]; [|done].
  unfold bindP. destruct (next_token c) as [[[] c1]| | | |]; try done.
  cbn [bind]. unfold ret. by intros [= <- <-].
Qed.

(** X27.  A program that parses starts with the token [source] and an
    identifier, and the class name the emitter holds when the parse is
    over is the lexeme of that identifier: no function definition and no
    statement changes it. *)
Theorem X27_class_name fuel text c :
  parse fuel text = Ok c ->
  exists c1 c2,
    next_token (start text) = Ok (tt, c1)
    /\ tok_type (token c1) = TOKEN_SOURCE
    /\ next_token c1 = Ok (tt, c2)
    /\ tok_type (token c2) = TOKEN_ID
    /\ class_name (codegen c) = Some (tok_lexeme (token c2)).
Proof.
  unfold parse. intros H.
  destruct ((next_token >> parse_source fuel) (start text))
    as [[u c']| | | |] eqn:E; try done.
  injection H as ->. apply bindP_Ok in E as ([] & c1 & H0 & H).
  unfold parse_source in H.
  apply bindP_Ok in H as (u1 & c2 & H1 & H).
  apply expect_Ok in H1 as [Hsource H1].
  apply bindP_Ok in H as (cname & c3 & H2 & H).
  pose proof (runs_expect_id same_class same_class_refl same_class_trans
                             _ _ _ H2) as Hc3.
  apply expect_id_Ok in H2 as (Hid & H2 & ->).
  exists c1, c2. do 4 (split; [done|]).
  assert (runs same_class
            (let! _ := while_token fuel (is_token TOKEN_FUNCTION)
                         (fun _ : unit => parse_funcdef fuel) tt in
             let! p := new_idprop TYPE_CALLABLE 0 0 [] in
             gen_total (init_subroutine_codegen "main" p) >>
             parse_body fuel >>
             gen (gen_1 JVM_RETURN) >>
             let! width := variables_width in
             gen (close_subroutine_codegen fuel width))) as Hrest.
  { repeat first
           [ apply (runs_parse_funcdef same_class same_class_refl
                                       same_class_trans same_bodies_class);
             [done|apply close_subroutine_codegen_class]
           | apply (runs_while same_class same_class_refl same_class_trans);
             intros ?
           | apply (runs_new_idprop same_class same_class_refl)
           | apply (runs_gen_total same_class); done
           | apply (runs_parse_body same_class same_class_refl
                                    same_class_trans same_bodies_class)
           | apply (runs_gen same_class same_bodies_class);
             apply gen_1_same
           | apply (runs_variables_width same_class same_class_refl)
           | apply (runs_gen_rel same_class);
             apply close_subroutine_codegen_class
           | apply (runs_bind same_class same_class_trans); [|intros ?] ]. }
  apply bindP_Ok in H as (u2 & c4 & H3 & H).
  apply gen_total_Ok in H3.
  apply Hrest in H. unfold same_class in H. rewrite H, H3. done.
Qed.

Lemma X27_class_name_witness :
  exists c,
    parse 100 square_program = Ok c /\ class_name (codegen c) = Some "F".
Proof.
  assert (match parse 100 square_program with
          | Ok c => True
          | _ => False
          end) as H by (vm_compute; exact I).
  destruct (parse 100 square_program) as [c| | | |] eqn:E; [|destruct H..].
  destruct (X27_class_name 100 square_program c E)
    as (c1 & c2 & H1 & _ & H2 & _ & Hname).
  exists c. split; [reflexivity|]. rewrite Hname.
  assert (match next_token (start square_program) with
          | Ok (_, c1) =>
            match next_token c1 with
            | Ok (_, c2) => tok_lexeme (token c2) = "F"
            | _ => False
            end
          | _ => False
          end) as Hlex by (vm_compute; reflexivity).
  rewrite H1, H2 in Hlex. by rewrite Hlex.
Defined.
